(** * Argon / Krypton daemon: installation pipeline and console sessions

    A shallow embedding of the daemon-side orchestration core:
    - [src/unnamed/part_000] (daemon [src/routes/servers.ts]): the variable
      processor, the config-file writer and [runInstallation];
    - the TypeScript half of [src/manage.sh] (the [WebSocketManager] class):
      log frame decoding, the CPU formula, session set-up, power actions and
      the resource monitor.

    JavaScript strings are sequences of UTF-16 code units and are modelled as
    [list N]; the built-ins the code calls ([split], [startsWith], [slice],
    [parseInt], [replace], [trim], [path.normalize], [path.join],
    [Buffer.readUInt32BE], ...) are written out with the behaviour ECMAScript
    and Node document for them. *)

From Stdlib Require Import String Ascii DecimalString.
From Stdlib.Strings Require Import Byte.
From Stdlib Require Import List NArith ZArith Bool Lia Floats.
Import ListNotations.

Set Implicit Arguments.

(* ================================================================== *)
(** ** JavaScript strings *)
(* ================================================================== *)

Module JS.

(** A string is its list of UTF-16 code units. *)
Definition jsstring := list N.

(** An ASCII literal as a JavaScript string. *)
Definition js (s : string) : jsstring :=
  map N_of_ascii (list_ascii_of_string s).

(** [a === b] on strings. *)
Fixpoint jseqb (a b : jsstring) : bool :=
  match a, b with
  | [], [] => true
  | x :: a', y :: b' => N.eqb x y && jseqb a' b'
  | _, _ => false
  end.

(** [s.startsWith(p)]. *)
Fixpoint startsWith (p s : jsstring) : bool :=
  match p, s with
  | [], _ => true
  | x :: p', y :: s' => N.eqb x y && startsWith p' s'
  | _ :: _, [] => false
  end.

(** [s.slice(n)] for a non-negative [n]. *)
Definition slice (n : nat) (s : jsstring) : jsstring := skipn n s.

(** [s.split(sep)] for a separator of one code unit: the pieces between the
    occurrences of [sep]; the empty string splits into one empty piece. *)
Fixpoint split (sep : N) (s : jsstring) : list jsstring :=
  match s with
  | [] => [[]]
  | c :: s' =>
      if N.eqb c sep then [] :: split sep s'
      else match split sep s' with
           | [] => [[c]]
           | w :: ws => (c :: w) :: ws
           end
  end.

(** [s.indexOf(p)]: the offset of the first occurrence of [p], if any. *)
Fixpoint indexOf (p s : jsstring) : option nat :=
  match s with
  | [] => if startsWith p [] then Some 0 else None
  | _ :: s' =>
      if startsWith p s then Some 0 else option_map S (indexOf p s')
  end.

(** White space and line terminators, as [trim] and [parseInt] skip them. *)
Definition isWhiteSpace (c : N) : bool :=
  ((9 <=? c) && (c <=? 13) || (c =? 32) || (c =? 160) || (c =? 5760)
   || (8192 <=? c) && (c <=? 8202) || (c =? 8232) || (c =? 8233)
   || (c =? 8239) || (c =? 8287) || (c =? 12288) || (c =? 65279))%N.

Fixpoint trimStart (s : jsstring) : jsstring :=
  match s with
  | [] => []
  | c :: s' => if isWhiteSpace c then trimStart s' else s
  end.

(** [s.trim()]. *)
Definition trim (s : jsstring) : jsstring :=
  rev (trimStart (rev (trimStart s))).

Definition isDigit (c : N) : bool := ((48 <=? c) && (c <=? 57))%N.

Fixpoint takeDigits (s : jsstring) : jsstring :=
  match s with
  | [] => []
  | c :: s' => if isDigit c then c :: takeDigits s' else []
  end.

(** The number a string of decimal digits denotes. *)
Definition digitsValue (ds : jsstring) : Z :=
  fold_left (fun acc c => acc * 10 + (Z.of_N c - 48))%Z ds 0%Z.

(** [parseInt(s, 10)]: leading white space is skipped, one sign is read, then
    the longest run of decimal digits; [None] stands for [NaN].  The result
    is kept as an exact integer: the only use made of it is a comparison with
    a string length, which is below 2^53, and rounding to a double is
    monotone and exact below 2^53, so the comparison is not affected. *)
Definition parseInt (s : jsstring) : option Z :=
  let s1 := trimStart s in
  let '(neg, s2) :=
    match s1 with
    | c :: r => if (c =? 45)%N then (true, r)
                else if (c =? 43)%N then (false, r) else (false, s1)
    | [] => (false, s1)
    end in
  match takeDigits s2 with
  | [] => None
  | ds => Some (if neg then - digitsValue ds else digitsValue ds)%Z
  end.

(** [GetSubstitution] for a string pattern (no capture groups): in the
    replacement text [$$] stands for a dollar sign, [$&] for the match,
    [$`] for the text before the match and [$'] for the text after it; a
    dollar sign followed by anything else stands for itself. *)
Fixpoint getSubstitution (matched before after tmpl : jsstring) : jsstring :=
  match tmpl with
  | [] => []
  | c :: r =>
      if (c =? 36)%N then
        match r with
        | [] => [c]
        | d :: r' =>
            if (d =? 36)%N then
              36%N :: getSubstitution matched before after r'
            else if (d =? 38)%N then
              matched ++ getSubstitution matched before after r'
            else if (d =? 96)%N then
              before ++ getSubstitution matched before after r'
            else if (d =? 39)%N then
              after ++ getSubstitution matched before after r'
            else c :: getSubstitution matched before after r
        end
      else c :: getSubstitution matched before after r
  end.

(** [s.replace(p, v)] with a string pattern [p]: only the first occurrence
    of [p] is replaced, by the expansion of [v]. *)
Definition replace (s p v : jsstring) : jsstring :=
  match indexOf p s with
  | None => s
  | Some i =>
      let before := firstn i s in
      let after := skipn (i + length p) s in
      before ++ getSubstitution p before after v ++ after
  end.

(** [s.replace(/ /g, '_')]. *)
Definition spacesToUnderscores (s : jsstring) : jsstring :=
  map (fun c => if (c =? 32)%N then 95%N else c) s.

(** ASCII lower-casing, the part of [toLowerCase] needed to run examples. *)
Definition asciiLower (s : jsstring) : jsstring :=
  map (fun c => if ((65 <=? c) && (c <=? 90))%N then (c + 32)%N else c) s.

(** [tok] occurs in [s] at offset [k]. *)
Definition occursAt (tok : jsstring) (k : nat) (s : jsstring) : Prop :=
  exists pre post, s = pre ++ tok ++ post /\ length pre = k.

End JS.

Import JS.

(* ================================================================== *)
(** ** Node's [path] module, POSIX flavour *)
(* ================================================================== *)

Module Path.

Definition slash : N := 47.
Definition backslash : N := 92.
Definition dot : N := 46.

Definition isDotDot (seg : jsstring) : bool := jseqb seg [dot; dot].

(** [normalizeString]: the segments between slashes are read left to right;
    empty segments and [.] are dropped; [..] removes the segment before it
    unless there is none or it is itself [..], in which case it is kept
    when [allowAboveRoot] and dropped otherwise.  [res] is the stack of the
    segments kept so far, last one first. *)
Fixpoint normalizeSegments (allowAboveRoot : bool) (res segs : list jsstring)
  : list jsstring :=
  match segs with
  | [] => rev res
  | seg :: rest =>
      if jseqb seg [] || jseqb seg [dot] then
        normalizeSegments allowAboveRoot res rest
      else if isDotDot seg then
        match res with
        | last :: res' =>
            if isDotDot last then
              normalizeSegments allowAboveRoot
                (if allowAboveRoot then seg :: res else res) rest
            else normalizeSegments allowAboveRoot res' rest
        | [] =>
            normalizeSegments allowAboveRoot
              (if allowAboveRoot then [seg] else []) rest
        end
      else normalizeSegments allowAboveRoot (seg :: res) rest
  end.

(** [segs.join('/')]. *)
Fixpoint joinSegments (segs : list jsstring) : jsstring :=
  match segs with
  | [] => []
  | [seg] => seg
  | seg :: rest => seg ++ slash :: joinSegments rest
  end.

Definition normalizeString (path : jsstring) (allowAboveRoot : bool)
  : jsstring :=
  joinSegments (normalizeSegments allowAboveRoot [] (split slash path)).

Definition endsWithSlash (path : jsstring) : bool :=
  match rev path with
  | c :: _ => N.eqb c slash
  | [] => false
  end.

(** [path.posix.normalize]. *)
Definition normalize (path : jsstring) : jsstring :=
  match path with
  | [] => [dot]
  | c :: _ =>
      let isAbsolute := N.eqb c slash in
      let trailingSeparator := endsWithSlash path in
      let body := normalizeString path (negb isAbsolute) in
      match body with
      | [] =>
          if isAbsolute then [slash]
          else if trailingSeparator then [dot; slash] else [dot]
      | _ =>
          let body' := if trailingSeparator then body ++ [slash] else body in
          if isAbsolute then slash :: body' else body'
      end
  end.

(** [path.posix.join(a, b)]: the non-empty arguments joined by a slash, then
    normalized. *)
Definition join (a b : jsstring) : jsstring :=
  match a, b with
  | [], [] => [dot]
  | [], _ => normalize b
  | _, [] => normalize a
  | _, _ => normalize (a ++ slash :: b)
  end.

Fixpoint dropWhile (f : N -> bool) (s : jsstring) : jsstring :=
  match s with
  | [] => []
  | c :: s' => if f c then dropWhile f s' else s
  end.

(** [path.posix.dirname]: scanning from the right and never looking at the
    first character, trailing slashes are skipped, then the last segment,
    and the path is cut at the slash found there. *)
Definition dirname (path : jsstring) : jsstring :=
  match path with
  | [] => [dot]
  | c0 :: rest =>
      let hasRoot := N.eqb c0 slash in
      let beforeLast :=
        dropWhile (fun c => negb (N.eqb c slash))
          (dropWhile (fun c => N.eqb c slash) (rev rest)) in
      match beforeLast with
      | [] => if hasRoot then [slash] else [dot]
      | _ :: kept =>
          if hasRoot && Nat.eqb (length kept) 0 then [slash; slash]
          else c0 :: rev kept
      end
  end.

(** A normalized absolute [path] lies strictly inside the directory [root]
    (itself normalized, absolute and without a trailing slash): it is
    [root], a slash, and at least one more character. *)
Definition strictlyInside (root path : jsstring) : bool :=
  startsWith (root ++ [slash]) path
  && Nat.ltb (length root + 1) (length path).

End Path.

(** How a call completes: normally with a value, or by throwing an [Error]
    with the given message. *)
Inductive completion (A : Type) : Type :=
| Ok (a : A)
| Throw (message : jsstring).
Arguments Ok {A} a.
Arguments Throw {A} message.

(* ================================================================== *)
(** ** Node's [Buffer] *)
(* ================================================================== *)

Module Buffer.

Definition buffer := list byte.

Definition rangeError : jsstring :=
  js "The value of offset is out of range".

(** [buf.readUInt8(offset)]. *)
Definition readUInt8 (buf : buffer) (offset : nat) : completion N :=
  match nth_error buf offset with
  | Some b => Ok (Byte.to_N b)
  | None => Throw rangeError
  end.

(** [buf.readUInt32BE(offset)]: four bytes, most significant first. *)
Definition readUInt32BE (buf : buffer) (offset : nat) : completion N :=
  match skipn offset buf with
  | b0 :: b1 :: b2 :: b3 :: _ =>
      Ok (Byte.to_N b0 * 16777216 + Byte.to_N b1 * 65536
          + Byte.to_N b2 * 256 + Byte.to_N b3)%N
  | _ => Throw rangeError
  end.

(** [buf.slice(start, end)] for non-negative bounds: both are clamped to
    the length of the buffer. *)
Definition bufSlice (buf : buffer) (start stop : nat) : buffer :=
  firstn (stop - start) (skipn start buf).

(** The UTF-8 decoder's state between bytes: the code point being
    assembled, the continuation bytes still needed, and the range allowed
    for the next byte. *)
Record Utf8State : Type := {
  codePoint : N;
  bytesNeeded : nat;
  lower : N;
  upper : N
}.

Definition utf8Initial : Utf8State :=
  {| codePoint := 0; bytesNeeded := 0; lower := 128; upper := 191 |}.

Definition replacementCharacter : N := 65533.

(** A code point as UTF-16 code units. *)
Definition codeUnits (cp : N) : jsstring :=
  if (cp <? 65536)%N then [cp]
  else [(55296 + N.shiftr (cp - 65536) 10)%N;
        (56320 + N.land (cp - 65536) 1023)%N].

(** One byte read with no sequence pending. *)
Definition utf8Lead (b : N) : jsstring * Utf8State :=
  if (b <=? 127)%N then ([b], utf8Initial)
  else if ((194 <=? b) && (b <=? 223))%N then
    ([], {| codePoint := N.land b 31; bytesNeeded := 1;
            lower := 128; upper := 191 |})
  else if ((224 <=? b) && (b <=? 239))%N then
    ([], {| codePoint := N.land b 15; bytesNeeded := 2;
            lower := if (b =? 224)%N then 160 else 128;
            upper := if (b =? 237)%N then 159 else 191 |})
  else if ((240 <=? b) && (b <=? 244))%N then
    ([], {| codePoint := N.land b 7; bytesNeeded := 3;
            lower := if (b =? 240)%N then 144 else 128;
            upper := if (b =? 244)%N then 143 else 191 |})
  else ([replacementCharacter], utf8Initial).

(** One byte of input: a byte outside the allowed range ends the pending
    sequence with U+FFFD and is then read again as a lead byte. *)
Definition utf8Step (st : Utf8State) (b : N) : jsstring * Utf8State :=
  match bytesNeeded st with
  | O => utf8Lead b
  | S needed =>
      if ((lower st <=? b) && (b <=? upper st))%N then
        let cp := N.lor (N.shiftl (codePoint st) 6) (N.land b 63) in
        match needed with
        | O => (codeUnits cp, utf8Initial)
        | _ => ([], {| codePoint := cp; bytesNeeded := needed;
                       lower := 128; upper := 191 |})
        end
      else
        let '(out, st') := utf8Lead b in (replacementCharacter :: out, st')
  end.

Fixpoint utf8Run (st : Utf8State) (bytes : buffer) : jsstring :=
  match bytes with
  | [] => match bytesNeeded st with
          | O => []
          | S _ => [replacementCharacter]
          end
  | b :: rest =>
      let '(out, st') := utf8Step st (Byte.to_N b) in out ++ utf8Run st' rest
  end.

(** [buf.toString('utf8')]. *)
Definition toString (buf : buffer) : jsstring := utf8Run utf8Initial buf.

(** The bytes of an ASCII literal. *)
Definition ofAscii (s : string) : buffer := list_byte_of_string s.

End Buffer.

(* ================================================================== *)
(** ** Variable processor ([servers.ts]) *)
(* ================================================================== *)

Module Servers.

(** One entry of [ServerConfig['variables']]. *)
Record VariableDef : Type := {
  name : jsstring;
  description : option jsstring;
  defaultValue : jsstring;
  currentValue : option jsstring;
  rules : jsstring
}.

(** The loop of [validateVariableValue] over the split rule list. *)
Fixpoint validateRules (value : jsstring) (ruleList : list jsstring) : bool :=
  match ruleList with
  | [] => true
  | rule :: rest =>
      if jseqb rule (js "nullable") then
        if jseqb value [] then true else validateRules value rest
      else if jseqb rule (js "string") then validateRules value rest
      else if startsWith (js "max:") rule then
        match parseInt (slice 4 rule) with
        | Some max =>
            if (Z.of_nat (length value) >? max)%Z then false
            else validateRules value rest
        | None => validateRules value rest
        end
      else validateRules value rest
  end.

Definition validateVariableValue (value rules : jsstring) : bool :=
  validateRules value (split 124 rules).

(** The bound a rule puts on the length, when it is a [max:] rule whose
    argument parses. *)
Definition maxBound (rule : jsstring) : option Z :=
  if startsWith (js "max:") rule then parseInt (slice 4 rule) else None.

Section Substitution.

(** [String.prototype.toLowerCase], a built-in taken as given. *)
Variable toLowerCase : jsstring -> jsstring.

Definition placeholder (v : VariableDef) : jsstring :=
  js "%" ++ spacesToUnderscores (toLowerCase (name v)) ++ js "%".

(** [variable.currentValue ?? variable.defaultValue]. *)
Definition effectiveValue (v : VariableDef) : jsstring :=
  match currentValue v with
  | Some cur => cur
  | None => defaultValue v
  end.

Definition rulesError (v : VariableDef) : jsstring :=
  js "Variable " ++ name v ++ js " value doesn't match rules: " ++ rules v.

Fixpoint processLoop (result : jsstring) (variables : list VariableDef)
  : completion jsstring :=
  match variables with
  | [] => Ok result
  | variable :: rest =>
      if validateVariableValue (effectiveValue variable) (rules variable)
      then processLoop
             (replace result (placeholder variable) (effectiveValue variable))
             rest
      else Throw (rulesError variable)
  end.

Definition processVariables (input : jsstring) (variables : list VariableDef)
  : completion jsstring :=
  processLoop input variables.

End Substitution.

(** *** Server configuration, as fetched from the panel *)

Record ConfigFile : Type := {
  path : jsstring;
  content : jsstring
}.

Record InstallConfig : Type := {
  install_dockerImage : jsstring;
  entrypoint : jsstring;
  script : jsstring
}.

Record ServerConfig : Type := {
  dockerImage : jsstring;
  variables : list VariableDef;
  startupCommand : jsstring;
  configFiles : list ConfigFile;
  install : InstallConfig
}.

(** *** The host: file system and container engine

    Every call the installation makes on the outside world is recorded in a
    history; what a call answers is decided by an environment that sees the
    history so far.  A proof about every environment covers every way the
    file system and the engine can behave. *)

Inductive OutputStream : Type := Stdout | Stderr.

Inductive Call : Type :=
| PullImage (image : jsstring)
| Mkdir (dir : jsstring)
| WriteFile (file text : jsstring) (mode : option N)
| CreateContainer (containerName image : jsstring) (binds : list jsstring)
    (autoRemove : bool)
| Attach (containerName : jsstring)
| Start (containerName : jsstring)
| Wait (containerName : jsstring)
| Remove (containerName : jsstring) (force : bool).

Inductive Outcome : Type :=
| Resolved
| Rejected (message : jsstring)
| ThrewSync (message : jsstring)
| Exited (statusCode : Z) (output : list (OutputStream * Buffer.buffer)).

Definition Env := list Call -> Call -> Outcome.

Inductive LogLine : Type :=
| ServerEvent (serverId message : jsstring) (error : option jsstring)
| ConsoleLog (line : jsstring)
| ConsoleError (line : jsstring) (error : jsstring).

(** What a run has done so far: the calls made, the lines logged, and the
    install output pushed to the connected clients. *)
Record Run : Type := {
  history : list Call;
  logged : list LogLine;
  pushed : list (jsstring * jsstring)
}.

Definition emptyRun : Run := {| history := []; logged := []; pushed := [] |}.

(** Computations that read the environment, extend the run and may throw. *)
Definition M (A : Type) : Type := Env -> Run -> completion A * Run.

Definition ret {A} (a : A) : M A := fun _ r => (Ok a, r).

Definition throw {A} (message : jsstring) : M A :=
  fun _ r => (Throw message, r).

Definition bind {A B} (m : M A) (k : A -> M B) : M B :=
  fun env r =>
    match m env r with
    | (Ok a, r') => k a env r'
    | (Throw e, r') => (Throw e, r')
    end.

(** [try { m } catch (error) { handler error }]. *)
Definition tryCatch {A} (m : M A) (handler : jsstring -> M A) : M A :=
  fun env r =>
    match m env r with
    | (Ok a, r') => (Ok a, r')
    | (Throw e, r') => handler e env r'
    end.

(** [try { m } finally { cleanup }]: the cleanup always runs; when it
    completes normally the completion of [m] stands, when it throws its
    error replaces it. *)
Definition tryFinally {A} (m : M A) (cleanup : M unit) : M A :=
  fun env r =>
    let '(res, r') := m env r in
    match cleanup env r' with
    | (Ok _, r'') => (res, r'')
    | (Throw e, r'') => (Throw e, r'')
    end.

Notation "x <- m ;; k" := (bind m (fun x => k))
  (at level 61, m at next level, right associativity).
Notation "m ;; k" := (bind m (fun _ => k))
  (at level 61, right associativity).

(** The call is made and its outcome returned as it is. *)
Definition call (c : Call) : M Outcome :=
  fun env r =>
    (Ok (env (history r) c),
     {| history := history r ++ [c]; logged := logged r; pushed := pushed r |}).

(** [await c]: a rejection or an exception of the call is thrown on. *)
Definition await (c : Call) : M Outcome :=
  o <- call c ;;
  match o with
  | Rejected e => throw e
  | ThrewSync e => throw e
  | _ => ret o
  end.

Definition logLine (l : LogLine) : M unit :=
  fun _ r =>
    (Ok tt,
     {| history := history r; logged := logged r ++ [l]; pushed := pushed r |}).

Definition logEvent (serverId message : jsstring) (error : option jsstring)
  : M unit :=
  logLine (ServerEvent serverId message error).

Definition push (serverId message : jsstring) : M unit :=
  fun _ r =>
    (Ok tt,
     {| history := history r; logged := logged r;
        pushed := pushed r ++ [(serverId, message)] |}).

(** *** [writeConfigFiles] *)

(** [s.replace(/^(\.\.[\/\\])+/, '')]: every leading [..] that is followed
    by a slash or a backslash is removed together with that separator. *)
Fixpoint stripLeadingDotDots (s : jsstring) : jsstring :=
  match s with
  | a :: b :: c :: r =>
      if (N.eqb a Path.dot && N.eqb b Path.dot
          && (N.eqb c Path.slash || N.eqb c Path.backslash))
      then stripLeadingDotDots r else s
  | _ => s
  end.

Definition safePath (file : ConfigFile) : jsstring :=
  stripLeadingDotDots (Path.normalize (path file)).

Definition fullPath (volumePath : jsstring) (file : ConfigFile) : jsstring :=
  Path.join volumePath (safePath file).

Fixpoint writeConfigFiles (volumePath : jsstring) (files : list ConfigFile)
  : M unit :=
  match files with
  | [] => ret tt
  | file :: rest =>
      await (Mkdir (Path.dirname (fullPath volumePath file))) ;;
      tryCatch
        (await (WriteFile (fullPath volumePath file) (content file) None) ;;
         logLine (ConsoleLog (js "Created config file: " ++ safePath file)))
        (fun error =>
           logLine (ConsoleError
                      (js "Failed to write config file " ++ safePath file
                       ++ js ":") error) ;;
           throw (js "Failed to write config file " ++ safePath file)) ;;
      writeConfigFiles volumePath rest
  end.

(** *** [runInstallation] *)

Definition pullDockerImage (image : jsstring) : M unit :=
  tryCatch
    (logLine (ConsoleLog (js "Pulling Docker image: " ++ image)) ;;
     await (PullImage image) ;; ret tt)
    (fun error =>
       logLine (ConsoleError
                  (js "Failed to pull Docker image " ++ image ++ js ":")
                  error) ;;
       throw (js "Failed to pull Docker image " ++ image)).

Definition isVolumeNameChar (c : N) : bool :=
  ((97 <=? c) && (c <=? 122) || (65 <=? c) && (c <=? 90)
   || (48 <=? c) && (c <=? 57) || (c =? 95) || (c =? 46) || (c =? 45))%N.

(** [name.replace(/[^a-zA-Z0-9_.-]/g, '_')]. *)
Definition sanitizeVolumeName (volumeName : jsstring) : jsstring :=
  map (fun c => if isVolumeNameChar c then c else 95%N) volumeName.

(** [path.resolve(p)] with the working directory [cwd] (absolute). *)
Definition resolve (cwd p : jsstring) : jsstring :=
  Path.slash ::
  Path.normalizeString
    (if startsWith [Path.slash] p then p else cwd ++ Path.slash :: p) false.

Definition decimalNat (n : nat) : jsstring :=
  js (NilZero.string_of_uint (Nat.to_uint n)).

Definition decimalZ (z : Z) : jsstring :=
  js (NilZero.string_of_int (Z.to_int z)).

Definition newline : jsstring := [10%N].
Definition quote : jsstring := [34%N].

Definition scriptContent (processedScript : jsstring) : jsstring :=
  js "#!/bin/bash" ++ newline
  ++ js "set -ex  # Enable debug mode and exit on error" ++ newline
  ++ js "echo " ++ quote ++ js "Starting installation script..." ++ quote
  ++ newline
  ++ js "cd /mnt/server" ++ newline
  ++ js "pwd" ++ newline
  ++ js "ls -la" ++ newline
  ++ processedScript ++ newline
  ++ js "echo " ++ quote ++ js "Installation script completed" ++ quote
  ++ newline.

(** The two [Writable]s behind [demuxStream]: every non-blank chunk is
    appended to [output] and logged; standard output is also pushed to the
    connected clients. *)
Fixpoint drainOutput (serverId output : jsstring)
    (chunks : list (OutputStream * Buffer.buffer)) : M jsstring :=
  match chunks with
  | [] => ret output
  | (origin, chunk) :: rest =>
      let message := trim (Buffer.toString chunk) in
      match message with
      | [] => drainOutput serverId output rest
      | _ =>
          match origin with
          | Stdout =>
              logEvent serverId (js "Installation output: " ++ message) None ;;
              push serverId message
          | Stderr =>
              logEvent serverId (js "Installation error: " ++ message) None
          end ;;
          drainOutput serverId (output ++ message ++ newline) rest
      end
  end.

Section Installation.

Variable toLowerCase : jsstring -> jsstring.

(** [config.volumesDirectory] and the daemon's working directory. *)
Variable volumesDirectory : jsstring.
Variable cwd : jsstring.

Definition installContainerName (serverId : jsstring) : jsstring :=
  sanitizeVolumeName serverId ++ js "_install".

Definition volumePathOf (serverId : jsstring) : jsstring :=
  resolve cwd (volumesDirectory ++ Path.slash :: sanitizeVolumeName serverId).

(** [Promise.all] over the two pulls: both are started; the first failure,
    taken here in the order install image, server image, is thrown. *)
Definition pullBoth (serverId : jsstring) (serverConfig : ServerConfig)
  : M unit :=
  fun env r =>
    let installImage := install_dockerImage (install serverConfig) in
    let '(r1, run1) :=
      (pullDockerImage installImage ;;
       logEvent serverId
         (js "Successfully pulled install image: " ++ installImage) None)
        env r in
    let '(r2, run2) :=
      (pullDockerImage (dockerImage serverConfig) ;;
       logEvent serverId
         (js "Successfully pulled server image: " ++ dockerImage serverConfig)
         None) env run1 in
    match r1, r2 with
    | Throw e, _ => (Throw e, run2)
    | _, Throw e => (Throw e, run2)
    | Ok _, Ok _ => (Ok tt, run2)
    end.

(** The [try] block of [runInstallation]. *)
Definition installSteps (serverId : jsstring) (serverConfig : ServerConfig)
  : M unit :=
  let volumePath := volumePathOf serverId in
  let containerName := installContainerName serverId in
  logEvent serverId (js "Pulling required Docker images") None ;;
  pullBoth serverId serverConfig ;;
  logEvent serverId (js "Creating volume directory at: " ++ volumePath) None ;;
  await (Mkdir volumePath) ;;
  match configFiles serverConfig with
  | [] => ret tt
  | files =>
      logEvent serverId
        (js "Writing " ++ decimalNat (length files)
         ++ js " configuration files") None ;;
      writeConfigFiles volumePath files
  end ;;
  logEvent serverId
    (js "Creating installation container: " ++ containerName) None ;;
  match processVariables toLowerCase (script (install serverConfig))
          (variables serverConfig) with
  | Throw e => throw e
  | Ok processedScript =>
      logEvent serverId (js "Writing installation script") None ;;
      await (WriteFile (Path.join volumePath (js "install.sh"))
               (scriptContent processedScript) (Some 493%N)) ;;
      logEvent serverId
        (js "Script content written to disk with executable permissions")
        None ;;
      await (CreateContainer containerName
               (install_dockerImage (install serverConfig))
               [volumePath ++ js ":/mnt/server"] true) ;;
      logEvent serverId (js "Starting installation container") None ;;
      await (Attach containerName) ;;
      await (Start containerName) ;;
      o <- await (Wait containerName) ;;
      let '(statusCode, chunks) :=
        match o with
        | Exited code chunks => (code, chunks)
        | _ => (0%Z, [])
        end in
      output <- drainOutput serverId [] chunks ;;
      if (statusCode =? 0)%Z then
        logEvent serverId (js "Installation completed successfully") None
      else
        throw (js "Installation failed with exit code " ++ decimalZ statusCode
               ++ js ". Output: " ++ output)
  end.

(** The [finally] block: the removal is requested with [force]; a rejection
    is swallowed by the [.catch] on the call, and only an exception thrown by
    the call itself reaches the [catch] that logs. *)
Definition cleanupInstallContainer (serverId : jsstring) : M unit :=
  tryCatch
    (logEvent serverId (js "Cleaning up installation container") None ;;
     o <- call (Remove (installContainerName serverId) true) ;;
     match o with
     | ThrewSync e => throw e
     | _ => ret tt
     end)
    (fun cleanupError =>
       logEvent serverId (js "Failed to remove installation container")
         (Some cleanupError)).

(** The [try] block with its [catch], which logs and throws the error on. *)
Definition installAttempt (serverId : jsstring) (serverConfig : ServerConfig)
  : M unit :=
  tryCatch (installSteps serverId serverConfig)
    (fun error =>
       logEvent serverId (js "Installation failed") (Some error) ;;
       throw error).

Definition runInstallation (serverId : jsstring) (serverConfig : ServerConfig)
  : M unit :=
  logEvent serverId (js "Starting installation process") None ;;
  tryFinally (installAttempt serverId serverConfig)
    (cleanupInstallContainer serverId).

End Installation.

End Servers.

(* ================================================================== *)
(** ** Console sessions ([WebSocketManager]) *)
(* ================================================================== *)

Module Console.

Inductive LogType : Type := INFO | SUCCESS | ERROR | WARNING | DAEMON.

(** The styles of [chalk] the manager uses.  What a style adds to a text
    depends on the colour support of the terminal, so the styles are taken
    as given. *)
Record Chalk : Type := {
  hex_90a2b9 : jsstring -> jsstring;
  green : jsstring -> jsstring;
  red : jsstring -> jsstring;
  yellow : jsstring -> jsstring
}.

(** Plain [chalk]: no colour support, every style is the identity. *)
Definition plainChalk : Chalk :=
  {| hex_90a2b9 := fun s => s; green := fun s => s;
     red := fun s => s; yellow := fun s => s |}.

Record ValidateResponse : Type := {
  validated : bool;
  server_id : jsstring;
  server_name : jsstring;
  server_internalId : jsstring
}.

(** [containerInfo.State]. *)
Record ContainerInfo : Type := {
  Status : jsstring;
  Error : option jsstring
}.

Record CpuUsage : Type := { total_usage : float }.

Record CpuStats : Type := {
  cpu_usage : CpuUsage;
  system_cpu_usage : float;
  online_cpus : float
}.

Record PreCpuStats : Type := {
  pre_cpu_usage : CpuUsage;
  pre_system_cpu_usage : float
}.

Record MemoryStats : Type := { usage : float; limit : float }.

Record NetworkCounters : Type := { rx_bytes : float; tx_bytes : float }.

Record ContainerStatsResponse : Type := {
  memory_stats : MemoryStats;
  cpu_stats : CpuStats;
  precpu_stats : PreCpuStats;
  networks : option (option NetworkCounters)
}.

Record Metrics : Type := {
  cpu_percent : float;
  memory_used : float;
  memory_limit : float;
  memory_percent : float;
  network : NetworkCounters
}.

(** The events the manager sends to a client. *)
Inductive OutboundEvent : Type :=
| auth_success (logs : list jsstring) (state : jsstring)
| console_output (message : jsstring)
| stats (state : jsstring) (metrics : option Metrics)
| power_status (status action state error : jsstring)
| error_event (message : jsstring).

Inductive ReadyState : Type := CONNECTING | OPEN | CLOSING | CLOSED.

(** The listeners the manager registers for a socket's [close] event. *)
Inductive CloseListener : Type :=
| ClearInterval (interval : nat)
| Teardown.

(** A [WebSocket] of the [ws] library, as far as the manager uses it:
    [delivered] is what has been transmitted to the client, [closeSent] the
    code and reason of the close the server asked for. *)
Record Socket : Type := {
  readyState : ReadyState;
  delivered : list OutboundEvent;
  closeSent : option (N * jsstring);
  closeListeners : list CloseListener;
  messageListener : bool
}.

Record ConsoleSession : Type := {
  socket : nat;
  stream : option nat;
  serverId : jsstring;
  internalId : jsstring;
  userId : jsstring;
  container : jsstring;
  authenticated : bool;
  logStream : option nat
}.

(** The asynchronous calls in flight, each with what its continuation has
    captured. *)
Inductive Pending : Type :=
| AwaitValidate (sock : nat) (queryServer : jsstring)
| AwaitServerRow (sock : nat) (validation : ValidateResponse)
| AwaitSetupInspect (sock : nat)
| AwaitLogs (sock : nat)
| AwaitTickInspect (sock : nat)
| AwaitTickStats (sock : nat) (state : jsstring)
| AwaitPower (sock : nat) (action : jsstring)
| AwaitPowerInspect (sock : nat) (action : jsstring).

(** The manager and the event loop around it.  [sessionObjects] holds the
    session objects, which closures keep alive; [sessions] is the key list
    of the [sessions] map, in insertion order.  [intervals] holds the armed
    [setInterval] timers with the socket whose session each one samples,
    [logStreams] the live log streams with their listening session. *)
Record Manager : Type := {
  sockets : list (nat * Socket);
  sessionObjects : list (nat * ConsoleSession);
  sessions : list nat;
  logBuffers : list (jsstring * list jsstring);
  intervals : list (nat * nat);
  nextInterval : nat;
  logStreams : list (nat * nat);
  pending : list Pending;
  consoleErrors : list jsstring
}.

Definition emptyManager : Manager :=
  {| sockets := []; sessionObjects := []; sessions := []; logBuffers := [];
     intervals := []; nextInterval := 0; logStreams := []; pending := [];
     consoleErrors := [] |}.

Definition MAX_LOGS : nat := 100.
Definition INITIAL_LOGS : nat := 10.

(** *** Finite maps as association lists *)

Section Assoc.

Variables (K V : Type) (eqb : K -> K -> bool).

Fixpoint lookup (k : K) (l : list (K * V)) : option V :=
  match l with
  | [] => None
  | (k', v) :: rest => if eqb k k' then Some v else lookup k rest
  end.

(** [map.set(k, v)]: an existing key keeps its place. *)
Fixpoint assign (k : K) (v : V) (l : list (K * V)) : list (K * V) :=
  match l with
  | [] => [(k, v)]
  | (k', v') :: rest =>
      if eqb k k' then (k, v) :: rest else (k', v') :: assign k v rest
  end.

Fixpoint remove (k : K) (l : list (K * V)) : list (K * V) :=
  match l with
  | [] => []
  | (k', v') :: rest =>
      if eqb k k' then remove k rest else (k', v') :: remove k rest
  end.

End Assoc.

(** *** Field updates *)

Definition setSockets (m : Manager) (x : list (nat * Socket)) : Manager :=
  {| sockets := x; sessionObjects := sessionObjects m;
     sessions := sessions m; logBuffers := logBuffers m;
     intervals := intervals m; nextInterval := nextInterval m;
     logStreams := logStreams m; pending := pending m;
     consoleErrors := consoleErrors m |}.

Definition setSessionObjects (m : Manager) (x : list (nat * ConsoleSession))
  : Manager :=
  {| sockets := sockets m; sessionObjects := x;
     sessions := sessions m; logBuffers := logBuffers m;
     intervals := intervals m; nextInterval := nextInterval m;
     logStreams := logStreams m; pending := pending m;
     consoleErrors := consoleErrors m |}.

Definition setSessions (m : Manager) (x : list nat) : Manager :=
  {| sockets := sockets m; sessionObjects := sessionObjects m;
     sessions := x; logBuffers := logBuffers m;
     intervals := intervals m; nextInterval := nextInterval m;
     logStreams := logStreams m; pending := pending m;
     consoleErrors := consoleErrors m |}.

Definition setLogBuffers (m : Manager) (x : list (jsstring * list jsstring))
  : Manager :=
  {| sockets := sockets m; sessionObjects := sessionObjects m;
     sessions := sessions m; logBuffers := x;
     intervals := intervals m; nextInterval := nextInterval m;
     logStreams := logStreams m; pending := pending m;
     consoleErrors := consoleErrors m |}.

Definition setIntervals (m : Manager) (x : list (nat * nat)) (next : nat)
  : Manager :=
  {| sockets := sockets m; sessionObjects := sessionObjects m;
     sessions := sessions m; logBuffers := logBuffers m;
     intervals := x; nextInterval := next;
     logStreams := logStreams m; pending := pending m;
     consoleErrors := consoleErrors m |}.

Definition setLogStreams (m : Manager) (x : list (nat * nat)) : Manager :=
  {| sockets := sockets m; sessionObjects := sessionObjects m;
     sessions := sessions m; logBuffers := logBuffers m;
     intervals := intervals m; nextInterval := nextInterval m;
     logStreams := x; pending := pending m;
     consoleErrors := consoleErrors m |}.

Definition setPending (m : Manager) (x : list Pending) : Manager :=
  {| sockets := sockets m; sessionObjects := sessionObjects m;
     sessions := sessions m; logBuffers := logBuffers m;
     intervals := intervals m; nextInterval := nextInterval m;
     logStreams := logStreams m; pending := x;
     consoleErrors := consoleErrors m |}.

Definition consoleError (m : Manager) (line : jsstring) : Manager :=
  {| sockets := sockets m; sessionObjects := sessionObjects m;
     sessions := sessions m; logBuffers := logBuffers m;
     intervals := intervals m; nextInterval := nextInterval m;
     logStreams := logStreams m; pending := pending m;
     consoleErrors := consoleErrors m ++ [line] |}.

Definition addPending (m : Manager) (p : Pending) : Manager :=
  setPending m (pending m ++ [p]).

(** The first pending call that [pick] recognises is taken out. *)
Fixpoint takePending (A : Type) (pick : Pending -> option A)
    (l : list Pending) : option (A * list Pending) :=
  match l with
  | [] => None
  | p :: rest =>
      match pick p with
      | Some a => Some (a, rest)
      | None =>
          match takePending pick rest with
          | Some (a, rest') => Some (a, p :: rest')
          | None => None
          end
      end
  end.

(** *** Sockets *)

Definition newSocket : Socket :=
  {| readyState := OPEN; delivered := []; closeSent := None;
     closeListeners := []; messageListener := false |}.

Definition isOpen (s : Socket) : bool :=
  match readyState s with
  | OPEN => true
  | _ => false
  end.

(** [socket.send(JSON.stringify(event))]: the event is transmitted when the
    socket is open; on a socket that is closing or closed [ws] transmits
    nothing and does not throw. *)
Definition send (sock : nat) (event : OutboundEvent) (m : Manager) : Manager :=
  match lookup Nat.eqb sock (sockets m) with
  | Some s =>
      if isOpen s then
        setSockets m
          (assign Nat.eqb sock
             {| readyState := readyState s;
                delivered := delivered s ++ [event];
                closeSent := closeSent s;
                closeListeners := closeListeners s;
                messageListener := messageListener s |} (sockets m))
      else m
  | None => m
  end.

(** [socket.close(code, reason)]: an open socket starts closing. *)
Definition close (sock : nat) (code : N) (reason : jsstring) (m : Manager)
  : Manager :=
  match lookup Nat.eqb sock (sockets m) with
  | Some s =>
      if isOpen s then
        setSockets m
          (assign Nat.eqb sock
             {| readyState := CLOSING;
                delivered := delivered s;
                closeSent := Some (code, reason);
                closeListeners := closeListeners s;
                messageListener := messageListener s |} (sockets m))
      else m
  | None => m
  end.

(** [socket.on('close', listener)]. *)
Definition onClose (sock : nat) (listener : CloseListener) (m : Manager)
  : Manager :=
  match lookup Nat.eqb sock (sockets m) with
  | Some s =>
      setSockets m
        (assign Nat.eqb sock
           {| readyState := readyState s;
              delivered := delivered s;
              closeSent := closeSent s;
              closeListeners := closeListeners s ++ [listener];
              messageListener := messageListener s |} (sockets m))
  | None => m
  end.

(** [socket.on('message', ...)]. *)
Definition onMessage (sock : nat) (m : Manager) : Manager :=
  match lookup Nat.eqb sock (sockets m) with
  | Some s =>
      setSockets m
        (assign Nat.eqb sock
           {| readyState := readyState s;
              delivered := delivered s;
              closeSent := closeSent s;
              closeListeners := closeListeners s;
              messageListener := true |} (sockets m))
  | None => m
  end.

Definition deliveredTo (sock : nat) (m : Manager) : list OutboundEvent :=
  match lookup Nat.eqb sock (sockets m) with
  | Some s => delivered s
  | None => []
  end.

(** *** The manager's methods *)

(** The two differences [calculateCPUPercent] starts from. *)
Definition cpuDelta (st : ContainerStatsResponse) : float :=
  (total_usage (cpu_usage (cpu_stats st))
   - total_usage (pre_cpu_usage (precpu_stats st)))%float.

Definition systemDelta (st : ContainerStatsResponse) : float :=
  (system_cpu_usage (cpu_stats st)
   - pre_system_cpu_usage (precpu_stats st))%float.

(** [calculateCPUPercent]. *)
Definition calculateCPUPercent (st : ContainerStatsResponse) : float :=
  let cpuCount := online_cpus (cpu_stats st) in
  if ((0 <? systemDelta st) && (0 <? cpuDelta st))%float
  then ((cpuDelta st / systemDelta st) * cpuCount * 100)%float
  else 0%float.

(** The body of the log stream's [data] listener up to the broadcast: the
    line to broadcast, if any. *)
Definition decodeLogChunk (chunk : Buffer.buffer)
  : completion (option (LogType * jsstring)) :=
  let headerLength := 8 in
  match Buffer.readUInt8 chunk 0 with
  | Throw e => Throw e
  | Ok logType =>
      match Buffer.readUInt32BE chunk 4 with
      | Throw e => Throw e
      | Ok contentLength =>
          let content :=
            trim (Buffer.toString
                    (Buffer.bufSlice chunk headerLength
                       (headerLength + N.to_nat contentLength))) in
          match content with
          | [] => Ok None
          | _ => Ok (Some (if (logType =? 1)%N then INFO else ERROR, content))
          end
      end
  end.

Section Methods.

Variable chalk : Chalk.

Definition daemonTag : jsstring := yellow chalk (js "[Krypton Daemon]").

Definition formatLogMessage (type : LogType) (message : jsstring) : jsstring :=
  match type with
  | INFO => hex_90a2b9 chalk message
  | SUCCESS => green chalk message
  | ERROR => red chalk message
  | WARNING => yellow chalk message
  | DAEMON => daemonTag ++ js " " ++ message
  end.

(** The buffer of a server; one that has none yet has the empty one. *)
Definition bufferOf (id : jsstring) (m : Manager) : list jsstring :=
  match lookup jseqb id (logBuffers m) with
  | Some b => b
  | None => []
  end.

(** [buffer.push(log)], then [buffer.shift()] past [MAX_LOGS] lines. *)
Definition pushCapped (buffer : list jsstring) (log : jsstring)
  : list jsstring :=
  let pushed := buffer ++ [log] in
  if Nat.ltb MAX_LOGS (length pushed) then tl pushed else pushed.

Definition addLogToBuffer (id log : jsstring) (m : Manager) : Manager :=
  setLogBuffers m
    (assign jseqb id (pushCapped (bufferOf id m) log) (logBuffers m)).

(** The body of the loop of [broadcastToServer], run for the key [k] of the
    sessions map. *)
Definition relay (id formattedLog : jsstring) (acc : Manager) (k : nat)
  : Manager :=
  match lookup Nat.eqb k (sessionObjects acc) with
  | Some session =>
      if jseqb (internalId session) id && authenticated session
      then send k (console_output formattedLog) acc
      else acc
  | None => acc
  end.

Definition broadcastToServer (id log : jsstring) (type : LogType)
    (m : Manager) : Manager :=
  let formattedLog := formatLogMessage type log in
  let m1 := addLogToBuffer id formattedLog m in
  fold_left (relay id formattedLog) (sessions m1) m1.

(** The [data] listener of a session's log stream. *)
Definition onLogData (session : ConsoleSession) (chunk : Buffer.buffer)
    (m : Manager) : Manager :=
  match decodeLogChunk chunk with
  | Ok (Some (type, text)) =>
      broadcastToServer (internalId session) text type m
  | Ok None => m
  | Throw parseError =>
      consoleError m (js "Failed to parse log chunk: " ++ parseError)
  end.

(** [attachLogs] up to the engine's answer: a stream the session already
    has is destroyed and a new one is requested. *)
Definition attachLogs (sock : nat) (m : Manager) : Manager :=
  match lookup Nat.eqb sock (sessionObjects m) with
  | None => m
  | Some session =>
      let m1 :=
        match logStream session with
        | Some old => setLogStreams m (remove Nat.eqb old (logStreams m))
        | None => m
        end in
      addPending m1 (AwaitLogs sock)
  end.

(** The callback given to [containerRef.logs]. *)
Definition logsReturned (sock : nat) (answer : completion (option nat))
    (m : Manager) : Manager :=
  match lookup Nat.eqb sock (sessionObjects m) with
  | None => m
  | Some session =>
      match answer with
      | Ok (Some newStream) =>
          setLogStreams
            (setSessionObjects m
               (assign Nat.eqb sock
                  {| socket := socket session; stream := stream session;
                     serverId := serverId session;
                     internalId := internalId session;
                     userId := userId session;
                     container := container session;
                     authenticated := authenticated session;
                     logStream := Some newStream |} (sessionObjects m)))
            (logStreams m ++ [(newStream, sock)])
      | Throw (c :: e) =>
          broadcastToServer (internalId session)
            (js "Log stream error: " ++ c :: e) ERROR m
      | _ =>
          broadcastToServer (internalId session)
            (js "Log stream error: No stream available") ERROR m
      end
  end.

(** [startResourceMonitoring]: the timer is armed, then a listener that
    clears it is registered for the socket's [close] event. *)
Definition startResourceMonitoring (sock : nat) (m : Manager) : Manager :=
  let interval := nextInterval m in
  onClose sock (ClearInterval interval)
    (setIntervals m (intervals m ++ [(interval, sock)]) (S interval)).

(** The interval's callback after [inspect] has answered. *)
Definition tickAfterInspect (sock : nat) (answer : completion ContainerInfo)
    (m : Manager) : Manager :=
  match answer with
  | Ok info =>
      if jseqb (Status info) (js "running")
      then addPending m (AwaitTickStats sock (Status info))
      else send sock (stats (Status info) None) m
  | Throw e => consoleError m (js "Failed to get container stats: " ++ e)
  end.

Definition metricsOf (st : ContainerStatsResponse) : Metrics :=
  {| cpu_percent := calculateCPUPercent st;
     memory_used := usage (memory_stats st);
     memory_limit := limit (memory_stats st);
     memory_percent :=
       (usage (memory_stats st) / limit (memory_stats st) * 100)%float;
     network :=
       match networks st with
       | Some (Some eth0) => eth0
       | _ => {| rx_bytes := 0%float; tx_bytes := 0%float |}
       end |}.

(** The interval's callback after [stats] has answered. *)
Definition tickAfterStats (sock : nat) (state : jsstring)
    (answer : completion ContainerStatsResponse) (m : Manager) : Manager :=
  match answer with
  | Ok st => send sock (stats state (Some (metricsOf st))) m
  | Throw e => consoleError m (js "Failed to get container stats: " ++ e)
  end.

(** The [catch] of [setupContainerSession]. *)
Definition setupFailed (sock : nat) (error : jsstring) (m : Manager)
  : Manager :=
  close sock 1011 (js "Failed to initialize session")
    (consoleError m (js "Failed to set up session: " ++ error)).

(** [setupContainerSession] from the answer of the database up to the
    [inspect] call: the session is created and registered. *)
Definition setupAfterRow (sock : nat) (validation : ValidateResponse)
    (row : completion (option jsstring)) (m : Manager) : Manager :=
  match row with
  | Ok (Some (c :: docker_id)) =>
      let session :=
        {| socket := sock; stream := None;
           serverId := server_id validation;
           internalId := server_internalId validation;
           userId := server_id validation;
           container := c :: docker_id;
           authenticated := true;
           logStream := None |} in
      addPending
        (setSessions
           (setSessionObjects m
              (assign Nat.eqb sock session (sessionObjects m)))
           (if existsb (Nat.eqb sock) (sessions m) then sessions m
            else sessions m ++ [sock]))
        (AwaitSetupInspect sock)
  | Ok _ => setupFailed sock (js "Server not found or no container assigned") m
  | Throw e => setupFailed sock e m
  end.

(** The rest of [setupContainerSession], and of the connection handler
    after it: the [auth_success] event, the log stream, the monitor, then
    the [message] and [close] listeners. *)
Definition setupAfterInspect (sock : nat) (answer : completion ContainerInfo)
    (m : Manager) : Manager :=
  match answer with
  | Ok containerInfo =>
      onClose sock Teardown
        (onMessage sock
           (startResourceMonitoring sock
              (attachLogs sock
                 (send sock (auth_success [] (Status containerInfo)) m))))
  | Throw e => setupFailed sock e m
  end.

(** The [close] listener of the connection handler. *)
Definition teardown (sock : nat) (m : Manager) : Manager :=
  let m1 :=
    match lookup Nat.eqb sock (sessionObjects m) with
    | Some session =>
        match logStream session with
        | Some st => setLogStreams m (remove Nat.eqb st (logStreams m))
        | None => m
        end
    | None => m
    end in
  setSessions m1 (filter (fun k => negb (Nat.eqb k sock)) (sessions m1)).

Definition runCloseListener (sock : nat) (m : Manager) (l : CloseListener)
  : Manager :=
  match l with
  | ClearInterval interval =>
      setIntervals m (remove Nat.eqb interval (intervals m)) (nextInterval m)
  | Teardown => teardown sock m
  end.

(** The socket's [close] event: emitted once, when the connection is gone;
    the listeners registered by then run in the order of registration. *)
Definition socketClosed (sock : nat) (m : Manager) : Manager :=
  match lookup Nat.eqb sock (sockets m) with
  | Some s =>
      match readyState s with
      | CLOSED => m
      | _ =>
          fold_left (runCloseListener sock) (closeListeners s)
            (setSockets m
               (assign Nat.eqb sock
                  {| readyState := CLOSED;
                     delivered := delivered s;
                     closeSent := closeSent s;
                     closeListeners := closeListeners s;
                     messageListener := messageListener s |} (sockets m)))
      end
  | None => m
  end.

(** *** [handlePowerAction] *)

Definition isEngineAction (action : jsstring) : bool :=
  jseqb action (js "start") || jseqb action (js "stop")
  || jseqb action (js "restart").

(** The [catch] of [handlePowerAction]. *)
Definition powerFailed (sock : nat) (action errorMsg : jsstring)
    (m : Manager) : Manager :=
  match lookup Nat.eqb sock (sessionObjects m) with
  | Some session =>
      send sock (error_event errorMsg)
        (consoleError
           (broadcastToServer (internalId session)
              (js "Failed to " ++ action ++ js " server: " ++ errorMsg)
              ERROR m)
           (js "Server " ++ action ++ js " failed: " ++ errorMsg))
  | None => m
  end.

(** Up to the first engine call: the announcement is broadcast, then the
    engine is asked to [start], [stop] or [restart]; any other action goes
    straight to [inspect]. *)
Definition handlePowerAction (sock : nat) (action : jsstring) (m : Manager)
  : Manager :=
  match lookup Nat.eqb sock (sessionObjects m) with
  | Some session =>
      let m1 :=
        broadcastToServer (internalId session)
          (js "Performing a " ++ action ++ js " action on server...")
          DAEMON m in
      if isEngineAction action then addPending m1 (AwaitPower sock action)
      else addPending m1 (AwaitPowerInspect sock action)
  | None => m
  end.

(** After the engine call has answered. *)
Definition powerAfterAction (sock : nat) (action : jsstring)
    (answer : completion unit) (m : Manager) : Manager :=
  match answer with
  | Ok _ =>
      addPending
        (if jseqb action (js "start") || jseqb action (js "restart")
         then attachLogs sock m else m)
        (AwaitPowerInspect sock action)
  | Throw e => powerFailed sock action e m
  end.

Definition powerStatusText (state : jsstring) : jsstring :=
  if jseqb state (js "running")
  then daemonTag ++ js " The power state was successfully changed!"
  else daemonTag
       ++ js " Failed to change power state. If you are booting the "
       ++ js "server, this means the initial startup command "
       ++ js "failed/exited or is not valid.".

(** After the final [inspect] has answered. *)
Definition powerAfterInspect (sock : nat) (action : jsstring)
    (answer : completion ContainerInfo) (m : Manager) : Manager :=
  match answer with
  | Ok containerInfo =>
      let state := Status containerInfo in
      let error :=
        match Error containerInfo with
        | Some e => e
        | None => []
        end in
      send sock (power_status (powerStatusText state) action state error) m
  | Throw e => powerFailed sock action e m
  end.

(** *** The event loop *)

(** What the event loop hands to the manager: new connections, inbound
    messages, answers to asynchronous calls, timers and stream events. *)
Inductive LoopEvent : Type :=
| Connection (sock : nat) (server token : option jsstring)
| ValidateReturned (sock : nat) (response : option ValidateResponse)
| ServerRowReturned (sock : nat) (row : completion (option jsstring))
| SetupInspectReturned (sock : nat) (answer : completion ContainerInfo)
| LogsReturned (sock : nat) (answer : completion (option nat))
| LogData (logStreamId : nat) (chunk : Buffer.buffer)
| LogError (logStreamId : nat) (message : jsstring)
| SocketClosed (sock : nat)
| IntervalElapsed (interval : nat)
| TickInspectReturned (sock : nat) (answer : completion ContainerInfo)
| TickStatsReturned (sock : nat) (answer : completion ContainerStatsResponse)
| PowerActionMessage (sock : nat) (action : jsstring)
| PowerReturned (sock : nat) (answer : completion unit)
| PowerInspectReturned (sock : nat) (answer : completion ContainerInfo).

Definition resume (A : Type) (pick : Pending -> option A)
    (k : A -> Manager -> Manager) (m : Manager) : Manager :=
  match takePending pick (pending m) with
  | Some (a, rest) => k a (setPending m rest)
  | None => m
  end.

(** The pending calls of one socket, by kind. *)
Definition forSocket (A : Type) (sock s : nat) (a : A) : option A :=
  if Nat.eqb s sock then Some a else None.

Definition pickValidate (sock : nat) (p : Pending) : option jsstring :=
  match p with
  | AwaitValidate s q => forSocket sock s q
  | _ => None
  end.

Definition pickServerRow (sock : nat) (p : Pending)
  : option ValidateResponse :=
  match p with
  | AwaitServerRow s v => forSocket sock s v
  | _ => None
  end.

Definition pickSetupInspect (sock : nat) (p : Pending) : option unit :=
  match p with
  | AwaitSetupInspect s => forSocket sock s tt
  | _ => None
  end.

Definition pickLogs (sock : nat) (p : Pending) : option unit :=
  match p with
  | AwaitLogs s => forSocket sock s tt
  | _ => None
  end.

Definition pickTickInspect (sock : nat) (p : Pending) : option unit :=
  match p with
  | AwaitTickInspect s => forSocket sock s tt
  | _ => None
  end.

Definition pickTickStats (sock : nat) (p : Pending) : option jsstring :=
  match p with
  | AwaitTickStats s state => forSocket sock s state
  | _ => None
  end.

Definition pickPower (sock : nat) (p : Pending) : option jsstring :=
  match p with
  | AwaitPower s action => forSocket sock s action
  | _ => None
  end.

Definition pickPowerInspect (sock : nat) (p : Pending) : option jsstring :=
  match p with
  | AwaitPowerInspect s action => forSocket sock s action
  | _ => None
  end.

(** The connection handler up to the call of [validateToken]. *)
Definition onConnection (sock : nat) (server token : option jsstring)
    (m : Manager) : Manager :=
  match lookup Nat.eqb sock (sockets m) with
  | Some _ => m
  | None =>
      let m1 := setSockets m (sockets m ++ [(sock, newSocket)]) in
      match server, token with
      | Some (c :: queryServer), Some (_ :: _) =>
          addPending m1 (AwaitValidate sock (c :: queryServer))
      | _, _ => close sock 1008 (js "Missing server ID or token") m1
      end
  end.

(** The connection handler after [validateToken] has answered. *)
Definition afterValidate (sock : nat) (response : option ValidateResponse)
    (m : Manager) : Manager :=
  match response with
  | Some validation =>
      if validated validation
      then addPending m (AwaitServerRow sock validation)
      else close sock 1008 (js "Invalid token or access denied") m
  | None => close sock 1008 (js "Invalid token or access denied") m
  end.

(** A chunk or an error of a live log stream reaches its listener. *)
Definition onLogStream (logStreamId : nat)
    (listener : ConsoleSession -> Manager -> Manager) (m : Manager)
  : Manager :=
  match lookup Nat.eqb logStreamId (logStreams m) with
  | Some sock =>
      match lookup Nat.eqb sock (sessionObjects m) with
      | Some session => listener session m
      | None => m
      end
  | None => m
  end.

(** An inbound [power_action] message reaches the [message] listener of
    an open socket. *)
Definition onPowerActionMessage (sock : nat) (action : jsstring)
    (m : Manager) : Manager :=
  match lookup Nat.eqb sock (sockets m) with
  | Some s =>
      if isOpen s && messageListener s
      then handlePowerAction sock action m else m
  | None => m
  end.

(** An armed timer elapses and its callback calls [inspect]. *)
Definition onInterval (interval : nat) (m : Manager) : Manager :=
  match lookup Nat.eqb interval (intervals m) with
  | Some sock => addPending m (AwaitTickInspect sock)
  | None => m
  end.

(** One turn of the event loop. *)
Definition step (m : Manager) (e : LoopEvent) : Manager :=
  match e with
  | Connection sock server token => onConnection sock server token m
  | ValidateReturned sock response =>
      resume (pickValidate sock) (fun _ => afterValidate sock response) m
  | ServerRowReturned sock row =>
      resume (pickServerRow sock)
        (fun validation => setupAfterRow sock validation row) m
  | SetupInspectReturned sock answer =>
      resume (pickSetupInspect sock)
        (fun _ => setupAfterInspect sock answer) m
  | LogsReturned sock answer =>
      resume (pickLogs sock) (fun _ => logsReturned sock answer) m
  | LogData logStreamId chunk =>
      onLogStream logStreamId (fun session => onLogData session chunk) m
  | LogError logStreamId message =>
      onLogStream logStreamId
        (fun session =>
           broadcastToServer (internalId session)
             (js "Log stream error: " ++ message) ERROR) m
  | SocketClosed sock => socketClosed sock m
  | IntervalElapsed interval => onInterval interval m
  | TickInspectReturned sock answer =>
      resume (pickTickInspect sock)
        (fun _ => tickAfterInspect sock answer) m
  | TickStatsReturned sock answer =>
      resume (pickTickStats sock)
        (fun state => tickAfterStats sock state answer) m
  | PowerActionMessage sock action => onPowerActionMessage sock action m
  | PowerReturned sock answer =>
      resume (pickPower sock)
        (fun action => powerAfterAction sock action answer) m
  | PowerInspectReturned sock answer =>
      resume (pickPowerInspect sock)
        (fun action => powerAfterInspect sock action answer) m
  end.

(** A run of the event loop. *)
Definition run (m : Manager) (events : list LoopEvent) : Manager :=
  fold_left step events m.

(** *** The container engine behind a power action

    An engine answers the calls of [handlePowerAction]: [act] performs
    [start], [stop] or [restart] on a container and may reject the call,
    [inspect] reports the state of a container. *)
Record Engine : Type := {
  world : Type;
  act : jsstring -> jsstring -> world -> completion unit * world;
  inspect : jsstring -> world -> completion ContainerInfo
}.

(** The turns of the event loop that one [power_action] message takes when
    the engine [E] answers from the world [w], with nothing else in
    between. *)
Definition powerActionEvents (E : Engine) (w : world E) (sock : nat)
    (containerId action : jsstring) : list LoopEvent :=
  if isEngineAction action then
    match act E action containerId w with
    | (Ok u, w') =>
        [PowerActionMessage sock action; PowerReturned sock (Ok u);
         PowerInspectReturned sock (inspect E containerId w')]
    | (Throw e, _) =>
        [PowerActionMessage sock action; PowerReturned sock (Throw e)]
    end
  else
    [PowerActionMessage sock action;
     PowerInspectReturned sock (inspect E containerId w)].

End Methods.

End Console.

(* ================================================================== *)
(** ** Inputs and predicates used in the statements *)
(* ================================================================== *)

Module Inputs.

Import Servers Console.

(** A string of decimal digits. *)
Definition isDecimal (ds : jsstring) : Prop :=
  ds <> [] /\ forallb isDigit ds = true.

(** A variable definition is acceptable to [validateVariableValue]. *)
Definition valid (v : VariableDef) : Prop :=
  validateVariableValue (effectiveValue v) (rules v) = true.

Section Tracking.

Variable toLowerCase : jsstring -> jsstring.

(** Follows one occurrence of a token, of length [len] at offset [k] of
    the text [cur], through the substitutions of [processVariables]: a
    step whose placeholder is absent changes nothing; a step that replaces
    text wholly before or wholly after the occurrence moves or keeps its
    offset; a step that replaces text overlapping it loses it.  The result
    is the offset in the processed text, if the occurrence is never
    overlapped. *)
Fixpoint tokenSurvives (k len : nat) (cur : jsstring)
    (vars : list VariableDef) : option nat :=
  match vars with
  | [] => Some k
  | v :: rest =>
      let p := placeholder toLowerCase v in
      match indexOf p cur with
      | None => tokenSurvives k len cur rest
      | Some i =>
          let e :=
            getSubstitution p (firstn i cur) (skipn (i + length p) cur)
              (effectiveValue v) in
          if Nat.leb (i + length p) k then
            tokenSurvives (k - length p + length e) len
              (replace cur p (effectiveValue v)) rest
          else if Nat.leb (k + len) i then
            tokenSurvives k len (replace cur p (effectiveValue v)) rest
          else None
      end
  end.

End Tracking.

(** A path segment as [normalize] keeps it: not empty, without a slash,
    and neither [.] nor [..]. *)
Definition cleanSegment (seg : jsstring) : Prop :=
  seg <> [] /\ ~ In Path.slash seg /\ seg <> [Path.dot]
  /\ seg <> [Path.dot; Path.dot].

(** A volume root as [path.resolve] gives it: a slash and clean segments
    joined by slashes. *)
Definition cleanRoot (root : jsstring) (segs : list jsstring) : Prop :=
  segs <> [] /\ Forall cleanSegment segs
  /\ root = Path.slash :: Path.joinSegments segs.

(** A log line that reports a failed removal of the install container. *)
Definition isRemovalFailure (l : LogLine) : bool :=
  match l with
  | ServerEvent _ message (Some _) =>
      jseqb message (js "Failed to remove installation container")
  | _ => false
  end.

(** A server configuration with one config file and a one-line script. *)
Definition sampleConfig (configPath : string) : ServerConfig :=
  {| dockerImage := js "game:latest";
     variables := [];
     startupCommand := js "./start.sh";
     configFiles := [{| path := js configPath; content := js "motd=hi" |}];
     install := {| install_dockerImage := js "installer:latest";
                   entrypoint := js "bash";
                   script := js "echo installing" |} |}.

(** A host on which every call succeeds and the install container exits
    with status 0, but whose answer to the removal is a rejection: the
    container, created with [AutoRemove], is already gone. *)
Definition autoRemovedHost : Env :=
  fun _ c =>
    match c with
    | Wait _ => Exited 0 [(Stdout, Buffer.ofAscii "done")]
    | Remove _ _ => Rejected (js "(HTTP code 404) no such container - ")
    | _ => Resolved
    end.

(** A host on which the install script fails. *)
Definition failingScriptHost : Env :=
  fun _ c =>
    match c with
    | Wait _ => Exited 2 [(Stderr, Buffer.ofAscii "no such file")]
    | _ => Resolved
    end.

(** A host that cannot pull images. *)
Definition offlineHost : Env :=
  fun _ c =>
    match c with
    | PullImage _ => Rejected (js "network unreachable")
    | Wait _ => Exited 0 []
    | _ => Resolved
    end.

(** A host on which every call succeeds. *)
Definition obligingHost : Env :=
  fun _ c =>
    match c with
    | Wait _ => Exited 0 []
    | _ => Resolved
    end.

(** The panel's answer for the server [int-1]. *)
Definition sampleValidation : ValidateResponse :=
  {| validated := true; server_id := js "srv-1"; server_name := js "lobby";
     server_internalId := js "int-1" |}.

Definition stateOf (status : string) : ContainerInfo :=
  {| Status := js status; Error := None |}.

(** A client connects on socket [sock] for the server [int-1], is
    validated, and its session is set up on a container the engine reports
    as [status]; the engine then hands over the log stream [100 + sock]. *)
Definition attachEvents (sock : nat) (status : string) : list LoopEvent :=
  [Connection sock (Some (js "int-1")) (Some (js "token"));
   ValidateReturned sock (Some sampleValidation);
   ServerRowReturned sock (Ok (Some (js "abc123")));
   SetupInspectReturned sock (Ok (stateOf status));
   LogsReturned sock (Ok (Some (100 + sock)))].

(** A manager with one open socket, [1], and nothing else. *)
Definition oneSocket : Manager :=
  {| sockets := [(1, newSocket)]; sessionObjects := []; sessions := [];
     logBuffers := []; intervals := []; nextInterval := 0; logStreams := [];
     pending := []; consoleErrors := [] |}.

(** The same connection, closed by the client while the token is still
    being validated. *)
Definition closedEarlyEvents (sock : nat) : list LoopEvent :=
  [Connection sock (Some (js "int-1")) (Some (js "token"));
   SocketClosed sock;
   ValidateReturned sock (Some sampleValidation);
   ServerRowReturned sock (Ok (Some (js "abc123")));
   SetupInspectReturned sock (Ok (stateOf "running"))].

(** The Docker engine as [dockerode] presents it, for one kind of call:
    the world maps container ids to their status.  Stopping a container
    that is not running is answered 304 by the Engine API, which
    [dockerode] turns into a rejection; so is starting one that runs. *)
Definition dockerAct (action containerId : jsstring)
    (w : list (jsstring * jsstring))
  : completion unit * list (jsstring * jsstring) :=
  match lookup jseqb containerId w with
  | None => (Throw (js "(HTTP code 404) no such container - "), w)
  | Some status =>
      let running := jseqb status (js "running") in
      if jseqb action (js "stop") then
        if running then (Ok tt, assign jseqb containerId (js "exited") w)
        else (Throw (js "(HTTP code 304) container already stopped - "), w)
      else if jseqb action (js "start") then
        if running
        then (Throw (js "(HTTP code 304) container already started - "), w)
        else (Ok tt, assign jseqb containerId (js "running") w)
      else (Ok tt, assign jseqb containerId (js "running") w)
  end.

Definition dockerInspect (containerId : jsstring)
    (w : list (jsstring * jsstring)) : completion ContainerInfo :=
  match lookup jseqb containerId w with
  | None => Throw (js "(HTTP code 404) no such container - ")
  | Some status => Ok {| Status := status; Error := None |}
  end.

Definition dockerEngine : Engine :=
  {| world := list (jsstring * jsstring);
     act := dockerAct;
     inspect := dockerInspect |}.

(** An engine on which [stop] always succeeds and leaves the container
    [exited]. *)
Definition lenientEngine : Engine :=
  {| world := unit;
     act := fun _ _ w => (Ok tt, w);
     inspect := fun _ _ => Ok {| Status := js "exited"; Error := None |} |}.

(** The session [session] of the socket [sock] is attached: the socket is
    open with its [message] listener registered, and the session is
    authenticated and registered once in the sessions map. *)
Definition Attached (sock : nat) (session : ConsoleSession) (m : Manager)
  : Prop :=
  (exists s, lookup Nat.eqb sock (sockets m) = Some s
             /\ readyState s = OPEN /\ messageListener s = true)
  /\ lookup Nat.eqb sock (sessionObjects m) = Some session
  /\ authenticated session = true
  /\ count_occ Nat.eq_dec (sessions m) sock = 1.

(** No earlier power action of the socket is still in flight. *)
Definition noPowerPending (sock : nat) (m : Manager) : Prop :=
  forall p, In p (pending m) ->
            pickPower sock p = None /\ pickPowerInspect sock p = None.

(** What the initiating session is sent at the end of a power action: a
    [power_status] event when the final [inspect] answers, else the
    failure line and an [error] event. *)
Definition powerReport (chalk : Chalk) (action : jsstring)
    (answer : completion ContainerInfo) : list OutboundEvent :=
  match answer with
  | Ok info =>
      [power_status (powerStatusText chalk (Status info)) action (Status info)
         (match Error info with
          | Some e => e
          | None => []
          end)]
  | Throw e =>
      [console_output
         (formatLogMessage chalk ERROR
            (js "Failed to " ++ action ++ js " server: " ++ e));
       error_event e]
  end.

(** The session object that [attachEvents] creates for [sock]. *)
Definition sampleSession (sock : nat) : ConsoleSession :=
  {| socket := sock; stream := None; serverId := js "srv-1";
     internalId := js "int-1"; userId := js "srv-1";
     container := js "abc123"; authenticated := true;
     logStream := Some (100 + sock) |}.

(** What may become of a socket in one turn: a closed socket stays closed
    and is sent nothing more, and listeners are only added. *)
Definition stays (s s' : Socket) : Prop :=
  (readyState s = CLOSED ->
   readyState s' = CLOSED /\ delivered s' = delivered s)
  /\ incl (closeListeners s) (closeListeners s').

Definition alive (s s' : Socket) : Prop :=
  readyState s <> CLOSED -> readyState s' <> CLOSED.

(** No timer that has been cleared is armed again. *)
Definition Timers (m m' : Manager) : Prop :=
  nextInterval m <= nextInterval m'
  /\ forall i, i < nextInterval m ->
               lookup Nat.eqb i (intervals m) = None ->
               lookup Nat.eqb i (intervals m') = None.

(** One or more turns of the loop, none of which handles the [close]
    event of a socket outside [closing]. *)
Definition Evolves (closing : nat -> Prop) (m m' : Manager) : Prop :=
  (forall k s, lookup Nat.eqb k (sockets m) = Some s ->
     exists s', lookup Nat.eqb k (sockets m') = Some s'
                /\ stays s s' /\ (~ closing k -> alive s s'))
  /\ Timers m m'.

(** The turn handles the [close] event of the socket [k]. *)
Definition closes (e : LoopEvent) (k : nat) : Prop :=
  match e with
  | SocketClosed k' => k' = k
  | _ => False
  end.

(** The timer [i] is cleared, or the socket it samples for is not yet
    closed and has the listener that clears it. *)
Definition Monitored (i sock : nat) (m : Manager) : Prop :=
  i < nextInterval m
  /\ (lookup Nat.eqb i (intervals m) = None
      \/ exists s, lookup Nat.eqb sock (sockets m) = Some s
                   /\ readyState s <> CLOSED
                   /\ In (ClearInterval i) (closeListeners s)).

(** The timer [i] samples for [sock], and every socket that has a
    listener clearing it is already closed: its [close] event has been
    emitted, so the listener will never run. *)
Definition Orphaned (i sock : nat) (m : Manager) : Prop :=
  lookup Nat.eqb i (intervals m) = Some sock
  /\ i < nextInterval m
  /\ forall k s, lookup Nat.eqb k (sockets m) = Some s ->
                 In (ClearInterval i) (closeListeners s) ->
                 readyState s = CLOSED.

(** A turn that neither registers a listener for the timer [i] nor clears
    it, provided [i] has been handed out already. *)
Definition Quiet (i : nat) (m m' : Manager) : Prop :=
  nextInterval m <= nextInterval m'
  /\ (i < nextInterval m ->
      (forall k s', lookup Nat.eqb k (sockets m') = Some s' ->
                    In (ClearInterval i) (closeListeners s') ->
                    exists s, lookup Nat.eqb k (sockets m) = Some s
                              /\ In (ClearInterval i) (closeListeners s))
      /\ (forall k, lookup Nat.eqb i (intervals m) = Some k ->
                    lookup Nat.eqb i (intervals m') = Some k)).

(** The socket [k] is open. *)
Definition openAt (k : nat) (m : Manager) : bool :=
  match lookup Nat.eqb k (sockets m) with
  | Some s => isOpen s
  | None => false
  end.

(** The socket [k] is open and its session is an authenticated session of
    the server [id]. *)
Definition listening (id : jsstring) (k : nat) (m : Manager) : bool :=
  match lookup Nat.eqb k (sessionObjects m) with
  | Some session => jseqb (internalId session) id && authenticated session
  | None => false
  end
  && openAt k m.

(** A socket the server has refused: it is closing, with the given code
    and reason, and nothing was sent to it or registered for it. *)
Definition refused (code : N) (reason : jsstring) : Socket :=
  {| readyState := CLOSING; delivered := [];
     closeSent := Some (code, reason);
     closeListeners := []; messageListener := false |}.

(** Every buffer holds at most [MAX_LOGS] lines. *)
Definition wellBuffered (m : Manager) : Prop :=
  forall id, length (bufferOf id m) <= MAX_LOGS.

(** A turn that keeps the buffers within their bound. *)
Definition Buffered (m m' : Manager) : Prop :=
  wellBuffered m -> wellBuffered m'.

(** A relation between managers that holds across the primitives the
    handlers are built from: a turn that leaves the sockets, the timers
    and the buffers alone, a send, a close, the registration of the
    message listener and of the teardown listener, the start of
    monitoring, a push on a log buffer, the admission of a new socket. *)
Record Stepwise (R : Manager -> Manager -> Prop) : Prop := {
  sw_refl : forall m, R m m;
  sw_trans : forall m1 m2 m3, R m1 m2 -> R m2 m3 -> R m1 m3;
  sw_same :
    forall m m',
      sockets m' = sockets m -> intervals m' = intervals m ->
      nextInterval m' = nextInterval m -> logBuffers m' = logBuffers m ->
      R m m';
  sw_send : forall k ev m, R m (send k ev m);
  sw_close : forall k code reason m, R m (close k code reason m);
  sw_onMessage : forall k m, R m (onMessage k m);
  sw_onTeardown : forall k m, R m (onClose k Teardown m);
  sw_monitoring : forall k m, R m (startResourceMonitoring k m);
  sw_buffer : forall id line m, R m (addLogToBuffer id line m);
  sw_accept :
    forall k m, R m (setSockets m (sockets m ++ [(k, newSocket)]))
}.

(** The frame of the spec's example: tag 1, length 5, then [hello]. *)
Definition helloChunk : Buffer.buffer :=
  [x01; x00; x00; x00; x00; x00; x00; x05] ++ Buffer.ofAscii "hello".

(** A frame with an empty payload, and one whose payload is blank. *)
Definition emptyChunk : Buffer.buffer :=
  [x01; x00; x00; x00; x00; x00; x00; x00].

Definition blankChunk : Buffer.buffer :=
  [x02; x00; x00; x00; x00; x00; x00; x03; x20; x09; x0a].

(** Raw readings with the given counters and no network section. *)
Definition reading (total preTotal system preSystem cpus : float)
  : ContainerStatsResponse :=
  {| memory_stats := {| usage := 0%float; limit := 1%float |};
     cpu_stats := {| cpu_usage := {| total_usage := total |};
                     system_cpu_usage := system;
                     online_cpus := cpus |};
     precpu_stats := {| pre_cpu_usage := {| total_usage := preTotal |};
                        pre_system_cpu_usage := preSystem |};
     networks := None |}.

(** A variable definition with a default value and the rule [string]. *)
Definition plainVariable (n v : string) : VariableDef :=
  {| name := js n; description := None; defaultValue := js v;
     currentValue := None; rules := js "string" |}.

End Inputs.

(* ================================================================== *)
(** ** The panel's configuration endpoint *)
(* ================================================================== *)

Module Panel.
Import Servers.

(** What [axios.get] comes back with: a response, or the error it rejects
    with, of which the code reads [message] only. *)
Inductive Reply (A : Type) : Type :=
| Response (status : N) (data : A)
| Failure (message : option jsstring).

Arguments Failure {A} message.

(** What [fetchServerConfig] does to the outside, in order. *)
Inductive PanelEffect : Type :=
| Get (url : jsstring) (timeout : N)
| PanelError (text : jsstring) (detail : option jsstring)
| SetTimeout (ms : N).

Definition maxRetries : nat := 3.

(** [`${lastError?.message}`]: [lastError] is [undefined] until an attempt
    has thrown. *)
Definition messageText (lastError : option (option jsstring)) : jsstring :=
  match lastError with
  | Some (Some message) => message
  | _ => js "undefined"
  end.

Section Fetch.

Variable A : Type.

(** The reply to each request, by the number of the attempt. *)
Variable panel : nat -> Reply A.

(** The loop [for (attempt = 1; attempt <= maxRetries; attempt++)], with
    [remaining] attempts to go. *)
Fixpoint attempts (url : jsstring) (remaining attempt : nat)
    (lastError : option (option jsstring)) (trace : list PanelEffect)
  : completion A * list PanelEffect :=
  match remaining with
  | 0 =>
      (Throw (js "Failed to fetch server configuration after "
              ++ decimalNat maxRetries ++ js " attempts: "
              ++ messageText lastError),
       trace)
  | S remaining' =>
      let requested := trace ++ [Get url 10000] in
      match panel attempt with
      | Response status data =>
          if (status =? 200)%N then (Ok data, requested)
          else attempts url remaining' (S attempt) lastError requested
      | Failure message =>
          let reported :=
            requested
            ++ [PanelError
                  (js "Failed to fetch server configuration (attempt "
                   ++ decimalNat attempt ++ js "/" ++ decimalNat maxRetries
                   ++ js "):")
                  message] in
          attempts url remaining' (S attempt) (Some message)
            (if attempt <? maxRetries
             then reported ++ [SetTimeout (1000 * N.of_nat attempt)]
             else reported)
      end
  end.

(** [fetchServerConfig]; the [serverId] it is given is not used. *)
Definition fetchServerConfig (appUrl serverId temporaryId : jsstring)
  : completion A * list PanelEffect :=
  let url := appUrl ++ js "/api/servers/" ++ temporaryId ++ js "/config" in
  attempts url maxRetries 1 None [].

End Fetch.

End Panel.

(* ================================================================== *)
(** ** Commands for the server's console *)
(* ================================================================== *)

Module Commands.
Import Servers Console.

(** [s.split(/\s+/)]: the pieces between the maximal runs of white space;
    a run at either end leaves an empty piece there.  [piece] is the piece
    being read and [inRun] tells that the last character was white space. *)
Fixpoint splitRuns (s piece : jsstring) (inRun : bool) : list jsstring :=
  match s with
  | [] => [piece]
  | c :: r =>
      if isWhiteSpace c then
        if inRun then splitRuns r [] true else piece :: splitRuns r [] true
      else splitRuns r (piece ++ [c]) false
  end.

Definition splitWhiteSpace (s : jsstring) : list jsstring :=
  splitRuns s [] false.

(** [parts.join(sep)] for a separator of one code unit. *)
Fixpoint joinWith (sep : N) (parts : list jsstring) : jsstring :=
  match parts with
  | [] => []
  | [part] => part
  | part :: rest => part ++ sep :: joinWith sep rest
  end.

(** The value of a hexadecimal digit. *)
Definition hexDigit (c : N) : option Z :=
  if isDigit c then Some (Z.of_N c - 48)%Z
  else if ((97 <=? c) && (c <=? 102))%N then Some (Z.of_N c - 87)%Z
  else if ((65 <=? c) && (c <=? 70))%N then Some (Z.of_N c - 55)%Z
  else None.

Fixpoint takeHexDigits (s : jsstring) : list Z :=
  match s with
  | [] => []
  | c :: s' =>
      match hexDigit c with
      | Some d => d :: takeHexDigits s'
      | None => []
      end
  end.

(** [parseInt(s)] without a radix: as [parseInt(s, 10)], except that after
    the sign a prefix [0x] or [0X] makes the rest hexadecimal.  [None]
    stands for [NaN]; the result is kept as an exact integer, which it is
    below 2^53. *)
Definition parseIntAny (s : jsstring) : option Z :=
  let s1 := trimStart s in
  let '(neg, s2) :=
    match s1 with
    | c :: r => if (c =? 45)%N then (true, r)
                else if (c =? 43)%N then (false, r) else (false, s1)
    | [] => (false, s1)
    end in
  let signed (z : Z) := if neg then (- z)%Z else z in
  if startsWith (js "0x") s2 || startsWith (js "0X") s2 then
    match takeHexDigits (skipn 2 s2) with
    | [] => None
    | ds => Some (signed (fold_left (fun acc d => acc * 16 + d)%Z ds 0%Z))
    end
  else
    match takeDigits s2 with
    | [] => None
    | ds => Some (signed (digitsValue ds))
    end.

(** A line of the process listing, as [findMainProcess] reads it. *)
Record Process : Type := {
  pid : option Z;
  ppid : option Z;
  cmd : jsstring
}.

(** [const [pid, ppid, ...cmdParts] = line.trim().split(/\s+/)]: a field
    that is missing is [undefined], which [parseInt] reads as the string
    [undefined]. *)
Definition parseProcess (line : jsstring) : Process :=
  let fields := splitWhiteSpace (trim line) in
  {| pid := parseIntAny (nth 0 fields (js "undefined"));
     ppid := parseIntAny (nth 1 fields (js "undefined"));
     cmd := joinWith 32 (skipn 2 fields) |}.

Definition isMainProcess (p : Process) : bool :=
  match ppid p with
  | Some parent => ((parent =? 0) || (parent =? 1))%Z
  | None => false
  end
  && negb (startsWith (js "/bin/sh") (cmd p))
  && negb (startsWith (js "sh -c") (cmd p)).

(** [processes.find(...)?.pid || null] on the output of [ps]. *)
Definition mainProcessOf (output : jsstring) : option Z :=
  match find isMainProcess (map parseProcess (split 10 (trim output))) with
  | Some p =>
      match pid p with
      | Some n => if (n =? 0)%Z then None else Some n
      | None => None
      end
  | None => None
  end.

(** What the engine answers to the calls of one [send_command], should
    they be made. *)
Record ShellEngine : Type := {
  inspected : completion jsstring;
  shellCreated : completion unit;
  shellStarted : completion unit;
  listingCreated : completion unit;
  listingStarted : completion jsstring
}.

(** [session.stream]: absent, open, or destroyed. *)
Inductive Shell : Type := NoStream | OpenStream | DestroyedStream.

Inductive ShellEffect : Type :=
| Inspect
| Exec (Cmd : list jsstring) (User : option jsstring) (AttachStdin Tty : bool)
| StartExec (hijack stdin : bool)
| Write (text : jsstring)
| Send (event : OutboundEvent)
| ShellError (text detail : jsstring).

(** [findMainProcess]. *)
Definition findMainProcess (engine : ShellEngine)
  : option Z * list ShellEffect :=
  let exec :=
    Exec [js "ps"; js "-o"; js "pid,ppid,cmd"; js "--no-headers"] None
      false false in
  match listingCreated engine with
  | Ok _ =>
      match listingStarted engine with
      | Ok output => (mainProcessOf output, [exec; StartExec true false])
      | Throw e =>
          (None,
           [exec; StartExec true false;
            ShellError (js "Failed to find main process:") e])
      end
  | Throw e =>
      (None, [exec; ShellError (js "Failed to find main process:") e])
  end.

(** The line that sends the output of the shell to the main process. *)
Definition redirectLine (mainPid : Z) : jsstring :=
  js "exec 1>/proc/" ++ decimalZ mainPid ++ js "/fd/1 2>/proc/"
  ++ decimalZ mainPid ++ js "/fd/2" ++ newline.

Definition sendFailed (shell : Shell) (trace : list ShellEffect) (e : jsstring)
  : Shell * list ShellEffect :=
  (shell,
   trace
   ++ [ShellError (js "Failed to send command:") e;
       Send (error_event (js "Failed to send command"))]).

(** [handleSendCommand], for a session whose [stream] is [shell]. *)
Definition handleSendCommand (engine : ShellEngine) (shell : Shell)
    (command : jsstring) : Shell * list ShellEffect :=
  match inspected engine with
  | Throw e => sendFailed shell [Inspect] e
  | Ok status =>
      if negb (jseqb status (js "running")) then
        (shell,
         [Inspect;
          Send (error_event
                  (js "Cannot send command - server is not running"))])
      else
        match shell with
        | OpenStream => (OpenStream, [Inspect; Write (command ++ newline)])
        | _ =>
            let exec := Exec [js "sh"] (Some (js "container")) true true in
            match shellCreated engine with
            | Throw e => sendFailed shell [Inspect; exec] e
            | Ok _ =>
                match shellStarted engine with
                | Throw e =>
                    sendFailed shell [Inspect; exec; StartExec true true] e
                | Ok _ =>
                    let '(mainPid, listed) := findMainProcess engine in
                    (OpenStream,
                     [Inspect; exec; StartExec true true] ++ listed
                     ++ match mainPid with
                        | Some p => [Write (redirectLine p)]
                        | None => []
                        end
                     ++ [Write (command ++ newline)])
                end
            end
        end
  end.

End Commands.

(* ================================================================== *)
(** ** The routes of the servers router *)
(* ================================================================== *)

Module Routes.
Import Servers Panel.

(** The members of [ServerState] the routes name. *)
Inductive ServerState : Type :=
| Installing | Installed | InstallFailed | Errored.

Record Allocation : Type := {
  bindAddress : jsstring;
  port : Z
}.

Record CreateServerRequest : Type := {
  request_name : jsstring;
  memoryLimit : Z;
  cpuLimit : Z;
  allocation : Allocation;
  temporaryInternalId : jsstring
}.

(** A value handed to [JSON.stringify]; its text is not computed. *)
Inductive Stringified : Type :=
| VariablesOf (vs : list VariableDef)
| InstallOf (i : InstallConfig)
| AllocationOf (a : Allocation).

(** The SQL statements of the routes:
    [INSERT INTO servers (id, docker_id, name, state, memory_limit,
    cpu_limit, image, variables, startup_command, install_script,
    allocation) VALUES (?, ?, ?, ?, ?, ?, ?, ?, ?, ?, ?)],
    [SELECT docker_id FROM servers WHERE id = ?],
    [UPDATE servers SET docker_id = ?, state = ? WHERE id = ?],
    [UPDATE servers SET state = ? WHERE id = ?],
    [UPDATE servers SET state = ?, docker_id = NULL WHERE id = ?] and
    [DELETE FROM servers WHERE id = ?]. *)
Inductive Statement : Type :=
| InsertServer
| SelectDockerId
| UpdateDockerId
| UpdateState
| ResetDockerId
| DeleteServer.

(** A parameter of an SQL statement. *)
Inductive SqlValue : Type :=
| Null
| Text (s : jsstring)
| Number (n : Z)
| State (s : ServerState)
| Json (v : Stringified).

(** The body of a response. *)
Inductive Body : Type :=
| ServerCreated (id name : jsstring) (state : ServerState)
| ErrorBody (error : jsstring)
| MessageBody (message : jsstring).

(** The options of [docker.createContainer] for the game container. *)
Record GameContainer : Type := {
  game_name : jsstring;
  game_Image : jsstring;
  game_Cmd : list jsstring;
  game_Memory : Z;
  game_CpuShares : Z;
  game_Binds : list jsstring;
  game_port : Z;
  game_HostIp : jsstring
}.

(** What a route does to the outside, in order. *)
Inductive RouteEffect : Type :=
| Asked (e : PanelEffect)
| DbGet (sql : Statement) (params : list SqlValue)
| DbRun (sql : Statement) (params : list SqlValue)
| EngineCall (c : Call)
| CreateGame (options : GameContainer)
| RemoveContainer (dockerId : jsstring) (force v : bool)
| Rm (target : jsstring) (recursive force : bool)
| Respond (status : N) (body : Body)
| RouteError (text detail : jsstring).

(** What the database, the engine and the file system answer, given what
    has happened before: for [db.get] the [docker_id] of the row, if there
    is a row; for [createContainer] the id of the container. *)
Record Host : Type := {
  answerGet :
    list RouteEffect -> Statement -> list SqlValue
    -> completion (option (option jsstring));
  answerRun : list RouteEffect -> Statement -> list SqlValue -> completion unit;
  answerCreate : list RouteEffect -> GameContainer -> completion jsstring;
  answerRemove : list RouteEffect -> jsstring -> completion unit;
  answerRm : list RouteEffect -> jsstring -> completion unit
}.

(** Route computations: they read the host, extend the trace and may
    throw. *)
Definition R (A : Type) : Type :=
  Host -> list RouteEffect -> completion A * list RouteEffect.

Definition pure {A : Type} (a : A) : R A := fun _ trace => (Ok a, trace).

Definition raise {A : Type} (message : jsstring) : R A :=
  fun _ trace => (Throw message, trace).

Definition andThen (A B : Type) (m : R A) (k : A -> R B) : R B :=
  fun host trace =>
    match m host trace with
    | (Ok a, trace') => k a host trace'
    | (Throw e, trace') => (Throw e, trace')
    end.

Definition catch (A : Type) (m : R A) (handler : jsstring -> R A) : R A :=
  fun host trace =>
    match m host trace with
    | (Ok a, trace') => (Ok a, trace')
    | (Throw e, trace') => handler e host trace'
    end.

Declare Scope route_scope.
Delimit Scope route_scope with route.
Notation "x <- m ;; k" := (andThen m (fun x => k))
  (at level 61, m at next level, right associativity) : route_scope.
Notation "m ;; k" := (andThen m (fun _ => k))
  (at level 61, right associativity) : route_scope.
Local Open Scope route_scope.

(** An effect that cannot fail. *)
Definition emit (e : RouteEffect) : R unit :=
  fun _ trace => (Ok tt, trace ++ [e]).

(** The awaited calls: the effect is recorded and a failure is thrown. *)
Definition dbGet (sql : Statement) (params : list SqlValue)
  : R (option (option jsstring)) :=
  fun host trace =>
    (answerGet host trace sql params, trace ++ [DbGet sql params]).

Definition dbRun (sql : Statement) (params : list SqlValue) : R unit :=
  fun host trace =>
    (answerRun host trace sql params, trace ++ [DbRun sql params]).

Definition createContainer (options : GameContainer) : R jsstring :=
  fun host trace =>
    (answerCreate host trace options, trace ++ [CreateGame options]).

Definition removeContainer (dockerId : jsstring) (v : bool) : R unit :=
  fun host trace =>
    (answerRemove host trace dockerId,
     trace ++ [RemoveContainer dockerId true v]).

Definition rm (target : jsstring) : R unit :=
  fun host trace =>
    (answerRm host trace target, trace ++ [Rm target true true]).

Section Router.

Variable toLowerCase : jsstring -> jsstring.
Variables appUrl volumesDirectory cwd : jsstring.

(** The panel's replies to the requests for the configuration, and the
    host of the installation. *)
Variable panel : nat -> Reply ServerConfig.
Variable env : Env.

(** [fetchServerConfig], its effects added to the trace. *)
Definition fetchConfig (serverId temporaryId : jsstring) : R ServerConfig :=
  fun _ trace =>
    let '(result, asked) :=
      fetchServerConfig panel appUrl serverId temporaryId in
    (result, trace ++ map Asked asked).

(** [runInstallation], the calls it makes added to the trace. *)
Definition installation (serverId : jsstring)
    (serverConfig : ServerConfig) : R unit :=
  fun _ trace =>
    let '(result, run) :=
      runInstallation toLowerCase volumesDirectory cwd serverId serverConfig
        env emptyRun in
    (result, trace ++ map EngineCall (history run)).

(** [createGameContainer]. *)
Definition createGameContainer (serverId : jsstring) (config : ServerConfig)
    (memory cpu : Z) (allocated : Allocation) : R jsstring :=
  match processVariables toLowerCase (startupCommand config)
          (variables config) with
  | Throw e => raise e
  | Ok processedCommand =>
      createContainer
        {| game_name := sanitizeVolumeName serverId;
           game_Image := dockerImage config;
           game_Cmd := [js "/bin/bash"; js "-c"; processedCommand];
           game_Memory := memory;
           game_CpuShares := cpu;
           game_Binds :=
             [volumePathOf volumesDirectory cwd serverId
              ++ js ":/home/container"];
           game_port := port allocated;
           game_HostIp := bindAddress allocated |}
  end.

(** The container of a row is removed when the row has one; a failure is
    logged and goes no further. *)
Definition removeContainerOf (docker_id : option jsstring) (v : bool)
  : R unit :=
  match docker_id with
  | Some (c :: id) =>
      catch (removeContainer (c :: id) v)
        (fun error =>
           emit (RouteError (js "Failed to remove container:") error))
  | _ => pure tt
  end.

(** [router.delete('/:id')]. *)
Definition deleteRoute (id : jsstring) : R unit :=
  catch
    (server <- dbGet SelectDockerId [Text id] ;;
     match server with
     | Some docker_id =>
         removeContainerOf docker_id true ;;
         rm (volumesDirectory ++ js "/" ++ sanitizeVolumeName id) ;;
         dbRun DeleteServer [Text id] ;;
         emit (Respond 200 (MessageBody (js "Server deleted successfully")))
     | None => emit (Respond 404 (ErrorBody (js "Server not found")))
     end)
    (fun error =>
       emit (RouteError (js "Failed to delete server:") error) ;;
       emit (Respond 500 (ErrorBody error))).

(** [router.post('/:id/reinstall')]. *)
Definition reinstallRoute (id : jsstring) : R unit :=
  catch
    (serverConfig <- fetchConfig id id ;;
     server <- dbGet SelectDockerId [Text id] ;;
     match server with
     | Some docker_id =>
         removeContainerOf docker_id false ;;
         dbRun ResetDockerId [State Installing; Text id] ;;
         installation id serverConfig ;;
         dbRun UpdateState [State Installed; Text id] ;;
         emit (Respond 200
                 (MessageBody (js "Server reinstallation completed")))
     | None => emit (Respond 404 (ErrorBody (js "Server not found")))
     end)
    (fun error =>
       emit (RouteError (js "Failed to reinstall server:") error) ;;
       catch (dbRun UpdateState [State Errored; Text id])
         (fun err =>
            emit (RouteError (js "Failed to update error state:") err)) ;;
       emit (Respond 500 (ErrorBody error))).

(** What follows the installation of a new server: the [then] and the
    [catch] on the promise of [runInstallation]. *)
Definition afterInstallation (serverId : jsstring)
    (request : CreateServerRequest) (serverConfig : ServerConfig)
    (installed : R unit) : R unit :=
  catch
    (installed ;;
     dockerId <-
       createGameContainer serverId serverConfig (memoryLimit request)
         (cpuLimit request) (allocation request) ;;
     dbRun UpdateDockerId [Text dockerId; State Installed; Text serverId] ;;
     dbRun UpdateState [State Installed; Text serverId])
    (fun error =>
       emit (RouteError (js "Installation failed:") error) ;;
       dbRun UpdateState [State InstallFailed; Text serverId]).

(** [router.post('/')] for the id [serverId] that [uuidv4] has drawn.  The
    installation is not awaited: the response is sent once the
    installation has started its two pulls, and the rest of the
    installation and what follows it come after the response, out of
    reach of the [catch] of the route.  The completion is the one of that
    detached promise. *)
Definition createRoute (serverId : jsstring) (request : CreateServerRequest)
  : R unit :=
  fun host trace =>
    match
      (serverConfig <- fetchConfig serverId (temporaryInternalId request) ;;
       dbRun InsertServer
         [Text serverId; Null; Text (request_name request);
          State Installing; Number (memoryLimit request);
          Number (cpuLimit request); Text (dockerImage serverConfig);
          Json (VariablesOf (variables serverConfig));
          Text (startupCommand serverConfig);
          Json (InstallOf (install serverConfig));
          Json (AllocationOf (allocation request))] ;;
       pure serverConfig) host trace
    with
    | (Ok serverConfig, inserted) =>
        let '(result, run) :=
          runInstallation toLowerCase volumesDirectory cwd serverId
            serverConfig env emptyRun in
        let started := map EngineCall (firstn 2 (history run)) in
        let rest := map EngineCall (skipn 2 (history run)) in
        let responded :=
          inserted ++ started
          ++ [Respond 201
                (ServerCreated serverId (request_name request) Installing)]
        in
        afterInstallation serverId request serverConfig
          (fun _ trace' => (result, trace' ++ rest)) host responded
    | (Throw error, failed) =>
        (emit (RouteError (js "Failed to create server:") error) ;;
         emit (Respond 500 (ErrorBody error))) host failed
    end.

End Router.

End Routes.

(* ================================================================== *)
(** * Further statements *)
(* ================================================================== *)

Module Statements.
Import Servers Console Inputs.

(** The error a call has failed with, if it has. *)
Definition failure (o : Outcome) : option jsstring :=
  match o with
  | Rejected e => Some e
  | ThrewSync e => Some e
  | _ => None
  end.

Definition succeeded (A : Type) (c : completion A) : Prop :=
  match c with
  | Ok _ => True
  | Throw _ => False
  end.

(** The computation makes the calls of [calls] in order, up to the first
    one that fails: it makes all of them when it completes normally. *)
Definition follows (A : Type) (calls : list Call) (m : M A) : Prop :=
  forall env r,
    exists n,
      n <= length calls
      /\ history (snd (m env r)) = history r ++ firstn n calls
      /\ (succeeded (fst (m env r)) -> n = length calls).

(** The run after one more call. *)
Definition called (r : Run) (c : Call) : Run :=
  {| history := history r ++ [c]; logged := logged r; pushed := pushed r |}.

(** A handler that makes no call and throws. *)
Definition rethrows (A : Type) (handler : jsstring -> M A) : Prop :=
  forall e env r,
    history (snd (handler e env r)) = history r
    /\ ~ succeeded (fst (handler e env r)).

(** The calls [writeConfigFiles] makes for its files. *)
Definition configCalls (volumePath : jsstring) (files : list ConfigFile)
  : list Call :=
  flat_map
    (fun file =>
       [Mkdir (Path.dirname (fullPath volumePath file));
        WriteFile (fullPath volumePath file) (content file) None])
    files.

Section Plan.

Variable toLowerCase : jsstring -> jsstring.
Variables volumesDirectory cwd : jsstring.

(** The calls of an installation after the two pulls and before the
    removal of the install container: the volume directory, the config
    files, and, when the variables are acceptable, the script and the
    install container. *)
Definition installCalls (serverId : jsstring) (serverConfig : ServerConfig)
  : list Call :=
  let volumePath := volumePathOf volumesDirectory cwd serverId in
  let containerName := installContainerName serverId in
  Mkdir volumePath
  :: configCalls volumePath (configFiles serverConfig)
  ++ match processVariables toLowerCase (script (install serverConfig))
             (variables serverConfig) with
     | Ok processedScript =>
         [WriteFile (Path.join volumePath (js "install.sh"))
            (scriptContent processedScript) (Some 493%N);
          CreateContainer containerName
            (install_dockerImage (install serverConfig))
            [volumePath ++ js ":/mnt/server"] true;
          Attach containerName; Start containerName; Wait containerName]
     | Throw _ => []
     end.

End Plan.

(** Every call of [calls], made in turn after the history [h], is answered
    without a failure. *)
Definition smooth (env : Env) (h calls : list Call) : Prop :=
  forall k c,
    nth_error calls k = Some c ->
    failure (env (h ++ firstn k calls) c) = None.

(** When its calls are answered without a failure, the computation makes
    them all, completes normally and pushes nothing to the clients. *)
Definition succeeds (A : Type) (calls : list Call) (m : M A) : Prop :=
  forall env r,
    smooth env (history r) calls ->
    exists a r',
      m env r = (Ok a, r')
      /\ history r' = history r ++ calls /\ pushed r' = pushed r.

(** The chunks of the install container's output that are not blank, as
    trimmed text. *)
Definition messages (chunks : list (OutputStream * Buffer.buffer))
  : list (OutputStream * jsstring) :=
  filter (fun entry => negb (jseqb (snd entry) []))
    (map (fun entry => (fst entry, trim (Buffer.toString (snd entry))))
       chunks).

(** The text of [output] after the chunks, and what of them is pushed to
    the clients. *)
Definition outputOf (chunks : list (OutputStream * Buffer.buffer))
  : jsstring :=
  flat_map (fun entry => snd entry ++ newline) (messages chunks).

Definition pushedOf (serverId : jsstring)
    (chunks : list (OutputStream * Buffer.buffer))
  : list (jsstring * jsstring) :=
  flat_map
    (fun entry =>
       match fst entry with
       | Stdout => [(serverId, snd entry)]
       | Stderr => []
       end)
    (messages chunks).

(** The byte of a number below 256. *)
Definition byteOf (n : N) : byte :=
  match Byte.of_N n with
  | Some b => b
  | None => x00
  end.

(** A frame of the engine's multiplexed log stream: the stream tag, three
    bytes of padding, the length of the payload as a big-endian 32-bit
    number, and the payload. *)
Definition frame (tag : N) (payload : Buffer.buffer) : Buffer.buffer :=
  let len := N.of_nat (length payload) in
  [byteOf tag; x00; x00; x00;
   byteOf (len / 256 / 256 / 256); byteOf ((len / 256 / 256) mod 256);
   byteOf ((len / 256) mod 256); byteOf (len mod 256)]
  ++ payload.

(** The socket a pending call works for, once its token is validated. *)
Definition socketOf (p : Pending) : option nat :=
  match p with
  | AwaitValidate _ _ => None
  | AwaitServerRow s _ => Some s
  | AwaitSetupInspect s => Some s
  | AwaitLogs s => Some s
  | AwaitTickInspect s => Some s
  | AwaitTickStats s _ => Some s
  | AwaitPower s _ => Some s
  | AwaitPowerInspect s _ => Some s
  end.

(** The panel has answered that the token of the socket is valid. *)
Definition validatedIn (events : list LoopEvent) (sock : nat) : Prop :=
  exists validation,
    In (ValidateReturned sock (Some validation)) events
    /\ validated validation = true.

(** Something has been sent to the socket or registered on it. *)
Definition engaged (s : Socket) : Prop :=
  messageListener s = true \/ delivered s <> [] \/ closeListeners s <> [].

(** Everything the manager holds for a socket beyond the socket itself
    and the validation of its token belongs to a socket in [P]. *)
Record Gated (P : nat -> Prop) (m : Manager) : Prop := {
  gated_pending :
    forall p s, In p (pending m) -> socketOf p = Some s -> P s;
  gated_objects :
    forall s x, lookup Nat.eqb s (sessionObjects m) = Some x -> P s;
  gated_sessions : forall s, In s (sessions m) -> P s;
  gated_sockets :
    forall s x, lookup Nat.eqb s (sockets m) = Some x -> engaged x -> P s;
  gated_intervals :
    forall i s, lookup Nat.eqb i (intervals m) = Some s -> P s;
  gated_streams :
    forall st s, lookup Nat.eqb st (logStreams m) = Some s -> P s
}.

(** The socket a pending call sets a session up for. *)
Definition setupOf (p : Pending) : option nat :=
  match p with
  | AwaitValidate s _ => Some s
  | AwaitServerRow s _ => Some s
  | AwaitSetupInspect s => Some s
  | _ => None
  end.

(** The session of the socket is registered and nothing is left that
    could remove it: the socket has no teardown listener, and no setup is
    under way that would register one. *)
Record Stranded (sock : nat) (m : Manager) : Prop := {
  stranded_session : In sock (sessions m);
  stranded_socket :
    exists s, lookup Nat.eqb sock (sockets m) = Some s
              /\ ~ In Teardown (closeListeners s);
  stranded_pending :
    forall p, In p (pending m) -> setupOf p <> Some sock
}.

End Statements.

Module PanelStatements.
Import Servers Panel.

(** The requests of a trace, and the delays it waits for. *)
Definition requests (trace : list PanelEffect) : list PanelEffect :=
  filter (fun e => match e with Get _ _ => true | _ => false end) trace.

Definition waits (trace : list PanelEffect) : list N :=
  flat_map (fun e => match e with SetTimeout ms => [ms] | _ => [] end) trace.

(** The message of the last of the first [n] attempts that has failed. *)
Fixpoint lastFailure (A : Type) (panel : nat -> Reply A) (n : nat)
  : option (option jsstring) :=
  match n with
  | 0 => None
  | S k =>
      match panel n with
      | Failure message => Some message
      | Response _ _ => lastFailure panel k
      end
  end.

(** The attempt is answered with status 200. *)
Definition accepted (A : Type) (panel : nat -> Reply A) (k : nat) : Prop :=
  exists data, panel k = Response 200 data.

End PanelStatements.

Module CommandStatements.
Import Servers Console Inputs Commands.

(** A word: not empty and without white space. *)
Definition word (w : jsstring) : Prop :=
  w <> [] /\ forallb (fun c => negb (isWhiteSpace c)) w = true.

(** A row of a process listing as [ps] prints it: the process id and the
    parent's id in decimal and the words of the command, behind an
    indentation and with a gap of one or more blanks between the
    columns. *)
Record Row : Type := {
  indent : nat;
  gap : nat;
  pidText : jsstring;
  ppidText : jsstring;
  words : list jsstring
}.

Definition spaces (n : nat) : jsstring := repeat 32%N n.

Fixpoint joinGap (g : nat) (fields : list jsstring) : jsstring :=
  match fields with
  | [] => []
  | [field] => field
  | field :: rest => field ++ spaces g ++ joinGap g rest
  end.

Definition fieldsOf (r : Row) : list jsstring :=
  pidText r :: ppidText r :: words r.

Definition renderRow (r : Row) : jsstring :=
  spaces (indent r) ++ joinGap (S (gap r)) (fieldsOf r).

Definition wellFormed (r : Row) : Prop :=
  isDecimal (pidText r) /\ isDecimal (ppidText r) /\ Forall word (words r).

(** The rows, one on a line. *)
Definition listing (rows : list Row) : jsstring :=
  joinWith 10 (map renderRow rows).

(** The process a row stands for. *)
Definition processOf (r : Row) : Process :=
  {| pid := Some (digitsValue (pidText r));
     ppid := Some (digitsValue (ppidText r));
     cmd := joinWith 32 (words r) |}.

(** What a trace writes to the shell and sends to the client. *)
Definition written (trace : list ShellEffect) : list jsstring :=
  flat_map (fun e => match e with Write text => [text] | _ => [] end) trace.

Definition sent (trace : list ShellEffect) : list OutboundEvent :=
  flat_map (fun e => match e with Send event => [event] | _ => [] end) trace.

Definition shellsCreated (trace : list ShellEffect) : nat :=
  length
    (filter
       (fun e =>
          match e with
          | Exec [name] _ _ _ => jseqb name (js "sh")
          | _ => false
          end)
       trace).

End CommandStatements.

Module RouteStatements.
Import Servers Panel Routes.

(** What a trace shows of each kind of effect, in order. *)
Definition responses (trace : list RouteEffect) : list (N * Body) :=
  flat_map
    (fun e =>
       match e with
       | Respond status body => [(status, body)]
       | _ => []
       end)
    trace.

Definition statements (trace : list RouteEffect)
  : list (Statement * list SqlValue) :=
  flat_map
    (fun e => match e with DbRun sql params => [(sql, params)] | _ => [] end)
    trace.

Definition engineCalls (trace : list RouteEffect) : list Call :=
  flat_map (fun e => match e with EngineCall c => [c] | _ => [] end) trace.

Definition gameContainers (trace : list RouteEffect) : list GameContainer :=
  flat_map
    (fun e => match e with CreateGame options => [options] | _ => [] end)
    trace.

Definition removals (trace : list RouteEffect) : list jsstring :=
  flat_map
    (fun e => match e with RemoveContainer id _ _ => [id] | _ => [] end)
    trace.

Definition deletions (trace : list RouteEffect) : list jsstring :=
  flat_map (fun e => match e with Rm target _ _ => [target] | _ => [] end)
    trace.

End RouteStatements.

(* ================================================================== *)
(** * Properties *)
(* ================================================================== *)

(** ** JavaScript strings *)

Module JSFacts.

Lemma jseqb_eq (a b : jsstring) : jseqb a b = true <-> a = b.
Proof.
  revert b; induction a as [|x a IH]; intros [|y b]; simpl;
    try (split; [discriminate|discriminate]); try tauto.
  rewrite andb_true_iff, N.eqb_eq, IH.
  split; [intros [-> ->]; reflexivity | intros H; inversion H; auto].
Qed.

Lemma jseqb_refl (a : jsstring) : jseqb a a = true.
Proof. apply jseqb_eq; reflexivity. Qed.

Lemma jseqb_neq (a b : jsstring) : jseqb a b = false <-> a <> b.
Proof.
  rewrite <- jseqb_eq. destruct (jseqb a b); split; congruence.
Qed.

Lemma startsWith_app (p r : jsstring) : startsWith p (p ++ r) = true.
Proof.
  induction p as [|x p IH]; simpl; [reflexivity|].
  now rewrite N.eqb_refl, IH.
Qed.

Lemma startsWith_inv (p s : jsstring) :
  startsWith p s = true -> exists r, s = p ++ r.
Proof.
  revert s; induction p as [|x p IH]; intros s H; simpl in *.
  - now exists s.
  - destruct s as [|y s]; [discriminate|].
    apply andb_true_iff in H as [Hxy H].
    apply N.eqb_eq in Hxy; subst y.
    destruct (IH _ H) as [r ->]. now exists r.
Qed.

Lemma isDigit_not_white (c : N) : isDigit c = true -> isWhiteSpace c = false.
Proof.
  unfold isDigit, isWhiteSpace; intros H.
  apply andb_true_iff in H as [H1 H2].
  apply N.leb_le in H1; apply N.leb_le in H2.
  repeat match goal with
         | |- context [(?a <=? ?b)%N] =>
             destruct (N.leb_spec a b); try lia
         | |- context [(?a =? ?b)%N] =>
             destruct (N.eqb_spec a b); try lia
         end; reflexivity.
Qed.

Lemma takeDigits_all (ds : jsstring) :
  forallb isDigit ds = true -> takeDigits ds = ds.
Proof.
  induction ds as [|c ds IH]; simpl; [reflexivity|].
  intros H; apply andb_true_iff in H as [Hc H].
  now rewrite Hc, IH.
Qed.

Lemma digitsValue_fold_nonneg (ds : jsstring) (acc : Z) :
  forallb isDigit ds = true -> (0 <= acc)%Z ->
  (0 <= fold_left (fun a c => a * 10 + (Z.of_N c - 48)) ds acc)%Z.
Proof.
  revert acc; induction ds as [|c ds IH]; simpl; intros acc H Hacc; [lia|].
  apply andb_true_iff in H as [Hc H].
  apply IH; [assumption|].
  unfold isDigit in Hc. apply andb_true_iff in Hc as [H1 H2].
  apply N.leb_le in H1. lia.
Qed.

Lemma digitsValue_nonneg (ds : jsstring) :
  forallb isDigit ds = true -> (0 <= digitsValue ds)%Z.
Proof. intros H; apply digitsValue_fold_nonneg; [assumption|lia]. Qed.

(** [parseInt] reads a string of decimal digits as the number it denotes. *)
Lemma parseInt_decimal (ds : jsstring) :
  Inputs.isDecimal ds -> parseInt ds = Some (digitsValue ds).
Proof.
  intros [Hne Hall]. destruct ds as [|c ds]; [congruence|].
  pose proof Hall as Hall'. simpl in Hall'.
  apply andb_true_iff in Hall' as [Hc _].
  unfold parseInt. simpl trimStart. rewrite (isDigit_not_white _ Hc).
  assert (Hm : (c =? 45)%N = false).
  { unfold isDigit in Hc. apply andb_true_iff in Hc as [H1 _].
    apply N.leb_le in H1. apply N.eqb_neq. lia. }
  assert (Hp : (c =? 43)%N = false).
  { unfold isDigit in Hc. apply andb_true_iff in Hc as [H1 _].
    apply N.leb_le in H1. apply N.eqb_neq. lia. }
  rewrite Hm, Hp, (takeDigits_all _ Hall). reflexivity.
Qed.

End JSFacts.

(** ** Variable rules ([validateVariableValue]) *)

Module RuleFacts.

Import Servers Inputs JSFacts.

(** A [max:] rule with a decimal argument is recognised as such, and as
    neither of the rules tested before it. *)
Lemma max_rule_shape (ds : jsstring) :
  jseqb (js "max:" ++ ds) (js "nullable") = false
  /\ jseqb (js "max:" ++ ds) (js "string") = false
  /\ startsWith (js "max:") (js "max:" ++ ds) = true
  /\ slice 4 (js "max:" ++ ds) = ds.
Proof. repeat split. Qed.

Lemma maxBound_max_rule (ds : jsstring) :
  isDecimal ds -> maxBound (js "max:" ++ ds) = Some (digitsValue ds).
Proof.
  intros H. unfold maxBound.
  destruct (max_rule_shape ds) as (_ & _ & -> & ->).
  now apply parseInt_decimal.
Qed.

(** The rules tested before [max:] never start with [max:]. *)
Lemma maxBound_not_keyword (rule : jsstring) :
  jseqb rule (js "nullable") = true \/ jseqb rule (js "string") = true ->
  maxBound rule = None.
Proof.
  intros [H|H]; apply jseqb_eq in H; subst rule; reflexivity.
Qed.

(** One turn of the loop, by what the rule is. *)
Lemma validateRules_cons (value rule : jsstring) (rest : list jsstring) :
  validateRules value (rule :: rest) =
    if jseqb rule (js "nullable") && jseqb value [] then true
    else match maxBound rule with
         | Some max =>
             if (Z.of_nat (length value) >? max)%Z then false
             else validateRules value rest
         | None => validateRules value rest
         end.
Proof.
  cbn [validateRules].
  destruct (jseqb rule (js "nullable")) eqn:Hn.
  - rewrite maxBound_not_keyword by auto. cbn [andb].
    destruct (jseqb value []); reflexivity.
  - cbn [andb]. destruct (jseqb rule (js "string")) eqn:Hs.
    + rewrite maxBound_not_keyword by auto. reflexivity.
    + unfold maxBound. destruct (startsWith (js "max:") rule); reflexivity.
Qed.

Lemma validateRules_rejects (value ds : jsstring) (ruleList : list jsstring) :
  isDecimal ds -> In (js "max:" ++ ds) ruleList ->
  (Z.of_nat (length value) > digitsValue ds)%Z ->
  validateRules value ruleList = false.
Proof.
  intros Hds Hin Hlen.
  assert (Hne : jseqb value [] = false).
  { destruct Hds as [_ Hall]. pose proof (digitsValue_nonneg _ Hall).
    destruct value; [simpl in Hlen; lia | reflexivity]. }
  induction ruleList as [|rule rest IH]; [contradiction|].
  rewrite validateRules_cons, Hne, andb_false_r.
  destruct Hin as [->|Hin].
  - rewrite (maxBound_max_rule Hds).
    destruct (Z.gtb_spec (Z.of_nat (length value)) (digitsValue ds));
      [reflexivity|lia].
  - specialize (IH Hin).
    destruct (maxBound rule) as [max|]; [|assumption].
    destruct (Z.of_nat (length value) >? max)%Z; [reflexivity|assumption].
Qed.

Lemma validateRules_accepts (value : jsstring) (ruleList : list jsstring) :
  (forall r m, In r ruleList -> maxBound r = Some m ->
               (Z.of_nat (length value) <= m)%Z) ->
  validateRules value ruleList = true.
Proof.
  induction ruleList as [|rule rest IH]; intros Hb; [reflexivity|].
  rewrite validateRules_cons.
  destruct (jseqb rule (js "nullable") && jseqb value []); [reflexivity|].
  assert (Hrest : validateRules value rest = true).
  { apply IH. intros r m Hr. apply Hb. now right. }
  destruct (maxBound rule) as [max|] eqn:Hmax; [|assumption].
  specialize (Hb rule max (or_introl eq_refl) Hmax).
  destruct (Z.gtb_spec (Z.of_nat (length value)) max); [lia|assumption].
Qed.

Lemma validateRules_nullable_empty (pre post : list jsstring) :
  (forall r m, In r pre -> maxBound r = Some m -> (0 <= m)%Z) ->
  validateRules [] (pre ++ js "nullable" :: post) = true.
Proof.
  induction pre as [|rule pre IH]; intros Hb.
  - reflexivity.
  - cbn [app]. rewrite validateRules_cons.
    destruct (jseqb rule (js "nullable") && jseqb [] []); [reflexivity|].
    assert (Hrest : validateRules [] (pre ++ js "nullable" :: post) = true).
    { apply IH. intros r m Hr. apply Hb. now right. }
    destruct (maxBound rule) as [max|] eqn:Hmax; [|assumption].
    specialize (Hb rule max (or_introl eq_refl) Hmax).
    cbn [length Z.of_nat].
    destruct (Z.gtb_spec 0 max); [lia|assumption].
Qed.

(** C4, as the code has it.  For a rule list that contains [max:N]:
    every value longer than [N] is rejected; a value is accepted when its
    length is within the bound of every [max:] rule of the list (the other
    rules never reject); and the empty value is accepted as soon as
    [nullable] is reached, provided no [max:] rule before it has a negative
    bound. *)
Theorem max_rule_validation (rules value ds : jsstring) :
  isDecimal ds ->
  In (js "max:" ++ ds) (split 124 rules) ->
  ((Z.of_nat (length value) > digitsValue ds)%Z ->
   validateVariableValue value rules = false)
  /\ ((forall r m, In r (split 124 rules) -> maxBound r = Some m ->
                   (Z.of_nat (length value) <= m)%Z) ->
      validateVariableValue value rules = true)
  /\ (value = [] ->
      forall pre post,
        split 124 rules = pre ++ js "nullable" :: post ->
        (forall r m, In r pre -> maxBound r = Some m -> (0 <= m)%Z) ->
        validateVariableValue value rules = true).
Proof.
  intros Hds Hin. unfold validateVariableValue. repeat split.
  - now apply validateRules_rejects with (ds := ds).
  - apply validateRules_accepts.
  - intros -> pre post -> Hb. now apply validateRules_nullable_empty.
Qed.

Lemma max_rule_validation_witness :
  validateVariableValue (js "abcdefg") (js "string|max:5") = false
  /\ validateVariableValue (js "abc") (js "string|max:5") = true
  /\ validateVariableValue [] (js "nullable|max:5") = true.
Proof.
  assert (Hds : isDecimal (js "5")) by (split; [discriminate|reflexivity]).
  split; [|split].
  - apply (max_rule_validation (js "string|max:5") (js "abcdefg") Hds).
    + cbn; auto.
    + cbn; lia.
  - apply (max_rule_validation (js "string|max:5") (js "abc") Hds).
    + cbn; auto.
    + intros r m [<-|[<-|[]]]; cbn; intros H; inversion H; lia.
  - apply (max_rule_validation (js "nullable|max:5") [] Hds)
      with (pre := []) (post := [js "max:5"]).
    + cbn; auto.
    + reflexivity.
    + reflexivity.
    + intros r m [].
Defined.

(** C4 as the spec words it fails: with [max:5|max:2] a value of length 3
    is within the bound 5, the list has no [nullable], and the value is
    rejected, by the second rule. *)
Lemma max_rule_not_regardless_of_other_rules :
  In (js "max:5") (split 124 (js "max:5|max:2"))
  /\ (Z.of_nat (length (js "abc")) <= digitsValue (js "5"))%Z
  /\ validateVariableValue (js "abc") (js "max:5|max:2") = false.
Proof.
  split; [cbn; auto|]. split; [cbn; lia|reflexivity].
Qed.

End RuleFacts.

(** ** Lists *)

Module ListFacts.

(** Two ways of cutting one list: the shorter first part is a prefix of
    the longer one. *)
Lemma app_eq_app_le (A : Type) (a b c d : list A) :
  a ++ b = c ++ d -> length a <= length c ->
  exists x, c = a ++ x /\ b = x ++ d.
Proof.
  revert c; induction a as [|y a IH]; intros c H Hlen; simpl in *.
  - exists c. auto.
  - destruct c as [|z c]; simpl in *; [lia|].
    inversion H; subst z.
    destruct (IH c) as (x & -> & ->); [assumption|lia|].
    exists x. auto.
Qed.

Lemma skipn_app_exact (A : Type) (a b : list A) :
  skipn (length a) (a ++ b) = b.
Proof.
  rewrite skipn_app, Nat.sub_diag, skipn_all. reflexivity.
Qed.

End ListFacts.

(** ** Substitution ([processVariables]) *)

Module SubstitutionFacts.

Import Servers Inputs JSFacts ListFacts.

(** [indexOf] finds an occurrence: the text is cut around it. *)
Lemma indexOf_Some (p s : jsstring) (i : nat) :
  indexOf p s = Some i ->
  exists before after,
    s = before ++ p ++ after /\ length before = i
    /\ firstn i s = before /\ skipn (i + length p) s = after.
Proof.
  revert i; induction s as [|c s IH]; intros i H.
  - simpl in H. destruct p; [|discriminate].
    inversion H; subst. exists [], []. auto.
  - cbn [indexOf] in H.
    destruct (startsWith p (c :: s)) eqn:Hsw.
    + inversion H; subst i.
      destruct (startsWith_inv _ _ Hsw) as [r Hr].
      exists [], r. rewrite Hr. cbn [app length firstn Nat.add].
      repeat split. apply skipn_app_exact.
    + destruct (indexOf p s) as [j|] eqn:Hj; [|discriminate].
      inversion H; subst i.
      destruct (IH j eq_refl) as (before & after & Hs & Hlen & Hf & Hk).
      exists (c :: before), after. cbn [app length firstn].
      rewrite Hf. repeat split; try congruence.
      cbn [Nat.add skipn]. assumption.
Qed.

(** ... and it is the first one. *)
Lemma indexOf_first (p s : jsstring) (i : nat) :
  indexOf p s = Some i ->
  forall j, j < i -> ~ occursAt p j s.
Proof.
  revert i; induction s as [|c s IH]; intros i H j Hj.
  - simpl in H. destruct p; [|discriminate]. inversion H; lia.
  - cbn [indexOf] in H.
    destruct (startsWith p (c :: s)) eqn:Hsw; [inversion H; lia|].
    destruct (indexOf p s) as [i'|] eqn:Hi; [|discriminate].
    inversion H; subst i. intros (pre & post & Hs & Hlen).
    destruct pre as [|c' pre]; simpl in Hlen, Hs.
    + rewrite Hs, startsWith_app in Hsw. discriminate.
    + subst j. inversion Hs; subst.
      apply (IH i' eq_refl (length pre)); [lia|].
      now exists pre, post.
Qed.

Lemma indexOf_None (p s : jsstring) :
  indexOf p s = None -> forall j, ~ occursAt p j s.
Proof.
  induction s as [|c s IH]; intros H j (pre & post & Hs & Hlen).
  - simpl in H. destruct p; [discriminate|].
    destruct pre; discriminate.
  - cbn [indexOf] in H.
    destruct (startsWith p (c :: s)) eqn:Hsw; [discriminate|].
    destruct (indexOf p s) eqn:Hi; [discriminate|].
    destruct pre as [|c' pre]; simpl in Hs.
    + rewrite Hs, startsWith_app in Hsw. discriminate.
    + inversion Hs; subst.
      apply (IH eq_refl (length pre)). now exists pre, post.
Qed.

Lemma replace_absent (s p v : jsstring) :
  indexOf p s = None -> replace s p v = s.
Proof. unfold replace. now intros ->. Qed.

(** [replace] rewrites the first occurrence and nothing else. *)
Lemma replace_found (s p v : jsstring) (i : nat) :
  indexOf p s = Some i ->
  exists before after,
    s = before ++ p ++ after /\ length before = i
    /\ replace s p v =
         before ++ getSubstitution p before after v ++ after.
Proof.
  intros H. destruct (indexOf_Some _ _ H) as (b & a & Hs & Hl & Hf & Hk).
  exists b, a. repeat split; try assumption.
  unfold replace. rewrite H. cbn zeta. now rewrite Hf, Hk.
Qed.

(** An occurrence that ends before the replaced text stays where it is. *)
Lemma replace_keeps_before (s p v tok : jsstring) (i k : nat) :
  indexOf p s = Some i -> occursAt tok k s -> k + length tok <= i ->
  occursAt tok k (replace s p v).
Proof.
  intros Hi (pre & post & Hs & Hk) Hle.
  destruct (@replace_found s p v i Hi) as (b & a & Hs' & Hb & ->).
  assert (Hcut : (pre ++ tok) ++ post = b ++ p ++ a)
    by (rewrite <- app_assoc; congruence).
  destruct (app_eq_app_le _ _ _ _ Hcut) as (x & -> & _).
  { rewrite length_app. lia. }
  exists pre, (x ++ getSubstitution p ((pre ++ tok) ++ x) a v ++ a).
  split; [|assumption]. now rewrite <- !app_assoc.
Qed.

(** An occurrence that starts after the replaced text stays in one piece
    and moves by the difference in length. *)
Lemma replace_keeps_after (s p v tok : jsstring) (i k : nat) :
  indexOf p s = Some i -> occursAt tok k s -> i + length p <= k ->
  occursAt tok
    (k - length p
     + length (getSubstitution p (firstn i s) (skipn (i + length p) s) v))
    (replace s p v).
Proof.
  intros Hi (pre & post & Hs & Hk) Hle.
  destruct (indexOf_Some _ _ Hi) as (b & a & Hs' & Hb & Hf & Ha).
  unfold replace. rewrite Hi. cbn zeta. rewrite Hf, Ha.
  assert (Hcut : (b ++ p) ++ a = pre ++ tok ++ post)
    by (rewrite <- app_assoc; congruence).
  destruct (app_eq_app_le _ _ _ _ Hcut) as (x & -> & ->).
  { rewrite length_app. lia. }
  exists (b ++ getSubstitution p b (x ++ tok ++ post) v ++ x), post.
  split; [now rewrite <- !app_assoc|].
  rewrite !length_app in *. lia.
Qed.

Section Run.

Variable toLowerCase : jsstring -> jsstring.

Local Abbreviation placeholder := (placeholder toLowerCase).
Local Abbreviation processVariables := (processVariables toLowerCase).
Local Abbreviation tokenSurvives := (tokenSurvives toLowerCase).

(** Whether processing throws, and what, is decided by the variables
    alone. *)
Lemma processVariables_throw_any_template
    (input input' : jsstring) (vars : list VariableDef) (e : jsstring) :
  processVariables input vars = Throw e ->
  processVariables input' vars = Throw e.
Proof.
  unfold Servers.processVariables.
  revert input input'; induction vars as [|v vars IH]; intros input input' H.
  - discriminate.
  - cbn [processLoop] in *.
    destruct (validateVariableValue (effectiveValue v) (rules v));
      [eapply IH; eassumption|assumption].
Qed.

Lemma processVariables_valid (input : jsstring) (vars : list VariableDef) :
  Forall valid vars -> exists out, processVariables input vars = Ok out.
Proof.
  unfold Servers.processVariables.
  revert input; induction vars as [|v vars IH]; intros input H.
  - now exists input.
  - inversion H as [|? ? Hv Hvs]; subst. cbn [processLoop].
    unfold valid in Hv. rewrite Hv. apply IH. assumption.
Qed.

Lemma processVariables_cons (input : jsstring) (v : VariableDef)
    (vars : list VariableDef) :
  valid v ->
  processVariables input (v :: vars) =
    processVariables (replace input (placeholder v) (effectiveValue v)) vars.
Proof.
  unfold Servers.processVariables, valid. intros Hv. cbn [processLoop].
  now rewrite Hv.
Qed.

(** A template in which no supplied placeholder occurs comes back as it
    is. *)
Lemma processVariables_no_placeholder (input : jsstring)
    (vars : list VariableDef) :
  Forall valid vars ->
  (forall v, In v vars -> indexOf (placeholder v) input = None) ->
  processVariables input vars = Ok input.
Proof.
  induction vars as [|v vars IH]; intros Hv Hnone; [reflexivity|].
  inversion Hv; subst.
  rewrite processVariables_cons by assumption.
  rewrite replace_absent by (apply Hnone; now left).
  apply IH; [assumption|]. intros w Hw. apply Hnone. now right.
Qed.

(** An occurrence that no step overlaps is found in the output. *)
Lemma tokenSurvives_sound (tok : jsstring) (vars : list VariableDef) :
  Forall valid vars ->
  forall (input : jsstring) (k k' : nat),
    occursAt tok k input ->
    tokenSurvives k (length tok) input vars = Some k' ->
    exists out, processVariables input vars = Ok out /\ occursAt tok k' out.
Proof.
  induction vars as [|v vars IH]; intros Hv input k k' Hocc Hs.
  - cbn in Hs. inversion Hs; subst. now exists input.
  - inversion Hv; subst.
    rewrite processVariables_cons by assumption.
    cbn [Inputs.tokenSurvives] in Hs.
    destruct (indexOf (placeholder v) input) as [i|] eqn:Hi.
    + cbn zeta in Hs.
      destruct (Nat.leb_spec (i + length (placeholder v)) k).
      * eapply IH; [assumption| |exact Hs].
        now apply replace_keeps_after.
      * destruct (Nat.leb_spec (k + length tok) i); [|discriminate].
        eapply IH; [assumption| |exact Hs].
        now apply replace_keeps_before with (i := i).
    + rewrite replace_absent by assumption.
      eapply IH; eassumption.
Qed.

(** C9, as the code has it.  Substitution searches for each placeholder
    as a plain substring, so an unresolved token stays in the output when
    no substitution step replaces text that overlaps it: [tokenSurvives]
    follows the occurrence at offset [k] and gives its offset [k'] in the
    output.  In particular a template in which no supplied placeholder
    occurs is returned unchanged.  Processing never throws because of the
    template: an error it throws is thrown for every template, and with
    acceptable variables there is none. *)
Theorem unresolved_placeholders_kept
    (input tok : jsstring) (vars : list VariableDef) (k : nat) :
  occursAt tok k input ->
  (forall e, processVariables input vars = Throw e ->
             forall input', processVariables input' vars = Throw e)
  /\ (Forall valid vars ->
      (exists out, processVariables input vars = Ok out)
      /\ (forall k', tokenSurvives k (length tok) input vars = Some k' ->
                     exists out, processVariables input vars = Ok out
                                 /\ occursAt tok k' out)
      /\ ((forall v, In v vars -> indexOf (placeholder v) input = None) ->
          processVariables input vars = Ok input)).
Proof.
  intros Hocc. split.
  - intros e He input'. eapply processVariables_throw_any_template; eassumption.
  - intros Hv. repeat split.
    + now apply processVariables_valid.
    + intros k' Hk. now apply tokenSurvives_sound with (k := k).
    + now apply processVariables_no_placeholder.
Qed.


End Run.

Lemma unresolved_placeholders_kept_witness :
  exists out,
    processVariables asciiLower (js "java -jar %server_jar% -p %port%")
      [plainVariable "Port" "25565"] = Ok out
    /\ occursAt (js "%server_jar%") 10 out.
Proof.
  assert (Hocc : occursAt (js "%server_jar%") 10
                   (js "java -jar %server_jar% -p %port%")).
  { exists (js "java -jar "), (js " -p %port%"). split; reflexivity. }
  assert (Hv : Forall valid [plainVariable "Port" "25565"]).
  { repeat constructor. }
  destruct (@unresolved_placeholders_kept asciiLower
              (js "java -jar %server_jar% -p %port%") (js "%server_jar%")
              [plainVariable "Port" "25565"] 10 Hocc) as [_ H].
  destruct (H Hv) as (_ & Hkept & _).
  exact (Hkept 10 eq_refl).
Defined.

(** C9 as the spec words it fails: in [%x%port%y%] the tokens [%x%] and
    [%y%] name no supplied variable, yet the substitution of [%port%],
    found between them, takes a percent sign from each, and neither token
    is left in the output. *)
Lemma unresolved_placeholder_overwritten :
  indexOf (js "%x%") (js "%x%port%y%") = Some 0
  /\ indexOf (js "%y%") (js "%x%port%y%") = Some 7
  /\ placeholder asciiLower (plainVariable "Port" "25565") = js "%port%"
  /\ processVariables asciiLower (js "%x%port%y%")
       [plainVariable "Port" "25565"] = Ok (js "%x25565y%")
  /\ indexOf (js "%x%") (js "%x25565y%") = None
  /\ indexOf (js "%y%") (js "%x25565y%") = None.
Proof. repeat split. Qed.


(** The example in full: the second occurrence is still there. *)
Example first_occurrence_example :
  processVariables asciiLower (js "%server_jar% then %server_jar%")
    [plainVariable "Server Jar" "paper.jar"]
  = Ok (js "paper.jar then %server_jar%").
Proof. reflexivity. Qed.

End SubstitutionFacts.

(** ** Log frames and the CPU formula *)

Module DecoderFacts.

Import Console Inputs.

(** The frame of the example decodes to one line of primary origin. *)
Lemma decode_hello : decodeLogChunk helloChunk = Ok (Some (INFO, js "hello")).
Proof. reflexivity. Qed.

(** A frame with a zero length field, or a payload that trims to nothing,
    decodes to no line. *)
Lemma decode_blank (chunk : Buffer.buffer) (logType contentLength : N) :
  Buffer.readUInt8 chunk 0 = Ok logType ->
  Buffer.readUInt32BE chunk 4 = Ok contentLength ->
  contentLength = 0%N
  \/ trim (Buffer.toString
             (Buffer.bufSlice chunk 8 (8 + N.to_nat contentLength))) = [] ->
  decodeLogChunk chunk = Ok None.
Proof.
  intros H8 H32 Hempty.
  assert (Htrim : trim (Buffer.toString
                          (Buffer.bufSlice chunk 8
                             (8 + N.to_nat contentLength))) = []).
  { destruct Hempty as [->|H]; [|assumption].
    unfold Buffer.bufSlice.
    replace (8 + N.to_nat 0 - 8) with 0 by (cbn; lia).
    reflexivity. }
  unfold decodeLogChunk. rewrite H8, H32. cbn zeta. now rewrite Htrim.
Qed.

(** A frame too short for its header is a parse error, not a line. *)
Example decode_short :
  decodeLogChunk [x01; x00; x00] = Throw Buffer.rangeError.
Proof. reflexivity. Qed.

(** A reading that is not above zero fails the test [x > 0]. *)
Lemma nonpositive_not_positive (x : float) :
  (x <=? 0)%float = true -> (0 <? x)%float = false.
Proof.
  rewrite leb_spec, ltb_spec.
  destruct (Prim2SF x) as [[|]|[|]| |[|] mant e]; vm_compute; congruence.
Qed.

(** C6.  With a CPU delta of 200, a system delta of 1000 and 4 CPUs the
    result is the double 80; when either delta is not above zero the
    result is 0. *)
Theorem cpu_percent_formula (st : ContainerStatsResponse) :
  (cpuDelta st = 200%float -> systemDelta st = 1000%float ->
   online_cpus (cpu_stats st) = 4%float ->
   calculateCPUPercent st = 80%float)
  /\ ((systemDelta st <=? 0)%float = true
      \/ (cpuDelta st <=? 0)%float = true ->
      calculateCPUPercent st = 0%float).
Proof.
  unfold calculateCPUPercent. split.
  - intros -> -> ->. reflexivity.
  - intros [H|H]; apply nonpositive_not_positive in H; rewrite H;
      [reflexivity|now rewrite andb_false_r].
Qed.

Lemma cpu_percent_formula_witness :
  calculateCPUPercent (reading 1200 1000 5000 4000 4) = 80%float
  /\ calculateCPUPercent (reading 1200 1000 4000 4000 4) = 0%float
  /\ calculateCPUPercent (reading 1000 1200 5000 4000 4) = 0%float.
Proof.
  split; [|split].
  - apply (cpu_percent_formula (reading 1200 1000 5000 4000 4));
      reflexivity.
  - apply (cpu_percent_formula (reading 1200 1000 4000 4000 4)).
    left; reflexivity.
  - apply (cpu_percent_formula (reading 1000 1200 5000 4000 4)).
    right; reflexivity.
Defined.

End DecoderFacts.

(** ** Installation ([writeConfigFiles], [runInstallation]) *)

Unset Implicit Arguments.

Module InstallFacts.

Import Servers Inputs JSFacts.

(** C2 at the path [..]: the leading-[..] pattern asks for a separator
    after the dots, so a path that normalizes to [..] alone passes through
    the sanitizer, and the writer is given the parent of the volume root:
    it creates the directory above it and writes to [/var/lib/volumes]. *)
Lemma config_path_dotdot_leaves_root :
  safePath {| path := js ".."; content := js "x" |} = js ".."
  /\ fullPath (js "/var/lib/volumes/srv1")
       {| path := js ".."; content := js "x" |} = js "/var/lib/volumes"
  /\ Path.strictlyInside (js "/var/lib/volumes/srv1")
       (js "/var/lib/volumes") = false
  /\ history (snd (writeConfigFiles (js "/var/lib/volumes/srv1")
                     [{| path := js ".."; content := js "x" |}]
                     obligingHost emptyRun))
     = [Mkdir (js "/var/lib"); WriteFile (js "/var/lib/volumes") (js "x") None].
Proof. repeat split. Qed.

(** Other paths that end above or at the root: [../..] and [a/../..]
    normalize to a path whose last [..] has no separator after it, and the
    empty path is the root itself. *)
Example config_paths_not_inside :
  map (fun p => fullPath (js "/var/lib/volumes/srv1")
                  {| path := js p; content := [] |})
    ["../.."; "a/../.."; ""; "."; "../"]%string
  = [js "/var/lib/volumes"; js "/var/lib/volumes";
     js "/var/lib/volumes/srv1"; js "/var/lib/volumes/srv1";
     js "/var/lib/volumes/srv1"].
Proof. reflexivity. Qed.

(** The spec's example path does land inside the root. *)
Example config_path_etc_passwd :
  fullPath (js "/var/lib/volumes/srv1")
    {| path := js "../../etc/passwd"; content := [] |}
  = js "/var/lib/volumes/srv1/etc/passwd"
  /\ Path.strictlyInside (js "/var/lib/volumes/srv1")
       (js "/var/lib/volumes/srv1/etc/passwd") = true.
Proof. split; reflexivity. Qed.

Lemma split_no_slash (w : jsstring) :
  ~ In Path.slash w -> split Path.slash w = [w].
Proof.
  induction w as [|c w IH]; intros H; [reflexivity|].
  cbn [split]. destruct (N.eqb_spec c Path.slash) as [->|Hne].
  - exfalso. apply H. now left.
  - rewrite IH; [reflexivity|]. intros Hin. apply H. now right.
Qed.

Lemma split_app_slash (w r : jsstring) :
  ~ In Path.slash w ->
  split Path.slash (w ++ Path.slash :: r) = w :: split Path.slash r.
Proof.
  induction w as [|c w IH]; intros H.
  - cbn [app split]. now rewrite N.eqb_refl.
  - cbn [app split]. destruct (N.eqb_spec c Path.slash) as [->|Hne].
    + exfalso. apply H. now left.
    + rewrite IH; [reflexivity|]. intros Hin. apply H. now right.
Qed.

Lemma split_join (segs : list jsstring) :
  segs <> [] -> Forall cleanSegment segs ->
  split Path.slash (Path.joinSegments segs) = segs.
Proof.
  induction segs as [|seg segs IH]; intros Hne Hall; [congruence|].
  inversion Hall as [|? ? (_ & Hns & _) Hrest]; subst.
  destruct segs as [|seg' segs].
  - cbn [Path.joinSegments]. now apply split_no_slash.
  - change (Path.joinSegments (seg :: seg' :: segs))
      with (seg ++ Path.slash :: Path.joinSegments (seg' :: segs)).
    rewrite split_app_slash by assumption. f_equal.
    apply IH; [discriminate|assumption].
Qed.

Lemma cleanSegment_tests (seg : jsstring) :
  cleanSegment seg ->
  jseqb seg [] = false /\ jseqb seg [Path.dot] = false
  /\ Path.isDotDot seg = false.
Proof.
  intros (H1 & _ & H2 & H3). unfold Path.isDotDot.
  repeat split; now apply jseqb_neq.
Qed.

Lemma normalizeSegments_clean (a : bool) (segs : list jsstring) :
  Forall cleanSegment segs ->
  forall res, Path.normalizeSegments a res segs = rev res ++ segs.
Proof.
  induction segs as [|seg segs IH]; intros Hall res.
  - cbn. now rewrite app_nil_r.
  - inversion Hall as [|? ? Hc Hrest]; subst.
    destruct (cleanSegment_tests seg Hc) as (E1 & E2 & E3).
    cbn [Path.normalizeSegments]. rewrite E1, E2, E3. cbn [orb].
    rewrite IH by assumption. cbn [rev]. now rewrite <- app_assoc.
Qed.

Lemma joinSegments_app (a b : list jsstring) :
  a <> [] -> b <> [] ->
  Path.joinSegments (a ++ b)
  = Path.joinSegments a ++ Path.slash :: Path.joinSegments b.
Proof.
  induction a as [|x a IH]; intros Ha Hb; [congruence|].
  destruct a as [|y a].
  - cbn [app]. destruct b; [congruence|reflexivity].
  - change (Path.joinSegments ((x :: y :: a) ++ b))
      with (x ++ Path.slash :: Path.joinSegments ((y :: a) ++ b)).
    rewrite IH by (assumption || discriminate).
    change (Path.joinSegments (x :: y :: a))
      with (x ++ Path.slash :: Path.joinSegments (y :: a)).
    now rewrite <- app_assoc.
Qed.

Lemma joinSegments_last (segs : list jsstring) :
  segs <> [] -> Forall cleanSegment segs ->
  exists w c, Path.joinSegments segs = w ++ [c] /\ c <> Path.slash.
Proof.
  induction segs as [|seg segs IH]; intros Hne Hall; [congruence|].
  inversion Hall as [|? ? (Hn & Hns & _) Hrest]; subst.
  destruct segs as [|seg' segs].
  - cbn [Path.joinSegments].
    destruct (exists_last Hn) as (w & c & ->). exists w, c.
    split; [reflexivity|].
    intros ->. apply Hns. apply in_or_app. right. now left.
  - destruct IH as (w & c & Hw & Hc); [discriminate|assumption|].
    change (Path.joinSegments (seg :: seg' :: segs))
      with (seg ++ Path.slash :: Path.joinSegments (seg' :: segs)).
    rewrite Hw. exists (seg ++ Path.slash :: w), c. split; [|assumption].
    now rewrite <- app_assoc.
Qed.

(** [normalize] leaves an absolute path of clean segments as it is. *)
Lemma normalize_clean (segs : list jsstring) :
  segs <> [] -> Forall cleanSegment segs ->
  Path.normalize (Path.slash :: Path.joinSegments segs)
  = Path.slash :: Path.joinSegments segs.
Proof.
  intros Hne Hall. unfold Path.normalize.
  change (N.eqb Path.slash Path.slash) with true. cbn [negb].
  unfold Path.normalizeString. cbn [split]. rewrite N.eqb_refl.
  rewrite split_join by assumption.
  cbn [Path.normalizeSegments jseqb orb].
  rewrite normalizeSegments_clean by assumption. cbn [rev app].
  destruct (joinSegments_last segs Hne Hall) as (w & c & Hw & Hc).
  assert (Hend : Path.endsWithSlash (Path.slash :: Path.joinSegments segs)
                 = false).
  { unfold Path.endsWithSlash. rewrite Hw.
    change (Path.slash :: w ++ [c]) with ((Path.slash :: w) ++ [c]).
    rewrite rev_app_distr. cbn. now apply N.eqb_neq. }
  rewrite Hend. rewrite Hw. destruct w; reflexivity.
Qed.

(** A relative path of clean segments is written strictly inside the
    volume root. *)
Theorem clean_path_inside_root (root : jsstring) (rootSegs rel : list jsstring)
    (file : ConfigFile) :
  cleanRoot root rootSegs ->
  rel <> [] -> Forall cleanSegment rel ->
  safePath file = Path.joinSegments rel ->
  fullPath root file = root ++ Path.slash :: Path.joinSegments rel
  /\ Path.strictlyInside root (fullPath root file) = true.
Proof.
  intros (Hrn & Hrc & ->) Hne Hall Hsafe.
  assert (Hfull : fullPath (Path.slash :: Path.joinSegments rootSegs) file
                  = (Path.slash :: Path.joinSegments rootSegs)
                    ++ Path.slash :: Path.joinSegments rel).
  { unfold fullPath, Path.join. rewrite Hsafe.
    destruct (joinSegments_last rel Hne Hall) as (w & c & Hw & _).
    destruct (Path.joinSegments rel) as [|x r] eqn:Hj;
      [destruct w; discriminate|].
    rewrite <- Hj.
    change ((Path.slash :: Path.joinSegments rootSegs)
            ++ Path.slash :: Path.joinSegments rel)
      with (Path.slash :: (Path.joinSegments rootSegs
                          ++ Path.slash :: Path.joinSegments rel)).
    rewrite <- joinSegments_app by assumption.
    apply normalize_clean.
    - destruct rootSegs; [congruence|discriminate].
    - apply Forall_app. now split. }
  split; [exact Hfull|]. rewrite Hfull. unfold Path.strictlyInside.
  apply andb_true_iff. split.
  - change (Path.slash :: Path.joinSegments rel)
      with ([Path.slash] ++ Path.joinSegments rel).
    rewrite app_assoc. apply startsWith_app.
  - apply Nat.ltb_lt. rewrite !length_app. cbn [length].
    destruct (joinSegments_last rel Hne Hall) as (w & c & -> & _).
    rewrite length_app. cbn [length]. lia.
Qed.

Lemma clean_path_inside_root_witness :
  fullPath (js "/var/lib/volumes/srv1")
    {| path := js "../../etc/passwd"; content := [] |}
  = js "/var/lib/volumes/srv1"
    ++ Path.slash :: Path.joinSegments [js "etc"; js "passwd"]
  /\ Path.strictlyInside (js "/var/lib/volumes/srv1")
       (fullPath (js "/var/lib/volumes/srv1")
          {| path := js "../../etc/passwd"; content := [] |})
     = true.
Proof.
  apply (clean_path_inside_root (js "/var/lib/volumes/srv1")
           [js "var"; js "lib"; js "volumes"; js "srv1"]
           [js "etc"; js "passwd"]);
    [|discriminate| |reflexivity].
  - split; [discriminate|]. split; [|reflexivity].
    repeat constructor; try discriminate; cbn; intuition discriminate.
  - repeat constructor; try discriminate; cbn; intuition discriminate.
Defined.

Section Removal.

Variable toLowerCase : jsstring -> jsstring.
Variables volumesDirectory cwd : jsstring.

Local Abbreviation installAttempt :=
  (installAttempt toLowerCase volumesDirectory cwd).
Local Abbreviation runInstallation :=
  (runInstallation toLowerCase volumesDirectory cwd).

(** C7, as the code has it.  However the attempt completes, normally or
    by throwing, the run ends by asking the engine to remove the install
    container with [force], and completes as the attempt did.  A rejected
    removal leaves no trace in the log: after [Cleaning up installation
    container] a line is logged only when the removal call itself throws. *)
Theorem install_container_removal
    (serverId : jsstring) (serverConfig : ServerConfig) (env : Env)
    (run0 : Run) :
  let started :=
    snd (logEvent serverId (js "Starting installation process") None
           env run0) in
  let attempt := installAttempt serverId serverConfig env started in
  let removal := Remove (installContainerName serverId) true in
  let final := runInstallation serverId serverConfig env run0 in
  fst final = fst attempt
  /\ history (snd final) = history (snd attempt) ++ [removal]
  /\ logged (snd final) =
       logged (snd attempt)
       ++ ServerEvent serverId (js "Cleaning up installation container") None
          :: match env (history (snd attempt)) removal with
             | ThrewSync e =>
                 [ServerEvent serverId
                    (js "Failed to remove installation container") (Some e)]
             | _ => []
             end
  /\ pushed (snd final) = pushed (snd attempt).
Proof.
  cbn zeta.
  unfold Servers.runInstallation, bind, tryFinally, logEvent, logLine.
  cbn [snd].
  destruct (installAttempt serverId serverConfig env _) as [res run1].
  unfold cleanupInstallContainer, tryCatch, bind, call, logEvent, logLine.
  cbn [history logged pushed fst snd].
  destruct (env (history run1) (Remove (installContainerName serverId) true));
    cbn [ret throw fst snd history logged pushed];
    destruct res; cbn [fst snd history logged pushed];
    rewrite <- ?app_assoc; repeat split.
Qed.

End Removal.

(** C7 as the spec words it fails: on a host whose install container is
    already gone the removal is rejected, the installation completes
    normally, and no line of the log reports the failed removal; the last
    line is the announcement of the clean-up. *)
Lemma removal_failure_not_logged :
  let final :=
    runInstallation asciiLower (js "/var/lib/volumes") (js "/")
      (js "srv1") (sampleConfig "server.properties")
      autoRemovedHost emptyRun in
  last (history (snd final)) (PullImage [])
    = Remove (js "srv1_install") true
  /\ autoRemovedHost (removelast (history (snd final)))
       (Remove (js "srv1_install") true)
     = Rejected (js "(HTTP code 404) no such container - ")
  /\ fst final = Ok tt
  /\ existsb isRemovalFailure (logged (snd final)) = false
  /\ last (logged (snd final)) (ConsoleLog [])
     = ServerEvent (js "srv1") (js "Cleaning up installation container") None.
Proof. vm_compute. repeat split. Qed.

(** The three ways an installation can go; each ends with the forced
    removal of the install container. *)
Example install_succeeds :
  let final :=
    runInstallation asciiLower (js "/var/lib/volumes") (js "/")
      (js "srv1") (sampleConfig "server.properties") obligingHost emptyRun in
  fst final = Ok tt
  /\ last (history (snd final)) (PullImage [])
     = Remove (js "srv1_install") true.
Proof. vm_compute. split; reflexivity. Qed.

Example install_script_fails :
  let final :=
    runInstallation asciiLower (js "/var/lib/volumes") (js "/")
      (js "srv1") (sampleConfig "server.properties")
      failingScriptHost emptyRun in
  fst final
  = Throw (js "Installation failed with exit code 2. Output: no such file"
           ++ newline)
  /\ last (history (snd final)) (PullImage [])
     = Remove (js "srv1_install") true.
Proof. vm_compute. split; reflexivity. Qed.

Example install_pull_fails :
  let final :=
    runInstallation asciiLower (js "/var/lib/volumes") (js "/")
      (js "srv1") (sampleConfig "server.properties") offlineHost emptyRun in
  fst final = Throw (js "Failed to pull Docker image installer:latest")
  /\ history (snd final)
     = [PullImage (js "installer:latest"); PullImage (js "game:latest");
        Remove (js "srv1_install") true].
Proof. vm_compute. split; reflexivity. Qed.

End InstallFacts.

(** ** Console sessions *)

Module SessionFacts.

Import Console Inputs JSFacts.

Section Assoc.
Variable V : Type.

Lemma lookup_assign_same (k : nat) (v : V) (l : list (nat * V)) :
  lookup Nat.eqb k (assign Nat.eqb k v l) = Some v.
Proof.
  induction l as [|[k' v'] l IH]; cbn.
  - now rewrite Nat.eqb_refl.
  - destruct (Nat.eqb k k') eqn:E; cbn; rewrite ?Nat.eqb_refl, ?E; auto.
Qed.

Lemma lookup_assign_other (k k' : nat) (v : V) (l : list (nat * V)) :
  k <> k' -> lookup Nat.eqb k (assign Nat.eqb k' v l) = lookup Nat.eqb k l.
Proof.
  intros Hne. induction l as [|[k'' v''] l IH]; cbn.
  - destruct (Nat.eqb_spec k k'); [contradiction|reflexivity].
  - destruct (Nat.eqb_spec k' k''); cbn.
    + subst. destruct (Nat.eqb_spec k k''); [contradiction|reflexivity].
    + destruct (Nat.eqb k k''); auto.
Qed.
Lemma lookup_app_fresh (k : nat) (v : V) (l : list (nat * V)) :
  lookup Nat.eqb k l = None -> lookup Nat.eqb k (l ++ [(k, v)]) = Some v.
Proof.
  induction l as [|[j w] l IH]; cbn.
  - now rewrite Nat.eqb_refl.
  - destruct (Nat.eqb k j); [discriminate|assumption].
Qed.

Lemma lookup_app_none (i j : nat) (v : V) (l : list (nat * V)) :
  i <> j -> lookup Nat.eqb i l = None ->
  lookup Nat.eqb i (l ++ [(j, v)]) = None.
Proof.
  intros Hne. induction l as [|[k w] l IH]; cbn.
  - destruct (Nat.eqb_spec i j); [contradiction|reflexivity].
  - destruct (Nat.eqb i k); [discriminate|assumption].
Qed.

Lemma lookup_app_some (i : nat) (v : V) (l l' : list (nat * V)) :
  lookup Nat.eqb i l = Some v -> lookup Nat.eqb i (l ++ l') = Some v.
Proof.
  induction l as [|[k w] l IH]; cbn; [discriminate|].
  destruct (Nat.eqb i k); auto.
Qed.

Lemma lookup_app_new (k k0 : nat) (v v0 : V) (l : list (nat * V)) :
  lookup Nat.eqb k (l ++ [(k0, v0)]) = Some v ->
  lookup Nat.eqb k l = Some v \/ v = v0.
Proof.
  induction l as [|[j w] l IH]; cbn.
  - destruct (Nat.eqb k k0); [|discriminate]. intros H; inversion H; auto.
  - destruct (Nat.eqb k j); auto.
Qed.

Lemma lookup_remove_none (i j : nat) (l : list (nat * V)) :
  lookup Nat.eqb i l = None ->
  lookup Nat.eqb i (remove Nat.eqb j l) = None.
Proof.
  induction l as [|[k w] l IH]; cbn; [auto|].
  destruct (Nat.eqb i k) eqn:E; [discriminate|]. intros H.
  destruct (Nat.eqb j k); cbn; rewrite ?E; auto.
Qed.

Lemma lookup_remove_same (i : nat) (l : list (nat * V)) :
  lookup Nat.eqb i (remove Nat.eqb i l) = None.
Proof.
  induction l as [|[k w] l IH]; cbn; [auto|].
  destruct (Nat.eqb i k) eqn:E; cbn; rewrite ?E; auto.
Qed.

Lemma lookup_remove_other (a b : nat) (l : list (nat * V)) :
  a <> b -> lookup Nat.eqb a (remove Nat.eqb b l) = lookup Nat.eqb a l.
Proof.
  intros Hne. induction l as [|[k w] l IH]; cbn; [reflexivity|].
  destruct (Nat.eqb_spec b k) as [->|Hbk].
  - destruct (Nat.eqb_spec a k); [contradiction|assumption].
  - cbn. destruct (Nat.eqb a k); auto.
Qed.

Lemma lookup_assign_key (k : jsstring) (v : V) (l : list (jsstring * V)) :
  lookup jseqb k (assign jseqb k v l) = Some v.
Proof.
  induction l as [|[k' v'] l IH]; cbn.
  - now rewrite jseqb_refl.
  - destruct (jseqb k k') eqn:E; cbn; rewrite ?jseqb_refl, ?E; auto.
Qed.

Lemma lookup_assign_key_other (k k' : jsstring) (v : V)
    (l : list (jsstring * V)) :
  k <> k' -> lookup jseqb k (assign jseqb k' v l) = lookup jseqb k l.
Proof.
  intros Hne. apply jseqb_neq in Hne.
  induction l as [|[k'' v''] l IH]; cbn.
  - now rewrite Hne.
  - destruct (jseqb k' k'') eqn:E; cbn.
    + apply jseqb_eq in E. subst k''. now rewrite Hne.
    + destruct (jseqb k k''); auto.
Qed.

End Assoc.

Section Reports.
Variable chalk : Chalk.

Lemma send_frame (k : nat) (ev : OutboundEvent) (m : Manager) :
  sessionObjects (send k ev m) = sessionObjects m
  /\ sessions (send k ev m) = sessions m
  /\ pending (send k ev m) = pending m
  /\ intervals (send k ev m) = intervals m
  /\ logBuffers (send k ev m) = logBuffers m.
Proof.
  unfold send. destruct (lookup Nat.eqb k (sockets m)) as [s|]; [|auto].
  destruct (isOpen s); auto.
Qed.

Lemma send_delivered_other (sock k : nat) (ev : OutboundEvent) (m : Manager) :
  sock <> k ->
  lookup Nat.eqb sock (sockets (send k ev m))
  = lookup Nat.eqb sock (sockets m).
Proof.
  intros Hne. unfold send.
  destruct (lookup Nat.eqb k (sockets m)) as [s|]; [|auto].
  destruct (isOpen s); [|auto]. cbn. now apply lookup_assign_other.
Qed.

Lemma send_attached (sock k : nat) (session : ConsoleSession)
    (ev : OutboundEvent) (m : Manager) :
  Attached sock session m -> Attached sock session (send k ev m).
Proof.
  intros ((s & Hs & Hopen & Hl) & Ho & Ha & Hc).
  destruct (send_frame k ev m) as (E1 & E2 & _).
  unfold Attached. rewrite E1, E2. repeat split; try assumption.
  destruct (Nat.eq_dec sock k) as [<-|Hne].
  - unfold send. rewrite Hs. unfold isOpen. rewrite Hopen. cbn.
    rewrite lookup_assign_same. eexists. repeat split; cbn; assumption.
  - rewrite send_delivered_other by assumption. now exists s.
Qed.

Lemma send_delivered_self (sock : nat) (session : ConsoleSession)
    (ev : OutboundEvent) (m : Manager) :
  Attached sock session m ->
  deliveredTo sock (send sock ev m) = deliveredTo sock m ++ [ev].
Proof.
  intros ((s & Hs & Hopen & Hl) & _).
  unfold deliveredTo, send. rewrite Hs. unfold isOpen. rewrite Hopen. cbn.
  now rewrite lookup_assign_same.
Qed.

Lemma deliveredTo_send_other (sock k : nat) (ev : OutboundEvent) (m : Manager) :
  sock <> k -> deliveredTo sock (send k ev m) = deliveredTo sock m.
Proof.
  intros Hne. unfold deliveredTo. now rewrite send_delivered_other.
Qed.

Lemma relay_frame (id line : jsstring) (acc : Manager) (k : nat) :
  sessionObjects (relay id line acc k) = sessionObjects acc
  /\ sessions (relay id line acc k) = sessions acc
  /\ pending (relay id line acc k) = pending acc
  /\ intervals (relay id line acc k) = intervals acc
  /\ logBuffers (relay id line acc k) = logBuffers acc.
Proof.
  unfold relay.
  destruct (lookup Nat.eqb k (sessionObjects acc)) as [s|]; [|auto].
  destruct (jseqb (internalId s) id && authenticated s);
    [apply send_frame|auto].
Qed.

Lemma relay_attached (id line : jsstring) (sock k : nat)
    (session : ConsoleSession) (acc : Manager) :
  Attached sock session acc -> Attached sock session (relay id line acc k).
Proof.
  intros H. unfold relay.
  destruct (lookup Nat.eqb k (sessionObjects acc)) as [s|]; [|assumption].
  destruct (jseqb (internalId s) id && authenticated s); [|assumption].
  now apply send_attached.
Qed.

Lemma relay_delivered (line : jsstring) (sock k : nat)
    (session : ConsoleSession) (acc : Manager) :
  Attached sock session acc ->
  deliveredTo sock (relay (internalId session) line acc k)
  = deliveredTo sock acc
    ++ (if Nat.eq_dec k sock then [console_output line] else []).
Proof.
  intros H. unfold relay. destruct (Nat.eq_dec k sock) as [->|Hne].
  - destruct H as (Hs & Ho & Ha & Hc). rewrite Ho, jseqb_refl, Ha. cbn [andb].
    apply send_delivered_self with (session := session).
    repeat split; assumption.
  - rewrite app_nil_r.
    destruct (lookup Nat.eqb k (sessionObjects acc)) as [s|]; [|reflexivity].
    destruct (jseqb (internalId s) (internalId session) && authenticated s);
      [|reflexivity].
    apply deliveredTo_send_other. congruence.
Qed.

Lemma relay_fold (line : jsstring) (sock : nat) (session : ConsoleSession)
    (l : list nat) :
  forall acc, Attached sock session acc ->
  let acc' := fold_left (relay (internalId session) line) l acc in
  Attached sock session acc'
  /\ deliveredTo sock acc'
     = deliveredTo sock acc
       ++ repeat (console_output line) (count_occ Nat.eq_dec l sock)
  /\ pending acc' = pending acc /\ logBuffers acc' = logBuffers acc.
Proof.
  induction l as [|k l IH]; intros acc H; cbn zeta.
  - cbn. rewrite app_nil_r. auto.
  - cbn [fold_left].
    pose proof (relay_attached (internalId session) line sock k session
                  acc H) as H1.
    destruct (IH _ H1) as (A & D & P & B). cbn zeta in *.
    destruct (relay_frame (internalId session) line acc k)
      as (_ & _ & P1 & _ & B1).
    split; [assumption|]. split; [|split; congruence].
    rewrite D, (relay_delivered line sock k session acc H). cbn [count_occ].
    destruct (Nat.eq_dec k sock); cbn [repeat]; rewrite <- app_assoc;
      reflexivity.
Qed.

Lemma broadcast_unfold (id log : jsstring) (type : LogType) (m : Manager) :
  broadcastToServer chalk id log type m
  = fold_left (relay id (formatLogMessage chalk type log))
      (sessions m) (addLogToBuffer id (formatLogMessage chalk type log) m).
Proof. reflexivity. Qed.

(** A broadcast for the server of an attached session reaches it once. *)
Lemma broadcast_attached (log : jsstring) (type : LogType) (sock : nat)
    (session : ConsoleSession) (m : Manager) :
  Attached sock session m ->
  let m' := broadcastToServer chalk (internalId session) log type m in
  Attached sock session m'
  /\ deliveredTo sock m'
     = deliveredTo sock m ++ [console_output (formatLogMessage chalk type log)]
  /\ pending m' = pending m.
Proof.
  intros H. cbn zeta. rewrite broadcast_unfold.
  set (line := formatLogMessage chalk type log).
  assert (H1 : Attached sock session
                 (addLogToBuffer (internalId session) line m))
    by exact H.
  destruct (relay_fold line sock session (sessions m) _ H1) as (A & D & P & _).
  cbn zeta in *. split; [assumption|]. split; [|exact P].
  rewrite D. destruct H as (_ & _ & _ & Hc). rewrite Hc. reflexivity.
Qed.

Lemma takePending_last (A : Type) (pick : Pending -> option A)
    (l : list Pending) (x : Pending) (a : A) :
  (forall p, In p l -> pick p = None) -> pick x = Some a ->
  takePending pick (l ++ [x]) = Some (a, l).
Proof.
  intros Hl Hx. induction l as [|p l IH]; cbn.
  - now rewrite Hx.
  - rewrite (Hl p (or_introl eq_refl)), IH; [reflexivity|].
    intros q Hq. apply Hl. now right.
Qed.

Lemma consoleError_attached (sock : nat) (session : ConsoleSession)
    (line : jsstring) (m : Manager) :
  Attached sock session m -> Attached sock session (consoleError m line).
Proof. intros H; exact H. Qed.

Lemma deliveredTo_setPending (sock : nat) (l : list Pending) (m : Manager) :
  deliveredTo sock (setPending m l) = deliveredTo sock m.
Proof. reflexivity. Qed.

Lemma deliveredTo_addPending (sock : nat) (p : Pending) (m : Manager) :
  deliveredTo sock (addPending m p) = deliveredTo sock m.
Proof. reflexivity. Qed.

Lemma attachLogs_frame (sock k : nat) (session : ConsoleSession) (m : Manager) :
  Attached sock session m ->
  Attached sock session (attachLogs k m)
  /\ deliveredTo sock (attachLogs k m) = deliveredTo sock m
  /\ (exists extra, pending (attachLogs k m) = pending m ++ extra
                    /\ forall p, In p extra -> pickPowerInspect sock p = None).
Proof.
  intros H. unfold attachLogs.
  destruct (lookup Nat.eqb k (sessionObjects m)) as [s|].
  - destruct (logStream s); (split; [exact H|]; split; [reflexivity|]);
      exists [AwaitLogs k]; (split; [reflexivity|]);
      intros p [<-|[]]; reflexivity.
  - split; [exact H|]. split; [reflexivity|]. exists []. rewrite app_nil_r.
    split; [reflexivity|]. intros p [].
Qed.

(** The [catch] of [handlePowerAction], for an attached session. *)
Lemma powerFailed_delivered (sock : nat) (session : ConsoleSession)
    (action e : jsstring) (m : Manager) :
  Attached sock session m ->
  deliveredTo sock (powerFailed chalk sock action e m)
  = deliveredTo sock m
    ++ [console_output
          (formatLogMessage chalk ERROR
             (js "Failed to " ++ action ++ js " server: " ++ e));
        error_event e].
Proof.
  intros H. unfold powerFailed.
  destruct H as (Hs & Ho & Ha & Hc). rewrite Ho.
  assert (H : Attached sock session m) by (repeat split; assumption).
  destruct (broadcast_attached
              (js "Failed to " ++ action ++ js " server: " ++ e) ERROR
              sock session m H) as (A & D & _). cbn zeta in *.
  rewrite send_delivered_self with (session := session).
  - change (deliveredTo sock (consoleError ?x _)) with (deliveredTo sock x).
    rewrite D, <- app_assoc. reflexivity.
  - apply consoleError_attached. exact A.
Qed.

Lemma resume_last (A : Type) (pick : Pending -> option A)
    (k : A -> Manager -> Manager) (m : Manager) (l : list Pending)
    (x : Pending) (a : A) :
  pending m = l ++ [x] ->
  (forall p, In p l -> pick p = None) -> pick x = Some a ->
  resume pick k m = k a (setPending m l).
Proof.
  intros Hp Hl Hx. unfold resume.
  now rewrite Hp, (takePending_last _ _ _ _ a Hl Hx).
Qed.

Lemma pickPower_self (sock : nat) (action : jsstring) :
  pickPower sock (AwaitPower sock action) = Some action.
Proof. cbn. unfold forSocket. now rewrite Nat.eqb_refl. Qed.

Lemma pickPowerInspect_self (sock : nat) (action : jsstring) :
  pickPowerInspect sock (AwaitPowerInspect sock action) = Some action.
Proof. cbn. unfold forSocket. now rewrite Nat.eqb_refl. Qed.

Lemma powerAfterInspect_delivered (sock : nat) (session : ConsoleSession)
    (action : jsstring) (answer : completion ContainerInfo) (m : Manager) :
  Attached sock session m ->
  deliveredTo sock (powerAfterInspect chalk sock action answer m)
  = deliveredTo sock m ++ powerReport chalk action answer.
Proof.
  intros H. destruct answer as [info|e]; cbn [powerAfterInspect powerReport].
  - now apply send_delivered_self with (session := session).
  - now apply powerFailed_delivered with (session := session).
Qed.

Theorem power_action_report (E : Engine) (w : world E) (sock : nat)
    (session : ConsoleSession) (action : jsstring) (m : Manager) :
  Attached sock session m -> noPowerPending sock m ->
  deliveredTo sock
    (run chalk m (powerActionEvents E w sock (container session) action))
  = deliveredTo sock m
    ++ console_output
         (formatLogMessage chalk DAEMON
            (js "Performing a " ++ action ++ js " action on server..."))
       :: (if isEngineAction action then
             match act E action (container session) w with
             | (Ok _, w') =>
                 powerReport chalk action (inspect E (container session) w')
             | (Throw e, _) => powerReport chalk action (Throw e)
             end
           else powerReport chalk action (inspect E (container session) w)).
Proof.
  intros H Hp.
  destruct (broadcast_attached
              (js "Performing a " ++ action ++ js " action on server...")
              DAEMON sock session m H) as (A1 & D1 & P1). cbn zeta in *.
  remember (broadcastToServer chalk (internalId session)
              (js "Performing a " ++ action ++ js " action on server...")
              DAEMON m) as m1 eqn:Em1.
  assert (Hmsg :
             onPowerActionMessage chalk sock action m
             = addPending m1 (if isEngineAction action
                              then AwaitPower sock action
                              else AwaitPowerInspect sock action)).
  { unfold onPowerActionMessage, handlePowerAction.
    destruct H as ((s & Hs & Hopen & Hl) & Ho & _).
    rewrite Hs. unfold isOpen. rewrite Hopen, Hl, Ho. cbn [andb].
    rewrite <- Em1. destruct (isEngineAction action); reflexivity. }
  unfold powerActionEvents.
  destruct (isEngineAction action) eqn:Hact.
  - destruct (act E action (container session) w) as [[u|e] w'];
      unfold run; cbn [fold_left step]; rewrite Hmsg.
    + rewrite (resume_last _ (pickPower sock) _ _ (pending m)
                 (AwaitPower sock action) action);
        [|unfold addPending; cbn [pending setPending]; now rewrite P1
         | intros p Hin; now apply Hp
         | apply pickPower_self].
      cbn [powerAfterAction].
      remember (setPending (addPending m1 (AwaitPower sock action))
                  (pending m)) as m2 eqn:Em2.
      assert (A2 : Attached sock session m2) by (subst m2; exact A1).
      assert (D2 : deliveredTo sock m2 = deliveredTo sock m1)
        by (subst m2; reflexivity).
      assert (P2 : pending m2 = pending m) by (subst m2; reflexivity).
      remember (if jseqb action (js "start") || jseqb action (js "restart")
                then attachLogs sock m2 else m2) as m3 eqn:Em3.
      assert (H3 : Attached sock session m3
                   /\ deliveredTo sock m3 = deliveredTo sock m1
                   /\ exists extra,
                        pending m3 = pending m ++ extra
                        /\ forall p, In p extra ->
                                     pickPowerInspect sock p = None).
      { rewrite Em3.
        destruct (jseqb action (js "start") || jseqb action (js "restart")).
        - destruct (attachLogs_frame sock sock session m2 A2) as (X & Y & Z).
          split; [exact X|]. split; [congruence|]. now rewrite <- P2.
        - split; [exact A2|]. split; [exact D2|]. exists [].
          rewrite app_nil_r. split; [exact P2|]. intros p []. }
      destruct H3 as (A3 & D3 & extra & P3 & Hextra).
      rewrite (resume_last _ (pickPowerInspect sock) _ _ (pending m ++ extra)
                 (AwaitPowerInspect sock action) action);
        [|unfold addPending; cbn [pending setPending]; now rewrite P3
         | intros p Hin; apply in_app_or in Hin as [Hin|Hin];
           [now apply Hp|now apply Hextra]
         | apply pickPowerInspect_self].
      rewrite powerAfterInspect_delivered with (session := session);
        [|exact A3].
      rewrite deliveredTo_setPending, deliveredTo_addPending.
      rewrite D3, D1, <- app_assoc. reflexivity.
    + rewrite (resume_last _ (pickPower sock) _ _ (pending m)
                 (AwaitPower sock action) action);
        [|unfold addPending; cbn [pending setPending]; now rewrite P1
         | intros p Hin; now apply Hp
         | apply pickPower_self].
      cbn [powerAfterAction powerReport].
      rewrite powerFailed_delivered with (session := session); [|exact A1].
      rewrite deliveredTo_setPending, deliveredTo_addPending.
      rewrite D1, <- app_assoc. reflexivity.
  - unfold run; cbn [fold_left step]; rewrite Hmsg.
    rewrite (resume_last _ (pickPowerInspect sock) _ _ (pending m)
               (AwaitPowerInspect sock action) action);
      [|unfold addPending; cbn [pending setPending]; now rewrite P1
       | intros p Hin; now apply Hp
       | apply pickPowerInspect_self].
    rewrite powerAfterInspect_delivered with (session := session); [|exact A1].
    rewrite deliveredTo_setPending, deliveredTo_addPending.
    rewrite D1, <- app_assoc. reflexivity.
Qed.

End Reports.

Section Frames.

Variable chalk : Chalk.

Lemma relay_fold_buffers (id line : jsstring) (l : list nat) :
  forall acc,
    logBuffers (fold_left (relay id line) l acc) = logBuffers acc.
Proof.
  induction l as [|k l IH]; intros acc; [reflexivity|].
  cbn [fold_left]. rewrite IH.
  now destruct (relay_frame id line acc k) as (_ & _ & _ & _ & ->).
Qed.

(** A broadcast appends its line to the buffer of the server, and drops
    the oldest line once there are more than [MAX_LOGS]. *)
Lemma broadcast_buffer (id log : jsstring) (type : LogType) (m : Manager) :
  bufferOf id (broadcastToServer chalk id log type m)
  = pushCapped (bufferOf id m) (formatLogMessage chalk type log).
Proof.
  unfold bufferOf at 1. rewrite broadcast_unfold, relay_fold_buffers.
  unfold addLogToBuffer. cbn [logBuffers setLogBuffers].
  now rewrite lookup_assign_key.
Qed.

(** C5.  The frame [01 00 00 00 00 00 00 05 "hello"] decodes to one line,
    [hello], of primary origin; the listener broadcasts exactly that line:
    it is appended once to the buffer of the server and sent once to an
    attached session.  A frame whose length field is zero, or whose
    payload trims to the empty string, decodes to no line, and the
    listener leaves the manager as it was: nothing is buffered and nothing
    is sent. *)
Theorem log_frame_decoding (session : ConsoleSession) (m : Manager)
    (sock : nat) (chunk : Buffer.buffer) (logType contentLength : N) :
  (decodeLogChunk helloChunk = Ok (Some (INFO, js "hello"))
   /\ onLogData chalk session helloChunk m =
        broadcastToServer chalk (internalId session) (js "hello") INFO m
   /\ bufferOf (internalId session) (onLogData chalk session helloChunk m)
      = pushCapped (bufferOf (internalId session) m)
          (formatLogMessage chalk INFO (js "hello"))
   /\ (Attached sock session m ->
       deliveredTo sock (onLogData chalk session helloChunk m)
       = deliveredTo sock m
         ++ [console_output (formatLogMessage chalk INFO (js "hello"))]))
  /\ (Buffer.readUInt8 chunk 0 = Ok logType ->
      Buffer.readUInt32BE chunk 4 = Ok contentLength ->
      contentLength = 0%N
      \/ trim (Buffer.toString
                 (Buffer.bufSlice chunk 8 (8 + N.to_nat contentLength))) = [] ->
      decodeLogChunk chunk = Ok None
      /\ onLogData chalk session chunk m = m).
Proof.
  assert (Hhello : onLogData chalk session helloChunk m =
            broadcastToServer chalk (internalId session) (js "hello") INFO m)
    by reflexivity.
  split; [split; [reflexivity|]; split; [exact Hhello|]; split|].
  - rewrite Hhello. apply broadcast_buffer.
  - intros H. rewrite Hhello.
    now destruct (broadcast_attached chalk (js "hello") INFO sock session m H)
      as (_ & D & _).
  - intros H8 H32 Hempty.
    pose proof (@DecoderFacts.decode_blank chunk logType contentLength
                  H8 H32 Hempty) as Hdec.
    split; [exact Hdec|]. unfold onLogData. now rewrite Hdec.
Qed.

End Frames.

Lemma log_frame_decoding_witness :
  deliveredTo 1
    (onLogData plainChalk (sampleSession 1) helloChunk
       (run plainChalk emptyManager (attachEvents 1 "running")))
  = [auth_success [] (js "running"); console_output (js "hello")]
  /\ (decodeLogChunk emptyChunk = Ok None
      /\ onLogData plainChalk (sampleSession 1) emptyChunk emptyManager
         = emptyManager)
  /\ (decodeLogChunk blankChunk = Ok None
      /\ onLogData plainChalk (sampleSession 1) blankChunk emptyManager
         = emptyManager).
Proof.
  assert (HA : Attached 1 (sampleSession 1)
                 (run plainChalk emptyManager (attachEvents 1 "running"))).
  { split; [eexists; split; [vm_compute; reflexivity
                            |split; vm_compute; reflexivity]|].
    split; [vm_compute; reflexivity|]. split; vm_compute; reflexivity. }
  split; [|split].
  - destruct (log_frame_decoding plainChalk (sampleSession 1)
                (run plainChalk emptyManager (attachEvents 1 "running"))
                1 emptyChunk 1 0) as [(_ & _ & _ & Hsent) _].
    exact (Hsent HA).
  - apply (log_frame_decoding plainChalk (sampleSession 1) emptyManager
             1 emptyChunk 1 0);
      [reflexivity|reflexivity|left; reflexivity].
  - apply (log_frame_decoding plainChalk (sampleSession 1) emptyManager
             1 blankChunk 2 3);
      [reflexivity|reflexivity|right; reflexivity].
Defined.

(** *** The broadcast model *)

Section Broadcast.

Variable chalk : Chalk.

Lemma openAt_send (sock k : nat) (ev : OutboundEvent) (m : Manager) :
  openAt sock (send k ev m) = openAt sock m.
Proof.
  unfold openAt, send.
  destruct (lookup Nat.eqb k (sockets m)) as [s|] eqn:Hk; [|reflexivity].
  destruct (isOpen s) eqn:Ho; [|reflexivity]. cbn [sockets setSockets].
  destruct (Nat.eq_dec sock k) as [->|Hne].
  - rewrite lookup_assign_same, Hk. reflexivity.
  - now rewrite lookup_assign_other.
Qed.

Lemma deliveredTo_send (sock k : nat) (ev : OutboundEvent) (m : Manager) :
  deliveredTo sock (send k ev m)
  = deliveredTo sock m
    ++ (if Nat.eqb k sock && openAt sock m then [ev] else []).
Proof.
  destruct (Nat.eqb_spec k sock) as [->|Hne]; cbn [andb].
  - unfold deliveredTo, openAt, send.
    destruct (lookup Nat.eqb sock (sockets m)) as [s|] eqn:Hs;
      [|now rewrite Hs].
    destruct (isOpen s); [|now rewrite Hs, app_nil_r].
    cbn [sockets setSockets]. now rewrite lookup_assign_same.
  - rewrite app_nil_r. apply deliveredTo_send_other. congruence.
Qed.

Lemma listening_relay (id id' line : jsstring) (sock k : nat) (m : Manager) :
  listening id' sock (relay id line m k) = listening id' sock m.
Proof.
  unfold listening.
  destruct (relay_frame id line m k) as (-> & _).
  f_equal. unfold relay.
  destruct (lookup Nat.eqb k (sessionObjects m)) as [s|]; [|reflexivity].
  destruct (jseqb (internalId s) id && authenticated s);
    [apply openAt_send|reflexivity].
Qed.

Lemma relay_delivered_any (id line : jsstring) (sock k : nat) (m : Manager) :
  deliveredTo sock (relay id line m k)
  = deliveredTo sock m
    ++ (if Nat.eqb k sock && listening id sock m
        then [console_output line] else []).
Proof.
  unfold relay, listening.
  destruct (Nat.eqb_spec k sock) as [->|Hne]; cbn [andb].
  - destruct (lookup Nat.eqb sock (sessionObjects m)) as [s|];
      [|now rewrite app_nil_r].
    destruct (jseqb (internalId s) id && authenticated s);
      [|now rewrite app_nil_r].
    rewrite deliveredTo_send, Nat.eqb_refl. reflexivity.
  - rewrite app_nil_r.
    destruct (lookup Nat.eqb k (sessionObjects m)) as [s|]; [|reflexivity].
    destruct (jseqb (internalId s) id && authenticated s); [|reflexivity].
    apply deliveredTo_send_other. congruence.
Qed.

Lemma relay_fold_delivered (id line : jsstring) (sock : nat) (l : list nat) :
  forall m,
    deliveredTo sock (fold_left (relay id line) l m)
    = deliveredTo sock m
      ++ (if listening id sock m
          then repeat (console_output line) (count_occ Nat.eq_dec l sock)
          else []).
Proof.
  induction l as [|k l IH]; intros m.
  - cbn. destruct (listening id sock m); now rewrite app_nil_r.
  - cbn [fold_left count_occ].
    rewrite IH, relay_delivered_any, listening_relay, <- app_assoc.
    f_equal. destruct (listening id sock m); [|now rewrite andb_false_r].
    rewrite andb_true_r.
    destruct (Nat.eq_dec k sock) as [->|Hne].
    + now rewrite Nat.eqb_refl.
    + destruct (Nat.eqb_spec k sock); [contradiction|reflexivity].
Qed.

(** The broadcast model.  A broadcast for the server [id] appends the
    formatted line to the buffer of that server and to no other buffer,
    and sends it to the open sockets whose session is an authenticated
    session of that server, once for each entry the socket has in the
    sessions map; nothing is sent to any other socket. *)
Theorem broadcast_reaches_listeners (id log : jsstring) (type : LogType)
    (m : Manager) (sock : nat) :
  let line := formatLogMessage chalk type log in
  let m' := broadcastToServer chalk id log type m in
  bufferOf id m' = pushCapped (bufferOf id m) line
  /\ (forall id', id' <> id -> bufferOf id' m' = bufferOf id' m)
  /\ deliveredTo sock m'
     = deliveredTo sock m
       ++ (if listening id sock m
           then repeat (console_output line)
                  (count_occ Nat.eq_dec (sessions m) sock)
           else []).
Proof.
  cbn zeta. split; [apply broadcast_buffer|]. split.
  - intros id' Hne. unfold bufferOf at 1.
    rewrite broadcast_unfold, relay_fold_buffers.
    unfold addLogToBuffer. cbn [logBuffers setLogBuffers].
    now rewrite lookup_assign_key_other.
  - rewrite broadcast_unfold, relay_fold_delivered. reflexivity.
Qed.

End Broadcast.

(** *** Connections that are refused *)

Section Refusal.

Variable chalk : Chalk.

Lemma close_new_socket (sock : nat) (code : N) (reason : jsstring)
    (m : Manager) :
  lookup Nat.eqb sock (sockets m) = Some newSocket ->
  lookup Nat.eqb sock (sockets (close sock code reason m))
  = Some (refused code reason).
Proof.
  intros H. unfold close. rewrite H. cbn [isOpen newSocket readyState].
  cbn [sockets setSockets]. now rewrite lookup_assign_same.
Qed.

(** A connection without a server id or without a token is closed at once
    with code 1008: no call is started for it and no session is
    registered. *)
Theorem connection_without_parameters_closed (m : Manager) (sock : nat)
    (server token : option jsstring) :
  lookup Nat.eqb sock (sockets m) = None ->
  server = None \/ server = Some [] \/ token = None \/ token = Some [] ->
  let m' := step chalk m (Connection sock server token) in
  lookup Nat.eqb sock (sockets m')
  = Some (refused 1008 (js "Missing server ID or token"))
  /\ pending m' = pending m
  /\ sessions m' = sessions m
  /\ intervals m' = intervals m.
Proof.
  intros Hnew Hmissing. cbn zeta. cbn [step]. unfold onConnection.
  rewrite Hnew.
  assert (Hclose :
            match server, token with
            | Some (c :: queryServer), Some (_ :: _) =>
                addPending
                  (setSockets m (sockets m ++ [(sock, newSocket)]))
                  (AwaitValidate sock (c :: queryServer))
            | _, _ =>
                close sock 1008 (js "Missing server ID or token")
                  (setSockets m (sockets m ++ [(sock, newSocket)]))
            end
            = close sock 1008 (js "Missing server ID or token")
                (setSockets m (sockets m ++ [(sock, newSocket)]))).
  { destruct Hmissing as [-> | [-> | [-> | ->]]]; try reflexivity;
      destruct server as [[|c q]|]; reflexivity. }
  rewrite Hclose. split.
  - apply close_new_socket. cbn [sockets setSockets].
    now apply lookup_app_fresh.
  - unfold close. cbn [sockets setSockets].
    rewrite (lookup_app_fresh _ _ _ _ Hnew). repeat split.
Qed.

Lemma takePending_app_some (A : Type) (pick : Pending -> option A)
    (l : list Pending) (x : Pending) (a : A) :
  pick x = Some a ->
  exists b rest, takePending pick (l ++ [x]) = Some (b, rest).
Proof.
  intros Hx. induction l as [|p l IH]; cbn.
  - rewrite Hx. eauto.
  - destruct (pick p) as [b|]; [eauto|].
    destruct IH as (b & rest & ->). eauto.
Qed.

(** A connection whose token the panel does not validate is closed with
    code 1008 once the panel has answered: nothing is sent to it and no
    session is registered. *)
Theorem denied_connection_closed (m : Manager) (sock : nat)
    (server token : jsstring) (response : option ValidateResponse) :
  lookup Nat.eqb sock (sockets m) = None ->
  server <> [] -> token <> [] ->
  match response with
  | Some validation => validated validation = false
  | None => True
  end ->
  let m' :=
    run chalk m
      [Connection sock (Some server) (Some token);
       ValidateReturned sock response] in
  lookup Nat.eqb sock (sockets m')
  = Some (refused 1008 (js "Invalid token or access denied"))
  /\ sessions m' = sessions m
  /\ intervals m' = intervals m.
Proof.
  intros Hnew Hs Ht Hdenied. cbn zeta. unfold run. cbn [fold_left step].
  unfold onConnection. rewrite Hnew.
  destruct server as [|c q]; [congruence|].
  destruct token as [|d t]; [congruence|].
  unfold resume, addPending. cbn [pending setPending setSockets].
  destruct (takePending_app_some _ (pickValidate sock) (pending m)
              (AwaitValidate sock (c :: q)) (c :: q)) as (b & rest & ->).
  { cbn. unfold forSocket. now rewrite Nat.eqb_refl. }
  assert (Hafter : forall m0,
             afterValidate sock response m0
             = close sock 1008 (js "Invalid token or access denied") m0).
  { intros m0. unfold afterValidate.
    destruct response as [v|]; [now rewrite Hdenied|reflexivity]. }
  rewrite Hafter. split.
  - apply close_new_socket. cbn [sockets setSockets setPending].
    now apply lookup_app_fresh.
  - unfold close. cbn [sockets setSockets setPending].
    rewrite (lookup_app_fresh _ _ _ _ Hnew). split; reflexivity.
Qed.

End Refusal.

Lemma connection_without_parameters_closed_witness :
  let m' :=
    step plainChalk emptyManager (Connection 1 (Some (js "int-1")) None) in
  lookup Nat.eqb 1 (sockets m')
  = Some (refused 1008 (js "Missing server ID or token"))
  /\ pending m' = [] /\ sessions m' = [] /\ intervals m' = [].
Proof.
  apply (connection_without_parameters_closed plainChalk emptyManager 1
           (Some (js "int-1")) None); [reflexivity|auto].
Defined.

Lemma denied_connection_closed_witness :
  let m' :=
    run plainChalk emptyManager
      [Connection 1 (Some (js "int-1")) (Some (js "secret"));
       ValidateReturned 1 None] in
  lookup Nat.eqb 1 (sockets m')
  = Some (refused 1008 (js "Invalid token or access denied"))
  /\ sessions m' = [] /\ intervals m' = [].
Proof.
  apply (denied_connection_closed plainChalk emptyManager 1
           (js "int-1") (js "secret") None);
    [reflexivity|discriminate|discriminate|exact I].
Defined.

(** *** Every turn of the loop

    The handlers are built from a few primitives: a send, a close, the
    registration of a listener, the arming of the sampling timer, a push
    on a log buffer, the admission of a new socket.  A relation between
    managers that holds across each of these holds across every handler,
    and across every turn of the loop but the [close] event of a socket,
    which runs whatever listeners the socket has. *)

Section Turns.

Variable chalk : Chalk.
Context {R : Manager -> Manager -> Prop} (HR : Stepwise R).

Ltac stay := apply (sw_refl HR).
Ltac same := apply (sw_same HR); reflexivity.
Ltac thereafter := eapply (sw_trans HR).

Lemma relay_within id line m k : R m (relay id line m k).
Proof.
  unfold relay.
  destruct (lookup Nat.eqb k (sessionObjects m)) as [s|]; [|stay].
  destruct (jseqb (internalId s) id && authenticated s);
    [apply (sw_send HR)|stay].
Qed.

Lemma relay_fold_within id line l :
  forall m, R m (fold_left (relay id line) l m).
Proof.
  induction l as [|k l IH]; intros m; [stay|].
  cbn [fold_left]. thereafter; [apply relay_within|apply IH].
Qed.

Lemma broadcast_within id log type m :
  R m (broadcastToServer chalk id log type m).
Proof.
  rewrite broadcast_unfold.
  thereafter; [apply (sw_buffer HR)|apply relay_fold_within].
Qed.

Lemma attachLogs_within k m : R m (attachLogs k m).
Proof.
  unfold attachLogs.
  destruct (lookup Nat.eqb k (sessionObjects m)) as [s|]; [|stay].
  destruct (logStream s); same.
Qed.

Lemma logsReturned_within k answer m : R m (logsReturned chalk k answer m).
Proof.
  unfold logsReturned.
  destruct (lookup Nat.eqb k (sessionObjects m)) as [s|]; [|stay].
  destruct answer as [[n|]|[|x e]]; try apply broadcast_within. same.
Qed.

Lemma tickAfterInspect_within k answer m : R m (tickAfterInspect k answer m).
Proof.
  unfold tickAfterInspect. destruct answer as [info|e]; [|same].
  destruct (jseqb (Status info) (js "running")); [same|apply (sw_send HR)].
Qed.

Lemma tickAfterStats_within k state answer m :
  R m (tickAfterStats k state answer m).
Proof.
  unfold tickAfterStats. destruct answer; [apply (sw_send HR)|same].
Qed.

Lemma setupFailed_within k e m : R m (setupFailed k e m).
Proof.
  unfold setupFailed. thereafter; [|apply (sw_close HR)]. same.
Qed.

Lemma setupAfterRow_within k v row m : R m (setupAfterRow k v row m).
Proof.
  unfold setupAfterRow.
  destruct row as [[[|x id]|]|e]; try apply setupFailed_within. same.
Qed.

Lemma setupAfterInspect_within k answer m :
  R m (setupAfterInspect k answer m).
Proof.
  unfold setupAfterInspect. destruct answer; [|apply setupFailed_within].
  thereafter; [|apply (sw_onTeardown HR)].
  thereafter; [|apply (sw_onMessage HR)].
  thereafter; [|apply (sw_monitoring HR)].
  thereafter; [|apply attachLogs_within].
  apply (sw_send HR).
Qed.

Lemma teardown_within k m : R m (teardown k m).
Proof.
  unfold teardown.
  destruct (lookup Nat.eqb k (sessionObjects m)) as [s|]; [|same].
  destruct (logStream s); same.
Qed.

Lemma powerFailed_within k action e m : R m (powerFailed chalk k action e m).
Proof.
  unfold powerFailed.
  destruct (lookup Nat.eqb k (sessionObjects m)) as [s|]; [|stay].
  thereafter; [|apply (sw_send HR)].
  thereafter; [apply broadcast_within|same].
Qed.

Lemma handlePowerAction_within k action m :
  R m (handlePowerAction chalk k action m).
Proof.
  unfold handlePowerAction.
  destruct (lookup Nat.eqb k (sessionObjects m)) as [s|]; [|stay].
  destruct (isEngineAction action);
    (thereafter; [apply broadcast_within|same]).
Qed.

Lemma powerAfterAction_within k action answer m :
  R m (powerAfterAction chalk k action answer m).
Proof.
  unfold powerAfterAction. destruct answer; [|apply powerFailed_within].
  destruct (jseqb action (js "start") || jseqb action (js "restart"));
    [|same].
  thereafter; [apply attachLogs_within|same].
Qed.

Lemma powerAfterInspect_within k action answer m :
  R m (powerAfterInspect chalk k action answer m).
Proof.
  unfold powerAfterInspect.
  destruct answer; [apply (sw_send HR)|apply powerFailed_within].
Qed.

Lemma onConnection_within k server token m :
  R m (onConnection k server token m).
Proof.
  unfold onConnection.
  destruct (lookup Nat.eqb k (sockets m)) as [s|]; [stay|].
  pose proof (sw_accept HR k m) as H1.
  destruct server as [[|x q]|];
    try (thereafter; [exact H1|apply (sw_close HR)]).
  destruct token as [[|y t]|];
    try (thereafter; [exact H1|apply (sw_close HR)]).
  thereafter; [exact H1|same].
Qed.

Lemma afterValidate_within k response m : R m (afterValidate k response m).
Proof.
  unfold afterValidate. destruct response as [v|]; [|apply (sw_close HR)].
  destruct (validated v); [same|apply (sw_close HR)].
Qed.

Lemma resume_within (A : Type) (pick : Pending -> option A)
    (k : A -> Manager -> Manager) (m : Manager) :
  (forall a m0, R m0 (k a m0)) -> R m (resume pick k m).
Proof.
  intros Hk. unfold resume.
  destruct (takePending pick (pending m)) as [[a rest]|]; [|stay].
  thereafter; [|apply Hk]. same.
Qed.

Lemma onLogStream_within id
    (listener : ConsoleSession -> Manager -> Manager) m :
  (forall s m0, R m0 (listener s m0)) -> R m (onLogStream id listener m).
Proof.
  intros Hl. unfold onLogStream.
  destruct (lookup Nat.eqb id (logStreams m)); [|stay].
  destruct (lookup Nat.eqb _ (sessionObjects m)); [apply Hl|stay].
Qed.

Lemma onLogData_within s chunk m : R m (onLogData chalk s chunk m).
Proof.
  unfold onLogData. destruct (decodeLogChunk chunk) as [[[ty text]|]|e];
    [apply broadcast_within|stay|same].
Qed.

(** Every turn of the loop, given the turn that handles the [close]
    event of a socket. *)
Lemma step_within (e : LoopEvent) (m : Manager) :
  (forall k, e = SocketClosed k -> R m (socketClosed k m)) ->
  R m (step chalk m e).
Proof.
  intros Hclose. destruct e; cbn [step].
  - apply onConnection_within.
  - apply resume_within. intros; apply afterValidate_within.
  - apply resume_within. intros; apply setupAfterRow_within.
  - apply resume_within. intros; apply setupAfterInspect_within.
  - apply resume_within. intros; apply logsReturned_within.
  - apply onLogStream_within. intros; apply onLogData_within.
  - apply onLogStream_within. intros; apply broadcast_within.
  - now apply Hclose.
  - unfold onInterval.
    destruct (lookup Nat.eqb interval (intervals m)); [same|stay].
  - apply resume_within. intros; apply tickAfterInspect_within.
  - apply resume_within. intros; apply tickAfterStats_within.
  - unfold onPowerActionMessage.
    destruct (lookup Nat.eqb sock (sockets m)) as [s|]; [|stay].
    destruct (isOpen s && messageListener s);
      [apply handlePowerAction_within|stay].
  - apply resume_within. intros; apply powerAfterAction_within.
  - apply resume_within. intros; apply powerAfterInspect_within.
Qed.

End Turns.

(** *** Sockets and timers *)

Lemma stays_refl s : stays s s.
Proof. split; [auto|apply incl_refl]. Qed.

Lemma stays_trans s1 s2 s3 : stays s1 s2 -> stays s2 s3 -> stays s1 s3.
Proof.
  intros [A1 B1] [A2 B2]. split.
  - intros H. destruct (A1 H) as [C D]. destruct (A2 C) as [C' D'].
    split; congruence.
  - eapply incl_tran; eassumption.
Qed.

Lemma alive_refl s : alive s s.
Proof. intros H; exact H. Qed.

Lemma Timers_refl m : Timers m m.
Proof. split; auto. Qed.

(** A turn that leaves the timers alone. *)
Lemma Timers_same m m' :
  intervals m' = intervals m -> nextInterval m' = nextInterval m ->
  Timers m m'.
Proof. intros Hi Hn. split; [lia|]. intros i _ H. now rewrite Hi. Qed.

Lemma Timers_trans m1 m2 m3 : Timers m1 m2 -> Timers m2 m3 -> Timers m1 m3.
Proof.
  intros [A1 B1] [A2 B2]. split; [lia|].
  intros i Hi Hn. apply B2; [lia|]. now apply B1.
Qed.

Lemma Evolves_refl c m : Evolves c m m.
Proof.
  split; [|apply Timers_refl].
  intros k s H. exists s. split; [assumption|].
  split; [apply stays_refl|]. intros _; apply alive_refl.
Qed.

Lemma Evolves_trans c m1 m2 m3 :
  Evolves c m1 m2 -> Evolves c m2 m3 -> Evolves c m1 m3.
Proof.
  intros [A1 T1] [A2 T2]. split; [|eapply Timers_trans; eassumption].
  intros k s H. destruct (A1 k s H) as (s2 & H2 & S2 & L2).
  destruct (A2 k s2 H2) as (s3 & H3 & S3 & L3).
  exists s3. split; [assumption|].
  split; [eapply stays_trans; eassumption|].
  intros Hc Hal. apply (L3 Hc). now apply (L2 Hc).
Qed.

Lemma Evolves_weaken (c c' : nat -> Prop) m m' :
  (forall k, c k -> c' k) -> Evolves c m m' -> Evolves c' m m'.
Proof.
  intros Hcc [A T]. split; [|assumption].
  intros k s H. destruct (A k s H) as (s' & H' & S & L).
  exists s'. split; [assumption|]. split; [assumption|].
  intros Hn. apply L. intros Hc. apply Hn. auto.
Qed.

(** A turn that leaves the sockets alone, and clears no timer or arms
    new ones. *)
Lemma Evolves_timers c m m' :
  sockets m' = sockets m -> Timers m m' -> Evolves c m m'.
Proof.
  intros Hs HT. split; [|exact HT].
  intros k s H. exists s. rewrite Hs. split; [assumption|].
  split; [apply stays_refl|]. intros _; apply alive_refl.
Qed.

(** A turn that rewrites one socket. *)
Lemma Evolves_socket c m k s s' :
  lookup Nat.eqb k (sockets m) = Some s -> stays s s' -> alive s s' ->
  Evolves c m (setSockets m (assign Nat.eqb k s' (sockets m))).
Proof.
  intros Hk Hst Hal. split; [|now apply Timers_same].
  intros k0 s0 H0. cbn [sockets setSockets].
  destruct (Nat.eq_dec k0 k) as [->|Hne].
  - rewrite lookup_assign_same. exists s'.
    rewrite Hk in H0. inversion H0; subst. auto.
  - rewrite lookup_assign_other by assumption. exists s0.
    split; [assumption|]. split; [apply stays_refl|].
    intros _; apply alive_refl.
Qed.

Lemma send_evolves c k ev m : Evolves c m (send k ev m).
Proof.
  unfold send.
  destruct (lookup Nat.eqb k (sockets m)) as [s|] eqn:Hk;
    [|apply Evolves_refl].
  destruct (isOpen s) eqn:Ho; [|apply Evolves_refl].
  apply Evolves_socket with (s := s); [assumption| |].
  - split; cbn; [|apply incl_refl].
    intros Hc. unfold isOpen in Ho. rewrite Hc in Ho. discriminate.
  - intros H; exact H.
Qed.

Lemma close_evolves c k code reason m : Evolves c m (close k code reason m).
Proof.
  unfold close.
  destruct (lookup Nat.eqb k (sockets m)) as [s|] eqn:Hk;
    [|apply Evolves_refl].
  destruct (isOpen s) eqn:Ho; [|apply Evolves_refl].
  apply Evolves_socket with (s := s); [assumption| |].
  - split; cbn; [|apply incl_refl].
    intros Hc. unfold isOpen in Ho. rewrite Hc in Ho. discriminate.
  - intros _. cbn. discriminate.
Qed.

Lemma onClose_evolves c k l m : Evolves c m (onClose k l m).
Proof.
  unfold onClose.
  destruct (lookup Nat.eqb k (sockets m)) as [s|] eqn:Hk;
    [|apply Evolves_refl].
  apply Evolves_socket with (s := s); [assumption| |].
  - split; cbn; [auto|]. apply incl_appl, incl_refl.
  - intros H; exact H.
Qed.

Lemma onMessage_evolves c k m : Evolves c m (onMessage k m).
Proof.
  unfold onMessage.
  destruct (lookup Nat.eqb k (sockets m)) as [s|] eqn:Hk;
    [|apply Evolves_refl].
  apply Evolves_socket with (s := s); [assumption| |].
  - split; cbn; [auto|apply incl_refl].
  - intros H; exact H.
Qed.

Lemma startResourceMonitoring_evolves c k m :
  Evolves c m (startResourceMonitoring k m).
Proof.
  unfold startResourceMonitoring.
  eapply Evolves_trans; [|apply onClose_evolves].
  apply Evolves_timers; [reflexivity|].
  split; [cbn; lia|]. intros i Hi Hn. cbn [intervals setIntervals].
  apply lookup_app_none; [lia|assumption].
Qed.

Lemma Evolves_stepwise c : Stepwise (Evolves c).
Proof.
  constructor.
  - apply Evolves_refl.
  - apply Evolves_trans.
  - intros m m' Hs Hi Hn _.
    apply Evolves_timers; [exact Hs|now apply Timers_same].
  - apply send_evolves.
  - apply close_evolves.
  - apply onMessage_evolves.
  - intros k m. apply onClose_evolves.
  - apply startResourceMonitoring_evolves.
  - intros id line m.
    apply Evolves_timers; [reflexivity|now apply Timers_same].
  - intros k m. split; [|now apply Timers_same].
    intros k0 s0 H0. exists s0. cbn [sockets setSockets].
    split; [now apply lookup_app_some|]. split; [apply stays_refl|].
    intros _; apply alive_refl.
Qed.

(** *** The listeners of one timer *)

Section Listeners.

Variable i : nat.

Lemma Quiet_refl m : Quiet i m m.
Proof.
  split; [lia|]. intros _. split; [|auto].
  intros k s' H Hin. now exists s'.
Qed.

Lemma Quiet_trans m1 m2 m3 : Quiet i m1 m2 -> Quiet i m2 m3 -> Quiet i m1 m3.
Proof.
  intros [N1 Q1] [N2 Q2]. split; [lia|]. intros Hi.
  destruct (Q1 Hi) as [A1 B1]. destruct (Q2 ltac:(lia)) as [A2 B2]. split.
  - intros k s3 H3 Hin. destruct (A2 k s3 H3 Hin) as (s2 & H2 & Hin2).
    now apply (A1 k s2).
  - intros k H. apply B2. now apply B1.
Qed.

Lemma Quiet_same m m' :
  sockets m' = sockets m -> intervals m' = intervals m ->
  nextInterval m' = nextInterval m -> Quiet i m m'.
Proof.
  intros Hs Hi Hn. split; [lia|]. intros _. split.
  - intros k s' H Hin. exists s'. rewrite Hs in H. auto.
  - intros k H. now rewrite Hi.
Qed.

Lemma Quiet_socket m k s s' :
  lookup Nat.eqb k (sockets m) = Some s ->
  (In (ClearInterval i) (closeListeners s') ->
   In (ClearInterval i) (closeListeners s)) ->
  Quiet i m (setSockets m (assign Nat.eqb k s' (sockets m))).
Proof.
  intros Hk Hl. split; [cbn; lia|]. intros _. split; [|auto].
  intros k0 s0 H0 Hin. cbn [sockets setSockets] in H0.
  destruct (Nat.eq_dec k0 k) as [->|Hne].
  - rewrite lookup_assign_same in H0. inversion H0; subst s0.
    exists s. auto.
  - rewrite lookup_assign_other in H0 by assumption. now exists s0.
Qed.

Lemma send_quiet k ev m : Quiet i m (send k ev m).
Proof.
  unfold send.
  destruct (lookup Nat.eqb k (sockets m)) as [s|] eqn:Hk;
    [|apply Quiet_refl].
  destruct (isOpen s); [|apply Quiet_refl].
  apply Quiet_socket with (s := s); auto.
Qed.

Lemma close_quiet k code reason m : Quiet i m (close k code reason m).
Proof.
  unfold close.
  destruct (lookup Nat.eqb k (sockets m)) as [s|] eqn:Hk;
    [|apply Quiet_refl].
  destruct (isOpen s); [|apply Quiet_refl].
  apply Quiet_socket with (s := s); auto.
Qed.

Lemma onMessage_quiet k m : Quiet i m (onMessage k m).
Proof.
  unfold onMessage.
  destruct (lookup Nat.eqb k (sockets m)) as [s|] eqn:Hk;
    [|apply Quiet_refl].
  apply Quiet_socket with (s := s); auto.
Qed.

Lemma onClose_quiet k l m : l <> ClearInterval i -> Quiet i m (onClose k l m).
Proof.
  intros Hl. unfold onClose.
  destruct (lookup Nat.eqb k (sockets m)) as [s|] eqn:Hk;
    [|apply Quiet_refl].
  apply Quiet_socket with (s := s); [assumption|]. cbn. intros Hin.
  apply in_app_or in Hin as [Hin|[Hin|[]]]; [assumption|congruence].
Qed.

(** The timer that monitoring arms is a new one: for a timer handed out
    before, no listener is registered. *)
Lemma startResourceMonitoring_quiet k m :
  Quiet i m (startResourceMonitoring k m).
Proof.
  assert (H1 : Quiet i m
                 (setIntervals m (intervals m ++ [(nextInterval m, k)])
                    (S (nextInterval m)))).
  { split; [cbn; lia|]. intros _. split.
    - intros k0 s' H Hin. now exists s'.
    - intros k0 H. cbn [intervals setIntervals]. now apply lookup_app_some. }
  split.
  - unfold startResourceMonitoring, onClose. cbn [sockets setIntervals].
    destruct (lookup Nat.eqb k (sockets m)); cbn; lia.
  - intros Hi. unfold startResourceMonitoring.
    assert (H2 : Quiet i m
                   (onClose k (ClearInterval (nextInterval m))
                      (setIntervals m
                         (intervals m ++ [(nextInterval m, k)])
                         (S (nextInterval m))))).
    { eapply Quiet_trans; [exact H1|]. apply onClose_quiet.
      intros E. inversion E. lia. }
    destruct H2 as [_ Q]. now apply Q.
Qed.

Lemma Quiet_stepwise : Stepwise (Quiet i).
Proof.
  constructor.
  - apply Quiet_refl.
  - apply Quiet_trans.
  - intros m m' Hs Hi Hn _. now apply Quiet_same.
  - apply send_quiet.
  - apply close_quiet.
  - apply onMessage_quiet.
  - intros k m. apply onClose_quiet. discriminate.
  - apply startResourceMonitoring_quiet.
  - intros id line m. apply Quiet_same; reflexivity.
  - intros k m. split; [cbn; lia|]. intros _. split; [|auto].
    intros k0 s' H Hin. cbn [sockets setSockets] in H.
    apply lookup_app_new in H as [H| ->]; [now exists s'|destruct Hin].
Qed.

End Listeners.

(** *** The bound of the log buffers *)

Lemma pushCapped_length (b : list jsstring) (x : jsstring) :
  length b <= MAX_LOGS -> length (pushCapped b x) <= MAX_LOGS.
Proof.
  intros H. unfold pushCapped. cbn zeta.
  destruct (Nat.ltb_spec MAX_LOGS (length (b ++ [x]))) as [Hlt|Hle];
    [|exact Hle].
  rewrite length_app in Hlt. cbn in Hlt.
  destruct b as [|y b]; cbn [app tl]; [cbn; unfold MAX_LOGS; lia|].
  rewrite length_app. cbn [length] in *. lia.
Qed.

(** The newest line is the last of the buffer; the lines before it are
    the old ones, without the oldest when the buffer was full. *)
Lemma pushCapped_shape (b : list jsstring) (x : jsstring) :
  length b <= MAX_LOGS ->
  pushCapped b x
  = (if Nat.ltb (length b) MAX_LOGS then b else tl b) ++ [x].
Proof.
  intros H. unfold pushCapped. cbn zeta. rewrite length_app. cbn [length].
  destruct (Nat.ltb_spec (length b) MAX_LOGS) as [Hlt|Hge].
  - destruct (Nat.ltb_spec MAX_LOGS (length b + 1)); [lia|reflexivity].
  - destruct (Nat.ltb_spec MAX_LOGS (length b + 1)); [|lia].
    destruct b; [unfold MAX_LOGS in Hge; cbn in Hge; lia|reflexivity].
Qed.

Lemma Buffered_same m m' : logBuffers m' = logBuffers m -> Buffered m m'.
Proof. intros E H id. unfold bufferOf. rewrite E. apply H. Qed.

Lemma addLogToBuffer_buffered id line m :
  Buffered m (addLogToBuffer id line m).
Proof.
  intros H id'. unfold bufferOf, addLogToBuffer.
  cbn [logBuffers setLogBuffers].
  destruct (list_eq_dec N.eq_dec id' id) as [->|Hne].
  - rewrite lookup_assign_key. apply pushCapped_length, H.
  - rewrite lookup_assign_key_other by assumption. apply H.
Qed.

Lemma Buffered_stepwise : Stepwise Buffered.
Proof.
  constructor.
  - intros m H; exact H.
  - intros m1 m2 m3 H1 H2 H. auto.
  - intros m m' _ _ _ E. now apply Buffered_same.
  - intros k ev m. apply Buffered_same. apply send_frame.
  - intros k code reason m. apply Buffered_same. unfold close.
    destruct (lookup Nat.eqb k (sockets m)) as [s|]; [|reflexivity].
    destruct (isOpen s); reflexivity.
  - intros k m. apply Buffered_same. unfold onMessage.
    destruct (lookup Nat.eqb k (sockets m)); reflexivity.
  - intros k m. apply Buffered_same. unfold onClose.
    destruct (lookup Nat.eqb k (sockets m)); reflexivity.
  - intros k m. apply Buffered_same. unfold startResourceMonitoring, onClose.
    cbn [sockets setIntervals].
    destruct (lookup Nat.eqb k (sockets m)); reflexivity.
  - apply addLogToBuffer_buffered.
  - intros k m. now apply Buffered_same.
Qed.

(** *** The close event and the sampling timer *)

Section Loop.

Variable chalk : Chalk.

Lemma runCloseListener_evolves c k m l :
  Evolves c m (runCloseListener k m l).
Proof.
  destruct l as [j|]; [|apply (teardown_within (Evolves_stepwise c))].
  cbn [runCloseListener]. apply Evolves_timers; [reflexivity|].
  split; [cbn; lia|]. intros i _ Hn. cbn [intervals setIntervals].
  now apply lookup_remove_none.
Qed.

Lemma runCloseListeners_evolves c k ls :
  forall m, Evolves c m (fold_left (runCloseListener k) ls m).
Proof.
  induction ls as [|l ls IH]; intros m; [apply Evolves_refl|].
  cbn [fold_left].
  eapply Evolves_trans; [apply runCloseListener_evolves|apply IH].
Qed.

Lemma socketClosed_evolves k m :
  Evolves (fun k' => k = k') m (socketClosed k m).
Proof.
  unfold socketClosed.
  destruct (lookup Nat.eqb k (sockets m)) as [s|] eqn:Hk;
    [|apply Evolves_refl].
  destruct (readyState s) eqn:Hr; try apply Evolves_refl;
    (eapply Evolves_trans; [|apply runCloseListeners_evolves]);
    (split; [|now apply Timers_same]);
    intros k0 s0 H0; cbn [sockets setSockets];
    (destruct (Nat.eq_dec k0 k) as [->|Hne];
     [rewrite lookup_assign_same; eexists; split; [reflexivity|];
      rewrite Hk in H0; inversion H0; subst s0;
      split; [split; [intros Hc; congruence|apply incl_refl]|];
      intros Hn; exfalso; apply Hn; reflexivity
     |rewrite lookup_assign_other by assumption; exists s0;
      split; [assumption|]; split; [apply stays_refl|];
      intros _; apply alive_refl]).
Qed.

(** Every turn of the loop, by what it may do to the sockets and the
    timers. *)
Lemma step_evolves (e : LoopEvent) (m : Manager) :
  Evolves (closes e) m (step chalk m e).
Proof.
  apply (step_within chalk (Evolves_stepwise (closes e))).
  intros k ->. apply socketClosed_evolves.
Qed.

Lemma run_evolves (events : list LoopEvent) :
  forall m, Evolves (fun _ => True) m (run chalk m events).
Proof.
  induction events as [|e events IH]; intros m; [apply Evolves_refl|].
  unfold run. cbn [fold_left]. eapply Evolves_trans; [|apply IH].
  eapply Evolves_weaken; [|apply step_evolves]. auto.
Qed.

(** Once a socket is closed nothing more is delivered to it. *)
Theorem closed_socket_receives_nothing (m : Manager) (sock : nat)
    (s : Socket) (events : list LoopEvent) :
  lookup Nat.eqb sock (sockets m) = Some s -> readyState s = CLOSED ->
  exists s', lookup Nat.eqb sock (sockets (run chalk m events)) = Some s'
             /\ readyState s' = CLOSED
             /\ deliveredTo sock (run chalk m events) = delivered s.
Proof.
  intros Hs Hc. destruct (run_evolves events m) as [A _].
  destruct (A sock s Hs) as (s' & Hs' & [St _] & _).
  destruct (St Hc) as [Hc' Hd].
  exists s'. split; [assumption|]. split; [assumption|].
  unfold deliveredTo. now rewrite Hs'.
Qed.

Lemma socketClosed_closes (m : Manager) (sock : nat) (s : Socket) :
  lookup Nat.eqb sock (sockets m) = Some s ->
  exists s', lookup Nat.eqb sock (sockets (socketClosed sock m)) = Some s'
             /\ readyState s' = CLOSED /\ delivered s' = delivered s.
Proof.
  intros Hs. unfold socketClosed. rewrite Hs.
  destruct (readyState s) eqn:Hr; try solve [exists s; auto];
    match goal with
    | |- context [fold_left _ ?ls ?m0] =>
        destruct (runCloseListeners_evolves (fun _ => True) sock ls m0)
          as [A _];
        assert (Hl : lookup Nat.eqb sock (sockets m0)
                     = Some {| readyState := CLOSED;
                               delivered := delivered s;
                               closeSent := closeSent s;
                               closeListeners := closeListeners s;
                               messageListener := messageListener s |})
          by (cbn [sockets setSockets]; apply lookup_assign_same);
        destruct (A sock _ Hl) as (s' & Hs' & [St _] & _);
        destruct (St eq_refl) as [Hc Hd];
        exists s'; auto
    end.
Qed.

Lemma runCloseListeners_keep_none (sock i : nat) (ls : list CloseListener) :
  forall m,
    lookup Nat.eqb i (intervals m) = None ->
    lookup Nat.eqb i (intervals (fold_left (runCloseListener sock) ls m))
    = None.
Proof.
  induction ls as [|l ls IH]; intros m H; [exact H|].
  cbn [fold_left]. apply IH. destruct l as [j|].
  - cbn. now apply lookup_remove_none.
  - unfold runCloseListener, teardown.
    destruct (lookup Nat.eqb sock (sessionObjects m)) as [s|]; [|exact H].
    destruct (logStream s); exact H.
Qed.

Lemma runCloseListeners_clear (sock i : nat) (ls : list CloseListener) :
  In (ClearInterval i) ls ->
  forall m,
    lookup Nat.eqb i (intervals (fold_left (runCloseListener sock) ls m))
    = None.
Proof.
  induction ls as [|l ls IH]; intros Hin m; [contradiction|].
  cbn [fold_left]. destruct Hin as [->|Hin]; [|now apply IH].
  apply runCloseListeners_keep_none. cbn. apply lookup_remove_same.
Qed.

(** The [close] event of a socket that is not yet closed runs the
    listener that clears its timer. *)
Lemma socketClosed_clears (m : Manager) (sock i : nat) (s : Socket) :
  lookup Nat.eqb sock (sockets m) = Some s -> readyState s <> CLOSED ->
  In (ClearInterval i) (closeListeners s) ->
  lookup Nat.eqb i (intervals (socketClosed sock m)) = None.
Proof.
  intros Hs Hr Hin. unfold socketClosed. rewrite Hs.
  destruct (readyState s); try contradiction; now apply runCloseListeners_clear.
Qed.

Lemma startResourceMonitoring_monitored (m : Manager) (sock : nat)
    (s : Socket) :
  lookup Nat.eqb sock (sockets m) = Some s -> readyState s <> CLOSED ->
  Monitored (nextInterval m) sock (startResourceMonitoring sock m).
Proof.
  intros Hs Hr. unfold startResourceMonitoring, onClose.
  cbn [sockets setIntervals]. rewrite Hs. split; [cbn; lia|]. right.
  cbn [sockets setSockets]. rewrite lookup_assign_same. eexists.
  split; [reflexivity|]. cbn. split; [assumption|].
  apply in_or_app. right. now left.
Qed.

Lemma step_monitored (i sock : nat) (e : LoopEvent) (m : Manager) :
  Monitored i sock m -> Monitored i sock (step chalk m e).
Proof.
  intros [Hi H]. destruct (step_evolves e m) as [A [Tn T]].
  split; [lia|]. destruct H as [Hnone|(s & Hs & Hr & Hin)].
  - left. now apply T.
  - assert (Hdec : closes e sock \/ ~ closes e sock).
    { destruct e; cbn; try (right; tauto).
      destruct (Nat.eq_dec sock0 sock); [left|right]; assumption. }
    destruct Hdec as [Hc|Hc].
    + left. destruct e; cbn in Hc; try contradiction. subst sock0.
      cbn [step]. now apply socketClosed_clears with (s := s).
    + right. destruct (A sock s Hs) as (s' & Hs' & [_ Hincl] & Hal).
      exists s'. split; [assumption|]. split; [now apply Hal|]. now apply Hincl.
Qed.

Lemma run_monitored (i sock : nat) (events : list LoopEvent) :
  forall m, Monitored i sock m -> Monitored i sock (run chalk m events).
Proof.
  induction events as [|e events IH]; intros m H; [exact H|].
  unfold run. cbn [fold_left]. apply IH. now apply step_monitored.
Qed.

Lemma run_app (m : Manager) (a b : list LoopEvent) :
  run chalk m (a ++ b) = run chalk (run chalk m a) b.
Proof. unfold run. apply fold_left_app. Qed.

(** When monitoring starts on a socket that is not yet closed, the timer it
    arms is cleared by the [close] event of the socket, whatever happens
    before and after; from then on the timer never starts a sampling
    callback, and nothing more is delivered to the socket. *)
Theorem monitoring_stops_at_close (m : Manager) (sock : nat) (s : Socket)
    (before after : list LoopEvent) :
  lookup Nat.eqb sock (sockets m) = Some s -> readyState s <> CLOSED ->
  let i := nextInterval m in
  let m1 := startResourceMonitoring sock m in
  let m' := run chalk m1 (before ++ SocketClosed sock :: after) in
  lookup Nat.eqb i (intervals m') = None
  /\ step chalk m' (IntervalElapsed i) = m'
  /\ deliveredTo sock m' = deliveredTo sock (run chalk m1 before).
Proof.
  intros Hs Hr. cbn zeta.
  pose proof (startResourceMonitoring_monitored m sock s Hs Hr) as M1.
  pose proof (run_monitored _ sock before _ M1) as M2.
  rewrite run_app.
  set (m2 := run chalk (startResourceMonitoring sock m) before) in *.
  change (run chalk m2 (SocketClosed sock :: after))
    with (run chalk (step chalk m2 (SocketClosed sock)) after).
  remember (step chalk m2 (SocketClosed sock)) as m3 eqn:Em3.
  assert (Hnone : lookup Nat.eqb (nextInterval m) (intervals m3) = None).
  { subst m3. destruct M2 as [Hi [Hn|(s2 & Hs2 & Hr2 & Hin)]].
    - destruct (step_evolves (SocketClosed sock) m2) as [_ [_ T]]. now apply T.
    - cbn [step]. now apply socketClosed_clears with (s := s2). }
  assert (Hlt : nextInterval m < nextInterval m3).
  { subst m3.
    destruct (step_monitored _ sock (SocketClosed sock) _ M2) as [Hi _].
    exact Hi. }
  assert (Hfinal : lookup Nat.eqb (nextInterval m)
                     (intervals (run chalk m3 after)) = None).
  { destruct (run_evolves after m3) as [_ [_ T]]. now apply T. }
  split; [exact Hfinal|]. split.
  - change (step chalk ?x (IntervalElapsed ?j)) with (onInterval j x).
    unfold onInterval. now rewrite Hfinal.
  - destruct (startResourceMonitoring_evolves (fun _ => True) sock m)
      as [A1 _].
    destruct (A1 sock s Hs) as (s1 & Hs1 & _).
    destruct (run_evolves before (startResourceMonitoring sock m)) as [A2 _].
    destruct (A2 sock s1 Hs1) as (s2 & Hs2 & _). fold m2 in Hs2.
    destruct (socketClosed_closes m2 sock s2 Hs2) as (s3 & Hs3 & Hc3 & Hd3).
    change (socketClosed sock m2) with (step chalk m2 (SocketClosed sock))
      in Hs3.
    rewrite <- Em3 in Hs3.
    destruct (closed_socket_receives_nothing m3 sock s3 after Hs3 Hc3)
      as (_ & _ & _ & D).
    rewrite D, Hd3. unfold deliveredTo. now rewrite Hs2.
Qed.

End Loop.

(** *** A timer whose listener will never run *)

Section Orphan.

Variable chalk : Chalk.
Variable i : nat.

Lemma runCloseListeners_spare (sock : nat) (ls : list CloseListener) :
  ~ In (ClearInterval i) ls ->
  forall m, Quiet i m (fold_left (runCloseListener sock) ls m).
Proof.
  induction ls as [|l ls IH]; intros Hn m; [apply Quiet_refl|].
  cbn [fold_left].
  eapply Quiet_trans; [|apply IH; intros H; apply Hn; now right].
  destruct l as [j|]; [|apply (teardown_within (Quiet_stepwise i))].
  split; [cbn; lia|]. intros _. split.
  - intros k s' H Hin. now exists s'.
  - intros k H. cbn [runCloseListener intervals setIntervals].
    rewrite lookup_remove_other; [assumption|].
    intros ->. apply Hn. now left.
Qed.

(** The [close] event of a socket leaves the timer alone when the only
    sockets with a listener for it are closed already. *)
Lemma socketClosed_quiet sock0 k m :
  Orphaned i sock0 m -> Quiet i m (socketClosed k m).
Proof.
  intros (_ & _ & Hclosed). unfold socketClosed.
  destruct (lookup Nat.eqb k (sockets m)) as [s|] eqn:Hk;
    [|apply Quiet_refl].
  assert (Hn : readyState s <> CLOSED ->
               ~ In (ClearInterval i) (closeListeners s)).
  { intros Hr Hin. apply Hr. now apply (Hclosed k s). }
  destruct (readyState s) eqn:Hr; try apply Quiet_refl;
    (eapply Quiet_trans;
     [|apply runCloseListeners_spare; apply Hn; discriminate]);
    (apply Quiet_socket with (s := s); [exact Hk|cbn; auto]).
Qed.

Lemma step_quiet sock0 (e : LoopEvent) (m : Manager) :
  Orphaned i sock0 m -> Quiet i m (step chalk m e).
Proof.
  intros HO. apply (step_within chalk (Quiet_stepwise i)).
  intros k _. now apply socketClosed_quiet with (sock0 := sock0).
Qed.

(** A turn that registers no listener for an orphaned timer, and does not
    clear it, leaves it orphaned. *)
Lemma orphaned_preserved (c : nat -> Prop) (sock : nat) (m m' : Manager) :
  Quiet i m m' -> Evolves c m m' -> Orphaned i sock m -> Orphaned i sock m'.
Proof.
  intros [Hn Q] [A _] (Harmed & Hi & Hclosed).
  destruct (Q Hi) as [Hback Hkeep].
  split; [now apply Hkeep|]. split; [lia|].
  intros k s' Hs' Hin. destruct (Hback k s' Hs' Hin) as (s & Hs & Hin0).
  pose proof (Hclosed k s Hs Hin0) as Hc.
  destruct (A k s Hs) as (s2 & Hs2 & [St _] & _).
  rewrite Hs' in Hs2. inversion Hs2; subst s2. now apply St.
Qed.

Lemma step_orphaned sock (e : LoopEvent) (m : Manager) :
  Orphaned i sock m -> Orphaned i sock (step chalk m e).
Proof.
  intros HO. apply orphaned_preserved with (c := closes e) (m := m).
  - now apply step_quiet with (sock0 := sock).
  - apply step_evolves.
  - exact HO.
Qed.

Lemma run_orphaned sock (events : list LoopEvent) :
  forall m, Orphaned i sock m -> Orphaned i sock (run chalk m events).
Proof.
  induction events as [|e events IH]; intros m H; [exact H|].
  unfold run. cbn [fold_left]. apply IH. now apply step_orphaned.
Qed.

End Orphan.

(** *** The log buffers *)

Section Buffers.

Variable chalk : Chalk.

Lemma socketClosed_buffered k m : Buffered m (socketClosed k m).
Proof.
  assert (Hls : forall ls m0,
             Buffered m0 (fold_left (runCloseListener k) ls m0)).
  { induction ls as [|l ls IH]; intros m0; [intros H; exact H|].
    cbn [fold_left]. intros H. apply IH. revert H.
    destruct l as [j|]; [now apply Buffered_same|].
    apply (teardown_within Buffered_stepwise). }
  unfold socketClosed.
  destruct (lookup Nat.eqb k (sockets m)) as [s|]; [|intros H; exact H].
  destruct (readyState s); try (intros H; exact H);
    intros H; apply Hls; revert H; now apply Buffered_same.
Qed.

Lemma step_buffered (e : LoopEvent) (m : Manager) :
  Buffered m (step chalk m e).
Proof.
  apply (step_within chalk Buffered_stepwise).
  intros k _. apply socketClosed_buffered.
Qed.

Lemma run_buffered (events : list LoopEvent) :
  forall m, Buffered m (run chalk m events).
Proof.
  induction events as [|e events IH]; intros m Hm; [exact Hm|].
  unfold run. cbn [fold_left]. apply IH. now apply step_buffered.
Qed.

(** The log buffer of a server is a ring of the last 100 lines.  Whatever
    has happened since the manager started, no buffer holds more than 100
    lines, and a broadcast appends its line to the buffer of its server,
    which loses its oldest line when it was full. *)
Theorem log_buffers_bounded (events : list LoopEvent)
    (id log : jsstring) (type : LogType) :
  let m := run chalk emptyManager events in
  length (bufferOf id m) <= 100
  /\ bufferOf id (broadcastToServer chalk id log type m)
     = (if Nat.ltb (length (bufferOf id m)) 100 then bufferOf id m
        else tl (bufferOf id m))
       ++ [formatLogMessage chalk type log].
Proof.
  cbn zeta.
  assert (H : wellBuffered (run chalk emptyManager events)).
  { apply run_buffered. intros id'. cbn. unfold MAX_LOGS. lia. }
  split; [apply H|].
  rewrite broadcast_buffer. apply pushCapped_shape, H.
Qed.

End Buffers.

Lemma deliveredTo_onClose (sock k : nat) (l : CloseListener) (m : Manager) :
  deliveredTo sock (onClose k l m) = deliveredTo sock m.
Proof.
  unfold deliveredTo, onClose.
  destruct (lookup Nat.eqb k (sockets m)) as [s|] eqn:Hk; [|reflexivity].
  cbn [sockets setSockets]. destruct (Nat.eq_dec sock k) as [->|Hne].
  - now rewrite lookup_assign_same, Hk.
  - now rewrite lookup_assign_other.
Qed.

Lemma deliveredTo_onMessage (sock k : nat) (m : Manager) :
  deliveredTo sock (onMessage k m) = deliveredTo sock m.
Proof.
  unfold deliveredTo, onMessage.
  destruct (lookup Nat.eqb k (sockets m)) as [s|] eqn:Hk; [|reflexivity].
  cbn [sockets setSockets]. destruct (Nat.eq_dec sock k) as [->|Hne].
  - now rewrite lookup_assign_same, Hk.
  - now rewrite lookup_assign_other.
Qed.

Lemma deliveredTo_attachLogs (sock k : nat) (m : Manager) :
  deliveredTo sock (attachLogs k m) = deliveredTo sock m.
Proof.
  unfold attachLogs.
  destruct (lookup Nat.eqb k (sessionObjects m)) as [s|]; [|reflexivity].
  destruct (logStream s); reflexivity.
Qed.

Lemma deliveredTo_startResourceMonitoring (sock k : nat) (m : Manager) :
  deliveredTo sock (startResourceMonitoring k m) = deliveredTo sock m.
Proof. unfold startResourceMonitoring. now rewrite deliveredTo_onClose. Qed.

(** Whatever the buffers hold, the [auth_success] event of a session that
    is set up carries the state of the container and no log line. *)
Lemma auth_success_logs_empty (m : Manager) (sock : nat) (s : Socket)
    (info : ContainerInfo) :
  lookup Nat.eqb sock (sockets m) = Some s -> readyState s = OPEN ->
  deliveredTo sock (setupAfterInspect sock (Ok info) m)
  = delivered s ++ [auth_success [] (Status info)].
Proof.
  intros Hs Ho. cbn [setupAfterInspect].
  rewrite deliveredTo_onClose, deliveredTo_onMessage,
    deliveredTo_startResourceMonitoring, deliveredTo_attachLogs.
  unfold deliveredTo, send. rewrite Hs. unfold isOpen. rewrite Ho.
  cbn [sockets setSockets]. now rewrite lookup_assign_same.
Qed.

(** Monitoring started on a closed socket: the timer it arms is orphaned
    from the start. *)
Lemma startResourceMonitoring_orphaned (m : Manager) (sock : nat)
    (s : Socket) :
  lookup Nat.eqb sock (sockets m) = Some s -> readyState s = CLOSED ->
  (forall k s0, lookup Nat.eqb k (sockets m) = Some s0 ->
                ~ In (ClearInterval (nextInterval m)) (closeListeners s0)) ->
  lookup Nat.eqb (nextInterval m) (intervals m) = None ->
  Orphaned (nextInterval m) sock (startResourceMonitoring sock m).
Proof.
  intros Hs Hc Hfresh Hnone.
  unfold startResourceMonitoring, onClose. cbn [sockets setIntervals].
  rewrite Hs. split; [|split].
  - cbn [intervals setSockets setIntervals].
    clear - Hnone. induction (intervals m) as [|[j w] l IH]; cbn in *.
    + now rewrite Nat.eqb_refl.
    + destruct (Nat.eqb (nextInterval m) j); [discriminate|auto].
  - cbn. lia.
  - intros k s0 H0 Hin. cbn [sockets setSockets] in H0.
    destruct (Nat.eq_dec k sock) as [->|Hne].
    + rewrite lookup_assign_same in H0. inversion H0; subst s0. exact Hc.
    + rewrite lookup_assign_other in H0 by assumption.
      exfalso. now apply (Hfresh k s0).
Qed.

(** When the session set-up reaches [startResourceMonitoring] on a socket
    that is already closed, the timer it arms is never cleared: whatever
    happens next it stays armed, each time it elapses a sampling callback
    starts, and nothing of it reaches the client. *)
Theorem monitoring_outlives_closed_socket (chalk : Chalk) (m : Manager)
    (sock : nat) (s : Socket) (info : ContainerInfo)
    (events : list LoopEvent) :
  lookup Nat.eqb sock (sockets m) = Some s -> readyState s = CLOSED ->
  (forall k s0, lookup Nat.eqb k (sockets m) = Some s0 ->
                ~ In (ClearInterval (nextInterval m)) (closeListeners s0)) ->
  lookup Nat.eqb (nextInterval m) (intervals m) = None ->
  let i := nextInterval m in
  let m' := run chalk (setupAfterInspect sock (Ok info) m) events in
  lookup Nat.eqb i (intervals m') = Some sock
  /\ pending (step chalk m' (IntervalElapsed i))
     = pending m' ++ [AwaitTickInspect sock]
  /\ deliveredTo sock m' = delivered s.
Proof.
  intros Hs Hc Hfresh Hnone. cbn zeta.
  assert (Hsend : send sock (auth_success [] (Status info)) m = m).
  { unfold send. rewrite Hs. unfold isOpen. now rewrite Hc. }
  assert (HO : Orphaned (nextInterval m) sock
                 (setupAfterInspect sock (Ok info) m)).
  { cbn [setupAfterInspect]. rewrite Hsend.
    apply orphaned_preserved
      with (c := fun _ => False)
           (m := onMessage sock
                   (startResourceMonitoring sock (attachLogs sock m)));
      [apply onClose_quiet; discriminate|apply onClose_evolves|].
    apply orphaned_preserved
      with (c := fun _ => False)
           (m := startResourceMonitoring sock (attachLogs sock m));
      [apply onMessage_quiet|apply onMessage_evolves|].
    assert (Hsame : sockets (attachLogs sock m) = sockets m
                    /\ intervals (attachLogs sock m) = intervals m
                    /\ nextInterval (attachLogs sock m) = nextInterval m).
    { unfold attachLogs.
      destruct (lookup Nat.eqb sock (sessionObjects m)) as [x|]; [|auto].
      destruct (logStream x); auto. }
    destruct Hsame as (E1 & E2 & E3). rewrite <- E3.
    apply startResourceMonitoring_orphaned with (s := s);
      rewrite ?E1, ?E2, ?E3; assumption. }
  destruct (run_orphaned chalk _ sock events _ HO) as (Harmed & _).
  split; [exact Harmed|]. split.
  - cbn [step]. unfold onInterval. now rewrite Harmed.
  - destruct (setupAfterInspect_within (Evolves_stepwise (fun _ => True))
                sock (Ok info) m)
      as [A _].
    destruct (A sock s Hs) as (s1 & Hs1 & [St _] & _).
    destruct (St Hc) as [Hc1 Hd1].
    destruct (closed_socket_receives_nothing chalk _ sock s1 events Hs1 Hc1)
      as (_ & _ & _ & D).
    now rewrite D.
Qed.

(** C1 at a server whose buffer holds a line.  A first client attaches
    and the container prints [hello]: the line is buffered and sent to
    that client.  A second client then authenticates for the same server:
    its [auth_success] event carries the state and an empty [logs] array,
    and nothing else is sent to it. *)
Lemma auth_success_without_backlog :
  let m1 :=
    run plainChalk emptyManager
      (attachEvents 1 "running" ++ [LogData 101 helloChunk]) in
  let m2 := run plainChalk m1 (attachEvents 2 "running") in
  lookup jseqb (js "int-1") (logBuffers m1) = Some [js "hello"]
  /\ deliveredTo 1 m1
     = [auth_success [] (js "running"); console_output (js "hello")]
  /\ lookup jseqb (js "int-1") (logBuffers m2) = Some [js "hello"]
  /\ deliveredTo 2 m2 = [auth_success [] (js "running")].
Proof. vm_compute. repeat split. Qed.

(** C3 as the spec words it fails: on Docker, [stop] for a container that
    has already exited is rejected; the session gets the announcement, the
    failure line and an [error] event, and no [power_status] event. *)
Lemma stop_on_stopped_container_reports_error :
  let w := [(js "abc123", js "exited")] in
  let m := run plainChalk emptyManager (attachEvents 1 "exited") in
  let m' :=
    run plainChalk m
      (powerActionEvents dockerEngine w 1 (js "abc123") (js "stop")) in
  inspect dockerEngine (js "abc123") w = Ok (stateOf "exited")
  /\ deliveredTo 1 m = [auth_success [] (js "exited")]
  /\ deliveredTo 1 m'
     = [auth_success [] (js "exited");
        console_output
          (js "[Krypton Daemon] Performing a stop action on server...");
        console_output
          (js "Failed to stop server: "
           ++ js "(HTTP code 304) container already stopped - ");
        error_event (js "(HTTP code 304) container already stopped - ")].
Proof. vm_compute. repeat split. Qed.

(** C3, as the code has it.  A [stop] issued by an attached session is
    announced to it, and then reported as the engine answers, whatever the
    state of the container: when the engine performs the call, the session
    is sent one [power_status] event with the state the following
    [inspect] reports; when the engine rejects the call, or the [inspect],
    the session is sent the failure line and one [error] event with the
    engine's message, and no [power_status] event. *)
Theorem stop_reported_as_engine_answers
    (chalk : Chalk) (E : Engine) (w : world E) (sock : nat)
    (session : ConsoleSession) (m : Manager) :
  Attached sock session m -> noPowerPending sock m ->
  deliveredTo sock
    (run chalk m
       (powerActionEvents E w sock (container session) (js "stop")))
  = deliveredTo sock m
    ++ console_output
         (formatLogMessage chalk DAEMON
            (js "Performing a stop action on server..."))
       :: match act E (js "stop") (container session) w with
          | (Ok _, w') =>
              match inspect E (container session) w' with
              | Ok info =>
                  [power_status (powerStatusText chalk (Status info))
                     (js "stop") (Status info)
                     (match Error info with
                      | Some e => e
                      | None => []
                      end)]
              | Throw e =>
                  [console_output
                     (formatLogMessage chalk ERROR
                        (js "Failed to stop server: " ++ e));
                   error_event e]
              end
          | (Throw e, _) =>
              [console_output
                 (formatLogMessage chalk ERROR
                    (js "Failed to stop server: " ++ e));
               error_event e]
          end.
Proof.
  intros H Hp.
  rewrite (power_action_report chalk E w sock session (js "stop") m H Hp).
  change (isEngineAction (js "stop")) with true. cbn iota.
  destruct (act E (js "stop") (container session) w) as [[u|e] w'];
    [destruct (inspect E (container session) w')|]; reflexivity.
Qed.

Lemma stop_reported_as_engine_answers_witness :
  deliveredTo 1
    (run plainChalk (run plainChalk emptyManager (attachEvents 1 "exited"))
       (powerActionEvents lenientEngine tt 1 (js "abc123") (js "stop")))
  = [auth_success [] (js "exited");
     console_output
       (js "[Krypton Daemon] Performing a stop action on server...");
     power_status
       (js "[Krypton Daemon] Failed to change power state. "
        ++ js "If you are booting the server, this means the initial "
        ++ js "startup command failed/exited or is not valid.")
       (js "stop") (js "exited") []].
Proof.
  assert (HA : Attached 1 (sampleSession 1)
                 (run plainChalk emptyManager (attachEvents 1 "exited"))).
  { split; [eexists; split; [vm_compute; reflexivity
                            |split; vm_compute; reflexivity]|].
    split; [vm_compute; reflexivity|]. split; vm_compute; reflexivity. }
  assert (HP : noPowerPending 1
                 (run plainChalk emptyManager (attachEvents 1 "exited"))).
  { intros p Hin. vm_compute in Hin. destruct Hin. }
  pose proof (stop_reported_as_engine_answers plainChalk lenientEngine tt 1
                (sampleSession 1) _ HA HP) as H.
  vm_compute in H. vm_compute. exact H.
Defined.

(** C8 at a connection that closes while its token is being validated.
    The session is still set up; the [auth_success] event goes to a closed
    socket and is dropped; the sampling timer is armed and the listener
    that would clear it is registered after the [close] event has already
    been emitted.  The timer stays armed, and every time it elapses a new
    sampling callback starts. *)
Lemma timer_outlives_early_close :
  let m := run plainChalk emptyManager (closedEarlyEvents 1) in
  let m' :=
    run plainChalk m [IntervalElapsed 0; SocketClosed 1; IntervalElapsed 0] in
  option_map readyState (lookup Nat.eqb 1 (sockets m)) = Some CLOSED
  /\ option_map closeListeners (lookup Nat.eqb 1 (sockets m))
     = Some [ClearInterval 0; Teardown]
  /\ intervals m = [(0, 1)]
  /\ sessions m = [1]
  /\ intervals m' = [(0, 1)]
  /\ pending m' = [AwaitLogs 1; AwaitTickInspect 1; AwaitTickInspect 1]
  /\ deliveredTo 1 m' = [].
Proof. vm_compute. repeat split. Qed.

Lemma monitoring_stops_at_close_witness :
  let i := nextInterval oneSocket in
  let m1 := startResourceMonitoring 1 oneSocket in
  let m' :=
    run plainChalk m1
      ([IntervalElapsed 0] ++ SocketClosed 1
       :: [IntervalElapsed 0;
           TickInspectReturned 1 (Ok (stateOf "exited"))]) in
  lookup Nat.eqb i (intervals m') = None
  /\ step plainChalk m' (IntervalElapsed i) = m'
  /\ deliveredTo 1 m' = deliveredTo 1 (run plainChalk m1 [IntervalElapsed 0]).
Proof.
  apply (monitoring_stops_at_close plainChalk oneSocket 1 newSocket);
    [reflexivity|discriminate].
Defined.

Lemma closed_socket_receives_nothing_witness :
  exists s',
    lookup Nat.eqb 1
      (sockets (run plainChalk
                  (run plainChalk emptyManager (closedEarlyEvents 1))
                  [IntervalElapsed 0;
                   TickInspectReturned 1 (Ok (stateOf "exited"))]))
    = Some s'
    /\ readyState s' = CLOSED
    /\ deliveredTo 1
         (run plainChalk
            (run plainChalk emptyManager (closedEarlyEvents 1))
            [IntervalElapsed 0;
             TickInspectReturned 1 (Ok (stateOf "exited"))])
       = delivered
           {| readyState := CLOSED; delivered := []; closeSent := None;
              closeListeners := [ClearInterval 0; Teardown];
              messageListener := true |}.
Proof.
  apply (closed_socket_receives_nothing plainChalk
           (run plainChalk emptyManager (closedEarlyEvents 1)) 1
           {| readyState := CLOSED; delivered := []; closeSent := None;
              closeListeners := [ClearInterval 0; Teardown];
              messageListener := true |});
    reflexivity.
Defined.

Lemma power_action_report_witness :
  deliveredTo 1
    (run plainChalk (run plainChalk emptyManager (attachEvents 1 "exited"))
       (powerActionEvents dockerEngine [(js "abc123", js "exited")] 1
          (js "abc123") (js "start")))
  = [auth_success [] (js "exited");
     console_output
       (js "[Krypton Daemon] Performing a start action on server...");
     power_status
       (js "[Krypton Daemon] The power state was successfully changed!")
       (js "start") (js "running") []].
Proof.
  assert (HA : Attached 1 (sampleSession 1)
                 (run plainChalk emptyManager (attachEvents 1 "exited"))).
  { split; [eexists; split; [vm_compute; reflexivity
                            |split; vm_compute; reflexivity]|].
    split; [vm_compute; reflexivity|]. split; vm_compute; reflexivity. }
  assert (HP : noPowerPending 1
                 (run plainChalk emptyManager (attachEvents 1 "exited"))).
  { intros p Hin. vm_compute in Hin. destruct Hin. }
  pose proof (power_action_report plainChalk dockerEngine
                [(js "abc123", js "exited")] 1 (sampleSession 1)
                (js "start") _ HA HP) as H.
  vm_compute in H. vm_compute. exact H.
Defined.

Lemma auth_success_logs_empty_witness :
  let m := setLogBuffers oneSocket [(js "int-1", [js "hello"])] in
  bufferOf (js "int-1") m = [js "hello"]
  /\ deliveredTo 1 (setupAfterInspect 1 (Ok (stateOf "running")) m)
     = [auth_success [] (js "running")].
Proof.
  split; [reflexivity|].
  exact (auth_success_logs_empty
           (setLogBuffers oneSocket [(js "int-1", [js "hello"])]) 1
           newSocket (stateOf "running") eq_refl eq_refl).
Defined.

Lemma monitoring_outlives_closed_socket_witness :
  let m := run plainChalk emptyManager (removelast (closedEarlyEvents 1)) in
  let m' :=
    run plainChalk (setupAfterInspect 1 (Ok (stateOf "running")) m)
      [IntervalElapsed 0; SocketClosed 1; IntervalElapsed 0] in
  lookup Nat.eqb 0 (intervals m') = Some 1
  /\ pending (step plainChalk m' (IntervalElapsed 0))
     = pending m' ++ [AwaitTickInspect 1]
  /\ deliveredTo 1 m' = [].
Proof.
  pose proof (monitoring_outlives_closed_socket plainChalk
                (run plainChalk emptyManager
                   (removelast (closedEarlyEvents 1)))
                1
                {| readyState := CLOSED; delivered := []; closeSent := None;
                   closeListeners := []; messageListener := false |}
                (stateOf "running")
                [IntervalElapsed 0; SocketClosed 1; IntervalElapsed 0])
    as H.
  vm_compute in H. vm_compute. apply H; try reflexivity.
  intros k s0 Hk Hin.
  destruct k as [|[|k]]; try discriminate.
  inversion Hk; subst s0. destruct Hin.
Defined.

End SessionFacts.

(** ** What rejects a value ([validateVariableValue]) *)

Module ValidationFacts.
Import Servers Inputs JSFacts RuleFacts.

Lemma validateRules_rejected_by_max (value : jsstring)
    (ruleList : list jsstring) :
  validateRules value ruleList = false ->
  exists rule max,
    In rule ruleList /\ maxBound rule = Some max
    /\ (Z.of_nat (length value) > max)%Z.
Proof.
  induction ruleList as [|rule rest IH]; [discriminate|].
  rewrite validateRules_cons.
  destruct (jseqb rule (js "nullable") && jseqb value []); [discriminate|].
  destruct (maxBound rule) as [max|] eqn:Hmax.
  - destruct (Z.gtb_spec (Z.of_nat (length value)) max) as [Hgt|Hle].
    + intros _. exists rule, max. split; [now left|]. split; [assumption|lia].
    + intros H. destruct (IH H) as (r & m & Hin & Hr & Hlen).
      exists r, m. split; [now right|]. auto.
  - intros H. destruct (IH H) as (r & m & Hin & Hr & Hlen).
    exists r, m. split; [now right|]. auto.
Qed.

(** Only a [max:] rule ever rejects: when validation fails, the rule list
    holds a [max:] rule whose bound the length of the value exceeds.  Any
    other rule name ([required], [min:3], [numeric], ...) is accepted and
    has no effect. *)
Theorem only_max_rules_reject (value rules : jsstring) :
  validateVariableValue value rules = false ->
  exists rule max,
    In rule (split 124 rules) /\ startsWith (js "max:") rule = true
    /\ parseInt (slice 4 rule) = Some max
    /\ (Z.of_nat (length value) > max)%Z.
Proof.
  intros H.
  destruct (validateRules_rejected_by_max _ _ H) as (r & m & Hin & Hr & Hl).
  exists r, m. split; [assumption|].
  unfold maxBound in Hr.
  destruct (startsWith (js "max:") r); [auto|discriminate].
Qed.

Lemma only_max_rules_reject_witness :
  exists rule max,
    In rule (split 124 (js "required|max:2|numeric"))
    /\ startsWith (js "max:") rule = true
    /\ parseInt (slice 4 rule) = Some max
    /\ (Z.of_nat (length (js "abc")) > max)%Z.
Proof.
  apply (only_max_rules_reject (js "abc") (js "required|max:2|numeric")).
  reflexivity.
Defined.

End ValidationFacts.

(** ** What is inserted for a placeholder ([processVariables]) *)

Module InsertionFacts.
Import Servers Inputs JSFacts ListFacts SubstitutionFacts.

Lemma getSubstitution_app_plain (matched before after x t : jsstring) :
  ~ In 36%N x ->
  getSubstitution matched before after (x ++ t)
  = x ++ getSubstitution matched before after t.
Proof.
  induction x as [|c x IH]; intros Hx; [reflexivity|].
  cbn [app getSubstitution].
  destruct (N.eqb_spec c 36) as [->|Hc]; [exfalso; apply Hx; now left|].
  rewrite IH; [reflexivity|]. intros Hin. apply Hx. now right.
Qed.

Lemma getSubstitution_plain (matched before after x : jsstring) :
  ~ In 36%N x -> getSubstitution matched before after x = x.
Proof.
  intros Hx. rewrite <- (app_nil_r x) at 1.
  rewrite getSubstitution_app_plain by assumption. cbn. apply app_nil_r.
Qed.

Section Run.
Variable toLowerCase : jsstring -> jsstring.

Local Abbreviation placeholder := (placeholder toLowerCase).
Local Abbreviation processVariables := (processVariables toLowerCase).

(** What is inserted for a placeholder.  A value without a dollar sign is
    inserted as it is.  A dollar sign starts a replacement pattern of
    [String.prototype.replace]: of a value [x$$y] only [x$y] is inserted,
    one dollar sign is lost, and for [x$&y] the placeholder itself comes
    back between [x] and [y]. *)
Theorem value_insertion (v : VariableDef) (input : jsstring) (i : nat) :
  valid v ->
  indexOf (placeholder v) input = Some i ->
  let before := firstn i input in
  let after := skipn (i + length (placeholder v)) input in
  (~ In 36%N (effectiveValue v) ->
   processVariables input [v] = Ok (before ++ effectiveValue v ++ after))
  /\ (forall x y,
        ~ In 36%N x -> ~ In 36%N y ->
        (effectiveValue v = x ++ js "$$" ++ y ->
         processVariables input [v]
         = Ok (before ++ (x ++ js "$" ++ y) ++ after))
        /\ (effectiveValue v = x ++ js "$&" ++ y ->
            processVariables input [v]
            = Ok (before ++ (x ++ placeholder v ++ y) ++ after))).
Proof.
  intros Hv Hi. cbn zeta.
  assert (Hrun : processVariables input [v]
                 = Ok (firstn i input
                       ++ getSubstitution (placeholder v) (firstn i input)
                            (skipn (i + length (placeholder v)) input)
                            (effectiveValue v)
                       ++ skipn (i + length (placeholder v)) input)).
  { unfold Servers.processVariables. cbn [processLoop].
    unfold valid in Hv. rewrite Hv. unfold replace. now rewrite Hi. }
  split.
  - intros Hplain. rewrite Hrun. now rewrite getSubstitution_plain.
  - intros x y Hx Hy. split; intros E; rewrite Hrun, E;
      rewrite getSubstitution_app_plain by assumption;
      cbn [js list_ascii_of_string map app getSubstitution N_of_ascii];
      cbn; rewrite getSubstitution_plain by assumption;
      now rewrite <- ?app_assoc.
Qed.

End Run.

Lemma value_insertion_witness :
  processVariables asciiLower (js "login --pass %password% now")
    [plainVariable "Password" "pa$$word"]
  = Ok (js "login --pass pa$word now").
Proof.
  destruct (value_insertion asciiLower (plainVariable "Password" "pa$$word")
              (js "login --pass %password% now") 13 eq_refl eq_refl)
    as [_ H].
  destruct (H (js "pa") (js "word")) as [H1 _].
  - cbn. intuition discriminate.
  - cbn. intuition discriminate.
  - exact (H1 eq_refl).
Defined.

End InsertionFacts.

(** ** The volume of a server and the calls of an installation *)

Module PlanFacts.
Import Servers Inputs Statements JSFacts InstallFacts.

(** *** Volume names *)

Lemma sanitize_allowed (s : jsstring) :
  forallb isVolumeNameChar (sanitizeVolumeName s) = true.
Proof.
  induction s as [|c s IH]; [reflexivity|].
  cbn [sanitizeVolumeName map forallb]. fold (sanitizeVolumeName s).
  rewrite IH, andb_true_r.
  destruct (isVolumeNameChar c) eqn:E; [exact E|reflexivity].
Qed.

Lemma allowed_no_slash (s : jsstring) :
  forallb isVolumeNameChar s = true -> ~ In Path.slash s.
Proof.
  induction s as [|c s IH]; cbn [forallb]; [auto|].
  intros H [->|Hin]; apply andb_true_iff in H as [Hc Hs].
  - discriminate.
  - now apply IH.
Qed.

Lemma sanitize_fixed (s : jsstring) :
  forallb isVolumeNameChar s = true -> sanitizeVolumeName s = s.
Proof.
  induction s as [|c s IH]; cbn [forallb]; [reflexivity|].
  intros H. apply andb_true_iff in H as [Hc Hs].
  cbn [sanitizeVolumeName map]. fold (sanitizeVolumeName s).
  now rewrite Hc, IH.
Qed.

(** [sanitizeVolumeName] keeps the length of the name and every letter,
    digit, underscore, dot and hyphen of it, and puts an underscore for
    every other character: the result holds allowed characters only, in
    particular no slash, and sanitizing it again changes nothing. *)
Theorem sanitizeVolumeName_safe (serverId : jsstring) :
  let safe := sanitizeVolumeName serverId in
  length safe = length serverId
  /\ forallb isVolumeNameChar safe = true
  /\ ~ In Path.slash safe
  /\ sanitizeVolumeName safe = safe
  /\ (forall k c, nth_error serverId k = Some c ->
        nth_error safe k = Some (if isVolumeNameChar c then c else 95%N)).
Proof.
  cbn zeta. split; [apply length_map|].
  split; [apply sanitize_allowed|].
  split; [apply allowed_no_slash, sanitize_allowed|].
  split; [apply sanitize_fixed, sanitize_allowed|].
  intros k c H. unfold sanitizeVolumeName.
  rewrite nth_error_map, H. reflexivity.
Qed.

(** *** The volume path *)

Lemma split_nonempty (sep : N) (s : jsstring) : split sep s <> [].
Proof.
  destruct s as [|c s]; cbn; [discriminate|].
  destruct (N.eqb c sep); [discriminate|].
  destruct (split sep s); discriminate.
Qed.

Lemma split_app_sep (sep : N) (a b : jsstring) :
  split sep (a ++ sep :: b) = split sep a ++ split sep b.
Proof.
  induction a as [|c a IH]; cbn [app split].
  - now rewrite N.eqb_refl.
  - rewrite IH. destruct (N.eqb c sep); [reflexivity|].
    pose proof (split_nonempty sep a) as Hne.
    destruct (split sep a); [congruence|reflexivity].
Qed.

Lemma normalizeSegments_snoc (a : bool) (seg : jsstring)
    (segs : list jsstring) :
  cleanSegment seg ->
  forall res,
    Path.normalizeSegments a res (segs ++ [seg])
    = Path.normalizeSegments a res segs ++ [seg].
Proof.
  intros Hc. destruct (cleanSegment_tests seg Hc) as (E1 & E2 & E3).
  induction segs as [|s segs IH]; intros res.
  - cbn [app Path.normalizeSegments]. rewrite E1, E2, E3. reflexivity.
  - cbn [app Path.normalizeSegments].
    destruct (jseqb s [] || jseqb s [Path.dot]); [apply IH|].
    destruct (Path.isDotDot s); [|apply IH].
    destruct res as [|last res']; [apply IH|].
    destruct (Path.isDotDot last); apply IH.
Qed.

Lemma normalizeSegments_snoc_empty (a : bool) (segs : list jsstring) :
  forall res,
    Path.normalizeSegments a res (segs ++ [[]])
    = Path.normalizeSegments a res segs.
Proof.
  induction segs as [|s segs IH]; intros res.
  - reflexivity.
  - cbn [app Path.normalizeSegments].
    destruct (jseqb s [] || jseqb s [Path.dot]); [apply IH|].
    destruct (Path.isDotDot s); [|apply IH].
    destruct res as [|last res']; [apply IH|].
    destruct (Path.isDotDot last); apply IH.
Qed.

Lemma resolve_child (cwd dir name : jsstring) :
  dir <> [] ->
  resolve cwd (dir ++ Path.slash :: name)
  = Path.slash
    :: Path.joinSegments
         (Path.normalizeSegments false []
            (split Path.slash
               (if startsWith [Path.slash] dir then dir
                else cwd ++ Path.slash :: dir)
             ++ split Path.slash name)).
Proof.
  intros Hne.
  assert (Hsw : startsWith [Path.slash] (dir ++ Path.slash :: name)
                = startsWith [Path.slash] dir)
    by (destruct dir; [congruence|reflexivity]).
  unfold resolve, Path.normalizeString. rewrite Hsw.
  destruct (startsWith [Path.slash] dir).
  - now rewrite split_app_sep.
  - change (cwd ++ Path.slash :: dir ++ Path.slash :: name)
      with (cwd ++ (Path.slash :: dir) ++ Path.slash :: name).
    rewrite app_assoc, split_app_sep. reflexivity.
Qed.

(** The volume of a server is a directory of its own directly under the
    volumes directory: its path is the resolved path of the volumes
    directory with one more segment, the sanitized server id.  The ids
    that sanitize to the empty name are the exception: their volume is
    the volumes directory itself. *)
Theorem volume_path_is_child (volumesDirectory cwd serverId : jsstring) :
  volumesDirectory <> [] ->
  let name := sanitizeVolumeName serverId in
  exists segs,
    resolve cwd volumesDirectory = Path.slash :: Path.joinSegments segs
    /\ (name <> [] -> name <> js "." -> name <> js ".." ->
        volumePathOf volumesDirectory cwd serverId
        = Path.slash :: Path.joinSegments (segs ++ [name]))
    /\ (name = [] ->
        volumePathOf volumesDirectory cwd serverId
        = resolve cwd volumesDirectory).
Proof.
  intros Hne. cbn zeta.
  exists (Path.normalizeSegments false []
            (split Path.slash
               (if startsWith [Path.slash] volumesDirectory
                then volumesDirectory
                else cwd ++ Path.slash :: volumesDirectory))).
  split; [reflexivity|]. unfold volumePathOf. split.
  - intros H1 H2 H3. rewrite resolve_child by assumption.
    assert (Hclean : cleanSegment (sanitizeVolumeName serverId)).
    { repeat split; try assumption.
      apply allowed_no_slash, sanitize_allowed. }
    rewrite (split_no_slash (sanitizeVolumeName serverId))
      by apply Hclean.
    now rewrite normalizeSegments_snoc.
  - intros ->. rewrite resolve_child by assumption.
    cbn [split]. now rewrite normalizeSegments_snoc_empty.
Qed.

Lemma volume_path_is_child_witness :
  exists segs,
    resolve (js "/opt/krypton") (js "./volumes")
    = Path.slash :: Path.joinSegments segs
    /\ volumePathOf (js "./volumes") (js "/opt/krypton") (js "a/b c")
       = Path.slash :: Path.joinSegments (segs ++ [js "a_b_c"]).
Proof.
  destruct (volume_path_is_child (js "./volumes") (js "/opt/krypton")
              (js "a/b c")) as (segs & H1 & H2 & _); [discriminate|].
  exists segs. split; [exact H1|]. apply H2; discriminate.
Defined.

(** *** The calls of an installation *)

Lemma await_unfold (c : Call) (env : Env) (r : Run) :
  await c env r
  = (match failure (env (history r) c) with
     | Some e => Throw e
     | None => Ok (env (history r) c)
     end, called r c).
Proof.
  unfold await, bind, call, called.
  destruct (env (history r) c); reflexivity.
Qed.

Section Follows.

Lemma follows_silent (A : Type) (m : M A) :
  (forall env r, history (snd (m env r)) = history r) -> follows [] m.
Proof.
  intros H env r. exists 0. rewrite H, app_nil_r. auto.
Qed.

Lemma follows_await (c : Call) : follows [c] (await c).
Proof.
  intros env r. rewrite await_unfold. cbn [fst snd called history].
  exists 1. auto.
Qed.

Lemma follows_bind (A B : Type) (c1 c2 : list Call) (m : M A)
    (k : A -> M B) :
  follows c1 m -> (forall a, follows c2 (k a)) ->
  follows (c1 ++ c2) (bind m k).
Proof.
  intros Hm Hk env r. unfold bind.
  destruct (Hm env r) as (n1 & L1 & H1 & S1).
  destruct (m env r) as [[a|e] r1]; cbn [fst snd] in *.
  - specialize (S1 I). subst n1. rewrite firstn_all in H1.
    destruct (Hk a env r1) as (n2 & L2 & H2 & S2).
    exists (length c1 + n2). rewrite length_app. split; [lia|]. split.
    + rewrite H2, H1, firstn_app_2, app_assoc. reflexivity.
    + intros Hs. specialize (S2 Hs). lia.
  - exists n1. rewrite length_app. split; [lia|]. split; [|contradiction].
    rewrite H1, firstn_app.
    replace (n1 - length c1) with 0 by lia. now rewrite app_nil_r.
Qed.

Lemma follows_tryCatch (A : Type) (calls : list Call) (m : M A)
    (handler : jsstring -> M A) :
  follows calls m -> rethrows handler -> follows calls (tryCatch m handler).
Proof.
  intros Hm Hh env r. unfold tryCatch.
  destruct (Hm env r) as (n & L & H & S).
  destruct (m env r) as [[a|e] r1]; cbn [fst snd] in *.
  - exists n. auto.
  - destruct (Hh e env r1) as [Hhist Hfail].
    exists n. split; [assumption|]. split; [congruence|].
    intros Hs. contradiction.
Qed.

End Follows.

Lemma logLine_silent (l : LogLine) (env : Env) (r : Run) :
  history (snd (logLine l env r)) = history r.
Proof. reflexivity. Qed.

Lemma rethrows_log (l : jsstring -> LogLine) (msg : jsstring -> jsstring) :
  rethrows (fun e => bind (logLine (l e)) (fun _ => @throw unit (msg e))).
Proof. intros e env r. split; [reflexivity|]. cbn. auto. Qed.

Lemma follows_writeConfigFiles (volumePath : jsstring)
    (files : list ConfigFile) :
  follows (configCalls volumePath files) (writeConfigFiles volumePath files).
Proof.
  induction files as [|file rest IH].
  - apply follows_silent. reflexivity.
  - cbn [writeConfigFiles configCalls flat_map].
    change ([Mkdir (Path.dirname (fullPath volumePath file));
             WriteFile (fullPath volumePath file) (content file) None]
            ++ flat_map
                 (fun file0 =>
                    [Mkdir (Path.dirname (fullPath volumePath file0));
                     WriteFile (fullPath volumePath file0) (content file0)
                       None]) rest)
      with ([Mkdir (Path.dirname (fullPath volumePath file))]
            ++ [WriteFile (fullPath volumePath file) (content file) None]
            ++ configCalls volumePath rest).
    apply follows_bind; [apply follows_await|]. intros _.
    apply follows_bind; [|intros _; exact IH].
    apply follows_tryCatch.
    + rewrite <- (app_nil_r [WriteFile _ _ _]).
      apply follows_bind; [apply follows_await|]. intros _.
      apply follows_silent. reflexivity.
    + intros e env r. split; [reflexivity|]. cbn. auto.
Qed.

Lemma writeConfigFiles_cons (volumePath : jsstring) (file : ConfigFile)
    (rest : list ConfigFile) (env : Env) (r : Run) :
  let mk := Mkdir (Path.dirname (fullPath volumePath file)) in
  let wr := WriteFile (fullPath volumePath file) (content file) None in
  writeConfigFiles volumePath (file :: rest) env r
  = match failure (env (history r) mk) with
    | Some e => (Throw e, called r mk)
    | None =>
        match failure (env (history r ++ [mk]) wr) with
        | Some e =>
            (Throw (js "Failed to write config file " ++ safePath file),
             {| history := history r ++ [mk; wr];
                logged :=
                  logged r
                  ++ [ConsoleError
                        (js "Failed to write config file " ++ safePath file
                         ++ js ":") e];
                pushed := pushed r |})
        | None =>
            writeConfigFiles volumePath rest env
              {| history := history r ++ [mk; wr];
                 logged :=
                   logged r
                   ++ [ConsoleLog
                         (js "Created config file: " ++ safePath file)];
                 pushed := pushed r |}
        end
    end.
Proof.
  cbn zeta. cbn [writeConfigFiles]. unfold bind at 1. rewrite await_unfold.
  destruct (failure _); [reflexivity|].
  unfold bind at 1, tryCatch, bind at 1. rewrite await_unfold.
  cbn [called history logged pushed].
  destruct (failure _);
    cbn [logLine bind throw called history logged pushed];
    rewrite <- ?app_assoc; reflexivity.
Qed.


(** *** The order of the calls of an installation *)

Lemma follows_eq (A : Type) (c c' : list Call) (m : M A) :
  c = c' -> follows c m -> follows c' m.
Proof. now intros ->. Qed.

Lemma follows_then (A B : Type) (calls : list Call) (m : M A)
    (k : A -> M B) :
  (forall env r, history (snd (m env r)) = history r) ->
  (forall a, follows calls (k a)) -> follows calls (bind m k).
Proof.
  intros Hm Hk. apply (follows_bind _ _ [] calls); [|exact Hk].
  now apply follows_silent.
Qed.

Lemma follows_call (B : Type) (c : Call) (calls : list Call)
    (k : Outcome -> M B) :
  (forall o, follows calls (k o)) -> follows (c :: calls) (bind (await c) k).
Proof.
  intros Hk. apply (follows_bind _ _ [c] calls); [apply follows_await|exact Hk].
Qed.

Lemma drainOutput_silent (serverId : jsstring)
    (chunks : list (OutputStream * Buffer.buffer)) :
  forall output env r,
    history (snd (drainOutput serverId output chunks env r)) = history r.
Proof.
  induction chunks as [|[origin chunk] rest IH]; intros output env r;
    [reflexivity|].
  cbn [drainOutput].
  destruct (trim (Buffer.toString chunk)); [apply IH|].
  destruct origin; unfold bind; cbn [logEvent logLine push]; now rewrite IH.
Qed.

Lemma pullDockerImage_unfold (image : jsstring) (env : Env) (r : Run) :
  pullDockerImage image env r
  = match failure (env (history r) (PullImage image)) with
    | Some e =>
        (Throw (js "Failed to pull Docker image " ++ image),
         {| history := history r ++ [PullImage image];
            logged :=
              logged r
              ++ [ConsoleLog (js "Pulling Docker image: " ++ image);
                  ConsoleError
                    (js "Failed to pull Docker image " ++ image ++ js ":")
                    e];
            pushed := pushed r |})
    | None =>
        (Ok tt,
         {| history := history r ++ [PullImage image];
            logged :=
              logged r ++ [ConsoleLog (js "Pulling Docker image: " ++ image)];
            pushed := pushed r |})
    end.
Proof.
  unfold pullDockerImage, tryCatch, bind, await, bind, call, logLine.
  cbn [history logged pushed].
  destruct (env (history r) (PullImage image));
    cbn [failure ret throw history logged pushed];
    rewrite <- ?app_assoc; reflexivity.
Qed.

Lemma pullDockerImage_run (image : jsstring) (env : Env) (r : Run) :
  history (snd (pullDockerImage image env r)) = history r ++ [PullImage image]
  /\ (succeeded (fst (pullDockerImage image env r))
      <-> failure (env (history r) (PullImage image)) = None).
Proof.
  rewrite pullDockerImage_unfold.
  destruct (failure _); cbn; (split; [reflexivity|]);
    split; (discriminate || contradiction || auto).
Qed.

Lemma pullBoth_run (serverId : jsstring) (serverConfig : ServerConfig)
    (env : Env) (r : Run) :
  let first := PullImage (install_dockerImage (install serverConfig)) in
  let second := PullImage (dockerImage serverConfig) in
  history (snd (pullBoth serverId serverConfig env r))
  = history r ++ [first; second]
  /\ (succeeded (fst (pullBoth serverId serverConfig env r))
      <-> failure (env (history r) first) = None
          /\ failure (env (history r ++ [first]) second) = None).
Proof.
  cbn zeta. unfold pullBoth, bind. rewrite pullDockerImage_unfold.
  destruct (failure (env (history r) _)) as [e1|];
    cbn [logEvent logLine fst snd history logged pushed];
    rewrite pullDockerImage_unfold; cbn [history logged pushed];
    destruct (failure (env (history r ++ _) _)) as [e2|];
    cbn [logEvent logLine fst snd history logged pushed succeeded];
    (split; [now rewrite <- app_assoc|]);
    split; try tauto; intros [H1 H2]; discriminate.
Qed.

Lemma cleanup_run (serverId : jsstring) (env : Env) (r : Run) :
  fst (cleanupInstallContainer serverId env r) = Ok tt
  /\ history (snd (cleanupInstallContainer serverId env r))
     = history r ++ [Remove (installContainerName serverId) true].
Proof.
  unfold cleanupInstallContainer, tryCatch, bind, call, logEvent, logLine.
  cbn [history]. destruct (env _ _); split; reflexivity.
Qed.

Lemma never_succeeds_bind (A B : Type) (m : M A) (k : A -> M B) :
  (forall a env r, ~ succeeded (fst (k a env r))) ->
  forall env r, ~ succeeded (fst (bind m k env r)).
Proof.
  intros Hk env r. unfold bind.
  destruct (m env r) as [[a|e] r1]; [apply Hk|cbn; auto].
Qed.

Section Order.

Variable toLowerCase : jsstring -> jsstring.
Variables volumesDirectory cwd : jsstring.

Local Abbreviation installSteps :=
  (installSteps toLowerCase volumesDirectory cwd).
Local Abbreviation installAttempt :=
  (installAttempt toLowerCase volumesDirectory cwd).
Local Abbreviation runInstallation :=
  (runInstallation toLowerCase volumesDirectory cwd).
Local Abbreviation installCalls :=
  (installCalls toLowerCase volumesDirectory cwd).

(** The [try] block after the pulls. *)
Lemma installSteps_split (serverId : jsstring) (serverConfig : ServerConfig) :
  exists rest : M unit,
    installSteps serverId serverConfig
    = bind (logEvent serverId (js "Pulling required Docker images") None)
        (fun _ => bind (pullBoth serverId serverConfig) (fun _ => rest))
    /\ follows (installCalls serverId serverConfig) rest
    /\ (forall e,
          processVariables toLowerCase (script (install serverConfig))
            (variables serverConfig) = Throw e ->
          forall env r, ~ succeeded (fst (rest env r))).
Proof.
  eexists. split; [unfold Servers.installSteps; cbn zeta; reflexivity|].
  split.
  - unfold Statements.installCalls. cbn zeta.
    apply follows_then; [reflexivity|]. intros _.
    apply follows_call. intros _.
    apply follows_bind.
    { destruct (configFiles serverConfig) as [|file files] eqn:E.
      - apply follows_silent. reflexivity.
      - apply follows_then; [reflexivity|]. intros _.
        apply follows_writeConfigFiles. }
    intros _. apply follows_then; [reflexivity|]. intros _.
    destruct (processVariables toLowerCase (script (install serverConfig))
                (variables serverConfig)) as [processedScript|e].
    + apply follows_then; [reflexivity|]. intros _.
      apply follows_call. intros _.
      apply follows_then; [reflexivity|]. intros _.
      apply follows_call. intros _.
      apply follows_then; [reflexivity|]. intros _.
      apply follows_call. intros _.
      apply follows_call. intros _.
      apply follows_call. intros o.
      apply follows_silent. intros env r.
      destruct o as [| | |code chunks]; cbn zeta;
        unfold bind;
        match goal with
        | |- context [drainOutput ?i ?o ?c env r] =>
            pose proof (drainOutput_silent i c o env r) as Hd;
            destruct (drainOutput i o c env r) as [[out|e] r1]
        end; cbn [fst snd] in *; try assumption;
        try (destruct (Z.eqb _ 0)); cbn; assumption.
    + apply follows_silent. reflexivity.
  - intros e He.
    apply never_succeeds_bind. intros _.
    apply never_succeeds_bind. intros _.
    apply never_succeeds_bind. intros _.
    apply never_succeeds_bind. intros _.
    rewrite He. intros env r. cbn. auto.
Qed.


End Order.

End PlanFacts.

(** ** The exit code of the install container *)

Module ExitFacts.
Import Servers Inputs Statements JSFacts InstallFacts PlanFacts.

Lemma smooth_app (env : Env) (h c1 c2 : list Call) :
  smooth env h (c1 ++ c2) ->
  smooth env h c1 /\ smooth env (h ++ c1) c2.
Proof.
  intros H. split.
  - intros k c Hk.
    assert (Hlt : k < length c1) by (apply nth_error_Some; congruence).
    specialize (H k c). rewrite nth_error_app1, firstn_app in H by lia.
    replace (k - length c1) with 0 in H by lia.
    cbn [firstn] in H. rewrite app_nil_r in H. now apply H.
  - intros k c Hk. specialize (H (length c1 + k) c).
    rewrite nth_error_app2, firstn_app in H by lia.
    replace (length c1 + k - length c1) with k in H by lia.
    rewrite firstn_all2 in H by lia. rewrite <- app_assoc. now apply H.
Qed.

Lemma succeeds_bind (A B : Type) (c1 c2 : list Call) (m : M A)
    (k : A -> M B) :
  succeeds c1 m -> (forall a, succeeds c2 (k a)) ->
  succeeds (c1 ++ c2) (bind m k).
Proof.
  intros Hm Hk env r Hs. apply smooth_app in Hs as [H1 H2].
  destruct (Hm env r H1) as (a & r1 & Em & Hh & Hp).
  unfold bind. rewrite Em. rewrite <- Hh in H2.
  destruct (Hk a env r1 H2) as (b & r2 & Ek & Hh2 & Hp2).
  exists b, r2. split; [assumption|].
  split; [now rewrite Hh2, Hh, app_assoc|congruence].
Qed.

Lemma succeeds_log (l : LogLine) : succeeds [] (logLine l).
Proof.
  intros env r _. eexists tt, _. split; [reflexivity|].
  cbn [history pushed]. now rewrite app_nil_r.
Qed.

Lemma succeeds_ret (A : Type) (a : A) : succeeds [] (ret a).
Proof.
  intros env r _. exists a, r. split; [reflexivity|].
  now rewrite app_nil_r.
Qed.

Lemma succeeds_await (c : Call) : succeeds [c] (await c).
Proof.
  intros env r Hs. specialize (Hs 0 c eq_refl). cbn [firstn] in Hs.
  rewrite app_nil_r in Hs. rewrite await_unfold, Hs.
  eexists _, _. split; [reflexivity|]. split; reflexivity.
Qed.

Lemma succeeds_then (A B : Type) (calls : list Call) (m : M A)
    (k : A -> M B) :
  succeeds [] m -> (forall a, succeeds calls (k a)) ->
  succeeds calls (bind m k).
Proof. intros Hm Hk. now apply (succeeds_bind _ _ [] calls). Qed.

Lemma succeeds_call (B : Type) (c : Call) (calls : list Call)
    (k : Outcome -> M B) :
  (forall o, succeeds calls (k o)) -> succeeds (c :: calls) (bind (await c) k).
Proof.
  intros Hk. apply (succeeds_bind _ _ [c] calls); [apply succeeds_await|].
  exact Hk.
Qed.

Lemma succeeds_tryCatch (A : Type) (calls : list Call) (m : M A)
    (handler : jsstring -> M A) :
  succeeds calls m -> succeeds calls (tryCatch m handler).
Proof.
  intros Hm env r Hs. destruct (Hm env r Hs) as (a & r1 & Em & H).
  exists a, r1. unfold tryCatch. now rewrite Em.
Qed.

Lemma succeeds_pullDockerImage (image : jsstring) :
  succeeds [PullImage image] (pullDockerImage image).
Proof.
  apply succeeds_tryCatch. apply succeeds_then; [apply succeeds_log|].
  intros _. rewrite <- (app_nil_r [PullImage image]).
  apply succeeds_bind; [apply succeeds_await|]. intros _.
  apply succeeds_ret.
Qed.

Lemma succeeds_writeConfigFiles (volumePath : jsstring)
    (files : list ConfigFile) :
  succeeds (configCalls volumePath files)
    (writeConfigFiles volumePath files).
Proof.
  induction files as [|file rest IH]; [apply succeeds_ret|].
  cbn [writeConfigFiles configCalls flat_map app].
  fold (configCalls volumePath rest).
  apply succeeds_call. intros _.
  apply (succeeds_bind _ _ [WriteFile _ _ _]); [|intros _; exact IH].
  apply succeeds_tryCatch. rewrite <- (app_nil_r [WriteFile _ _ _]).
  apply succeeds_bind; [apply succeeds_await|]. intros _.
  apply succeeds_log.
Qed.

Lemma succeeds_pullBoth (serverId : jsstring) (serverConfig : ServerConfig) :
  succeeds
    [PullImage (install_dockerImage (install serverConfig));
     PullImage (dockerImage serverConfig)]
    (pullBoth serverId serverConfig).
Proof.
  intros env r Hs.
  apply (smooth_app env (history r) [_] [_]) in Hs as [H1 H2].
  unfold pullBoth.
  destruct (succeeds_bind _ _ [PullImage _] [] _
              (fun _ =>
                 logEvent serverId
                   (js "Successfully pulled install image: "
                    ++ install_dockerImage (install serverConfig)) None)
              (succeeds_pullDockerImage _) (fun _ => succeeds_log _)
              env r H1) as ([] & r1 & -> & Hh1 & Hp1).
  cbn [app] in Hh1. rewrite <- Hh1 in H2.
  destruct (succeeds_bind _ _ [PullImage _] [] _
              (fun _ =>
                 logEvent serverId
                   (js "Successfully pulled server image: "
                    ++ dockerImage serverConfig) None)
              (succeeds_pullDockerImage _) (fun _ => succeeds_log _)
              env r1 H2) as ([] & r2 & -> & Hh2 & Hp2).
  exists tt, r2. split; [reflexivity|]. cbn [app] in Hh2.
  split; [rewrite Hh2, Hh1, <- app_assoc; reflexivity|congruence].
Qed.

Lemma messages_cons (origin : OutputStream) (chunk : Buffer.buffer)
    (rest : list (OutputStream * Buffer.buffer)) :
  messages ((origin, chunk) :: rest)
  = match trim (Buffer.toString chunk) with
    | [] => messages rest
    | message => (origin, message) :: messages rest
    end.
Proof.
  unfold messages. cbn [map filter fst snd].
  destruct (trim (Buffer.toString chunk)); reflexivity.
Qed.

Lemma drainOutput_run (serverId : jsstring)
    (chunks : list (OutputStream * Buffer.buffer)) :
  forall output env r,
    exists r',
      drainOutput serverId output chunks env r
      = (Ok (output ++ outputOf chunks), r')
      /\ history r' = history r
      /\ pushed r' = pushed r ++ pushedOf serverId chunks.
Proof.
  induction chunks as [|[origin chunk] rest IH]; intros output env r.
  - exists r. cbn. now rewrite !app_nil_r.
  - cbn [drainOutput]. unfold outputOf, pushedOf. rewrite messages_cons.
    destruct (trim (Buffer.toString chunk)) as [|c message]; [apply IH|].
    cbn [flat_map fst snd].
    destruct origin; unfold bind; cbn [logEvent logLine push];
      match goal with
      | |- context [drainOutput serverId ?o rest env ?r1] =>
          destruct (IH o env r1) as (r' & -> & Hh & Hp)
      end;
      exists r'; cbn [history pushed] in *;
      (split; [now rewrite <- !app_assoc|]);
      (split; [assumption|]);
      rewrite Hp; unfold pushedOf; now rewrite <- ?app_assoc.
Qed.

Lemma bind_step (A B : Type) (c1 rest : list Call) (m : M A)
    (k : A -> M B) (env : Env) (r : Run) (w : Call) (o : Outcome) :
  succeeds c1 m ->
  smooth env (history r) (c1 ++ rest) ->
  env (history r ++ c1 ++ rest) w = o ->
  exists a r',
    bind m k env r = k a env r'
    /\ smooth env (history r') rest
    /\ env (history r' ++ rest) w = o
    /\ pushed r' = pushed r.
Proof.
  intros Hm Hs Hw. apply smooth_app in Hs as [H1 H2].
  destruct (Hm env r H1) as (a & r' & Em & Hh & Hp).
  exists a, r'. unfold bind. rewrite Em, Hh, <- app_assoc. auto.
Qed.

(** One step of a computation whose calls are answered without a
    failure. *)
Ltac advance c1 lemma :=
  match goal with
  | Hs : smooth ?env (history ?r) _,
    Hw : ?env (history ?r ++ _) ?w = ?o
    |- context [bind ?m ?k ?env ?r] =>
      let a := fresh "a" in
      let r' := fresh "r" in
      let E := fresh "E" in
      let Hs' := fresh "Hs" in
      let Hw' := fresh "Hw" in
      let Hp' := fresh "Hp" in
      destruct (bind_step _ _ c1 _ m k env r w o lemma Hs Hw)
        as (a & r' & E & Hs' & Hw' & Hp');
      rewrite E; cbn beta; clear E Hs Hw
  end.

Section Exit.

Variable toLowerCase : jsstring -> jsstring.
Variables volumesDirectory cwd : jsstring.

Local Abbreviation installSteps :=
  (installSteps toLowerCase volumesDirectory cwd).
Local Abbreviation runInstallation :=
  (runInstallation toLowerCase volumesDirectory cwd).
Local Abbreviation installCalls :=
  (installCalls toLowerCase volumesDirectory cwd).
Local Abbreviation volumePathOf := (volumePathOf volumesDirectory cwd).

Lemma succeeds_configFiles (serverId : jsstring) (volumePath : jsstring)
    (files : list ConfigFile) :
  succeeds (configCalls volumePath files)
    match files with
    | [] => ret tt
    | file :: rest =>
        bind
          (logEvent serverId
             (js "Writing " ++ decimalNat (length (file :: rest))
              ++ js " configuration files") None)
          (fun _ => writeConfigFiles volumePath (file :: rest))
    end.
Proof.
  destruct files as [|file files]; [apply succeeds_ret|].
  apply succeeds_then; [apply succeeds_log|]. intros _.
  apply succeeds_writeConfigFiles.
Qed.

(** The [try] block when every call before the wait is answered without
    a failure. *)
Lemma installSteps_exit (serverId : jsstring) (serverConfig : ServerConfig)
    (env : Env) (r : Run) (processedScript : jsstring) (code : Z)
    (chunks : list (OutputStream * Buffer.buffer)) :
  let calls := installCalls serverId serverConfig in
  let pulls :=
    [PullImage (install_dockerImage (install serverConfig));
     PullImage (dockerImage serverConfig)] in
  processVariables toLowerCase (script (install serverConfig))
    (variables serverConfig) = Ok processedScript ->
  smooth env (history r) (pulls ++ removelast calls) ->
  env (history r ++ pulls ++ removelast calls)
    (Wait (installContainerName serverId))
  = Exited code chunks ->
  exists r',
    installSteps serverId serverConfig env r
    = (if (code =? 0)%Z then Ok tt
       else Throw (js "Installation failed with exit code "
                   ++ decimalZ code ++ js ". Output: " ++ outputOf chunks),
       r')
    /\ pushed r' = pushed r ++ pushedOf serverId chunks.
Proof.
  cbn zeta. intros Hpv. unfold Statements.installCalls. cbn zeta. rewrite Hpv.
  set (vp := volumePathOf serverId).
  set (name := installContainerName serverId).
  set (files := configCalls vp (configFiles serverConfig)).
  assert (Hshape :
            removelast
              (Mkdir vp
               :: files
                  ++ [WriteFile (Path.join vp (js "install.sh"))
                        (scriptContent processedScript) (Some 493%N);
                      CreateContainer name
                        (install_dockerImage (install serverConfig))
                        [vp ++ js ":/mnt/server"] true;
                      Attach name; Start name; Wait name])
            = [Mkdir vp] ++ files
              ++ [WriteFile (Path.join vp (js "install.sh"))
                    (scriptContent processedScript) (Some 493%N)]
              ++ [CreateContainer name
                    (install_dockerImage (install serverConfig))
                    [vp ++ js ":/mnt/server"] true]
              ++ [Attach name] ++ [Start name] ++ []).
  { change (Mkdir vp :: files ++ ?l) with ((Mkdir vp :: files) ++ l).
    rewrite removelast_app by discriminate. reflexivity. }
  rewrite Hshape. clear Hshape. intros Hs Hw.
  unfold Servers.installSteps. cbn zeta. rewrite Hpv.
  fold vp name.
  advance (@nil Call) (succeeds_log
                      (ServerEvent serverId
                         (js "Pulling required Docker images") None)).
  advance [PullImage (install_dockerImage (install serverConfig));
        PullImage (dockerImage serverConfig)]
    (succeeds_pullBoth serverId serverConfig).
  advance (@nil Call)
    (succeeds_log
       (ServerEvent serverId (js "Creating volume directory at: " ++ vp)
          None)).
  advance [Mkdir vp] (succeeds_await (Mkdir vp)).
  advance files (succeeds_configFiles serverId vp (configFiles serverConfig)).
  advance (@nil Call)
    (succeeds_log
       (ServerEvent serverId
          (js "Creating installation container: " ++ name) None)).
  advance (@nil Call)
    (succeeds_log
       (ServerEvent serverId (js "Writing installation script") None)).
  advance [WriteFile (Path.join vp (js "install.sh"))
          (scriptContent processedScript) (Some 493%N)]
    (succeeds_await
       (WriteFile (Path.join vp (js "install.sh"))
          (scriptContent processedScript) (Some 493%N))).
  advance (@nil Call)
    (succeeds_log
       (ServerEvent serverId
          (js "Script content written to disk with executable permissions")
          None)).
  advance [CreateContainer name (install_dockerImage (install serverConfig))
          [vp ++ js ":/mnt/server"] true]
    (succeeds_await
       (CreateContainer name (install_dockerImage (install serverConfig))
          [vp ++ js ":/mnt/server"] true)).
  advance (@nil Call)
    (succeeds_log
       (ServerEvent serverId (js "Starting installation container") None)).
  advance [Attach name] (succeeds_await (Attach name)).
  advance [Start name] (succeeds_await (Start name)).
  match goal with
  | Hw : env (history ?r13 ++ []) _ = _ |- _ =>
      rewrite app_nil_r in Hw;
      unfold bind at 1; rewrite await_unfold, Hw; cbn [failure];
      destruct (drainOutput_run serverId chunks [] env
                  (called r13 (Wait name)))
        as (r14 & Hd & Hh14 & Hp14)
  end.
  unfold bind. rewrite Hd. cbn [app].
  assert (Hpushed : pushed r14 = pushed r ++ pushedOf serverId chunks).
  { rewrite Hp14. cbn [called pushed]. congruence. }
  destruct (code =? 0)%Z.
  - eexists. split; [reflexivity|]. exact Hpushed.
  - exists r14. split; [reflexivity|exact Hpushed].
Qed.

Lemma cleanup_pushed (serverId : jsstring) (env : Env) (r : Run) :
  fst (cleanupInstallContainer serverId env r) = Ok tt
  /\ pushed (snd (cleanupInstallContainer serverId env r)) = pushed r.
Proof.
  unfold cleanupInstallContainer, tryCatch, bind, call, logEvent, logLine.
  cbn [history]. destruct (env _ _); split; reflexivity.
Qed.

(** The exit code of the install container decides the installation.
    When every call before the wait is answered without a failure and the
    container exits, the installation completes normally for the code 0
    and throws for any other code, with a message that gives the code and
    the output of the container: its chunks that are not blank, from
    standard output and standard error alike, trimmed and each followed
    by a newline.  The chunks of standard output, and only they, are
    pushed to the connected clients, whether the installation succeeds
    or not. *)
Theorem installation_exit_code (serverId : jsstring)
    (serverConfig : ServerConfig) (env : Env) (run0 : Run)
    (processedScript : jsstring) (code : Z)
    (chunks : list (OutputStream * Buffer.buffer)) :
  let final := runInstallation serverId serverConfig env run0 in
  let calls := installCalls serverId serverConfig in
  let pulls :=
    [PullImage (install_dockerImage (install serverConfig));
     PullImage (dockerImage serverConfig)] in
  processVariables toLowerCase (script (install serverConfig))
    (variables serverConfig) = Ok processedScript ->
  smooth env (history run0) (pulls ++ removelast calls) ->
  env (history run0 ++ pulls ++ removelast calls)
    (Wait (installContainerName serverId))
  = Exited code chunks ->
  fst final
  = (if (code =? 0)%Z then Ok tt
     else Throw (js "Installation failed with exit code "
                 ++ decimalZ code ++ js ". Output: " ++ outputOf chunks))
  /\ pushed (snd final) = pushed run0 ++ pushedOf serverId chunks.
Proof.
  cbn zeta. intros Hpv Hs Hw.
  remember (runInstallation serverId serverConfig env run0) as final
    eqn:Hfinal.
  unfold Servers.runInstallation, Servers.installAttempt in Hfinal.
  unfold bind at 1 in Hfinal. cbn [logEvent logLine] in Hfinal.
  match type of Hfinal with
  | context [tryFinally _ _ env ?r1] =>
      destruct (installSteps_exit serverId serverConfig env r1
                  processedScript code chunks Hpv Hs Hw)
        as (r2 & Hsteps & Hpushed)
  end.
  unfold tryFinally, tryCatch in Hfinal. rewrite Hsteps in Hfinal.
  cbn [pushed] in Hpushed.
  destruct (code =? 0)%Z.
  - destruct (cleanup_pushed serverId env r2) as [C1 C2].
    destruct (cleanupInstallContainer serverId env r2) as [c r3].
    cbn [fst snd] in *. subst c final. cbn [fst snd].
    split; [reflexivity|]. congruence.
  - unfold bind, throw in Hfinal. cbn [logEvent logLine] in Hfinal.
    match type of Hfinal with
    | context [cleanupInstallContainer serverId env ?r3] =>
        destruct (cleanup_pushed serverId env r3) as [C1 C2];
        destruct (cleanupInstallContainer serverId env r3) as [c r4]
    end.
    cbn [fst snd pushed] in *. subst c final. cbn [fst snd].
    split; [reflexivity|]. congruence.
Qed.

End Exit.

Lemma installation_exit_code_witness :
  fst (runInstallation asciiLower (js "/volumes") (js "/") (js "srv1")
         (sampleConfig "server.properties") failingScriptHost emptyRun)
  = Throw (js "Installation failed with exit code 2. Output: no such file"
           ++ newline)
  /\ pushed
       (snd (runInstallation asciiLower (js "/volumes") (js "/") (js "srv1")
               (sampleConfig "server.properties") failingScriptHost
               emptyRun))
     = [].
Proof.
  apply (installation_exit_code asciiLower (js "/volumes") (js "/")
           (js "srv1") (sampleConfig "server.properties") failingScriptHost
           emptyRun (js "echo installing") 2
           [(Stderr, Buffer.ofAscii "no such file")]).
  - reflexivity.
  - intros k c _. destruct c; reflexivity.
  - reflexivity.
Defined.

End ExitFacts.

(** ** Log frames, subscriptions and the sampling callback *)

Module WireFacts.
Import Console Inputs Statements JSFacts SessionFacts.

(** *** Frames *)

Lemma to_N_byteOf (n : N) : (n < 256)%N -> Byte.to_N (byteOf n) = n.
Proof.
  intros H. unfold byteOf. destruct (Byte.of_N n) as [b|] eqn:E.
  - now apply Byte.to_of_N.
  - apply Byte.of_N_None_iff in E. lia.
Qed.

Lemma toString_ascii_from (bytes : Buffer.buffer) :
  Forall (fun b => (Byte.to_N b < 128)%N) bytes ->
  Buffer.utf8Run Buffer.utf8Initial bytes = map Byte.to_N bytes.
Proof.
  induction 1 as [|b bytes Hb _ IH]; [reflexivity|].
  cbn [Buffer.utf8Run map]. unfold Buffer.utf8Step.
  cbn [Buffer.bytesNeeded Buffer.utf8Initial]. unfold Buffer.utf8Lead.
  destruct (N.leb_spec (Byte.to_N b) 127); [|lia].
  cbn [app]. now rewrite IH.
Qed.

(** Decoding reads the first frame of a chunk and nothing else: the tag
    gives the type of the line (1 is standard output, anything else is
    reported as an error line), the payload gives its text, trimmed, and a
    payload that is blank gives no line.  Whatever follows the frame in the
    same chunk, a second frame for instance, is dropped.  A payload of
    7-bit characters is read as it is. *)
Theorem frame_round_trip (tag : N) (payload rest : Buffer.buffer) :
  (tag < 256)%N -> (N.of_nat (length payload) < 4294967296)%N ->
  decodeLogChunk (frame tag payload ++ rest)
  = Ok match trim (Buffer.toString payload) with
       | [] => None
       | text => Some (if (tag =? 1)%N then INFO else ERROR, text)
       end
  /\ (Forall (fun b => (Byte.to_N b < 128)%N) payload ->
      Buffer.toString payload = map Byte.to_N payload).
Proof.
  intros Htag Hlen. split; [|apply toString_ascii_from].
  unfold decodeLogChunk, frame. cbn zeta.
  set (len := N.of_nat (length payload)) in *.
  cbn [app Buffer.readUInt8 nth_error Buffer.readUInt32BE skipn].
  rewrite (to_N_byteOf tag Htag).
  pose proof (N.div_mod' len 256) as D0.
  pose proof (N.div_mod' (len / 256) 256) as D1.
  pose proof (N.div_mod' (len / 256 / 256) 256) as D2.
  pose proof (N.mod_lt len 256 ltac:(lia)) as M0.
  pose proof (N.mod_lt (len / 256) 256 ltac:(lia)) as M1.
  pose proof (N.mod_lt (len / 256 / 256) 256 ltac:(lia)) as M2.
  assert (M3 : (len / 256 / 256 / 256 < 256)%N).
  { rewrite !N.Div0.div_div. apply N.Div0.div_lt_upper_bound. lia. }
  rewrite !to_N_byteOf by assumption.
  replace (len / 256 / 256 / 256 * 16777216
           + (len / 256 / 256) mod 256 * 65536
           + (len / 256) mod 256 * 256 + len mod 256)%N
    with len by lia.
  assert (Hslice :
            Buffer.bufSlice
              (byteOf tag :: x00 :: x00 :: x00
               :: byteOf (len / 256 / 256 / 256)
               :: byteOf ((len / 256 / 256) mod 256)
               :: byteOf ((len / 256) mod 256)
               :: byteOf (len mod 256) :: payload ++ rest)
              8 (8 + N.to_nat len) = payload).
  { unfold Buffer.bufSlice. cbn [skipn].
    replace (8 + N.to_nat len - 8) with (length payload)
      by (unfold len; lia).
    rewrite firstn_app, Nat.sub_diag, firstn_all. cbn. apply app_nil_r. }
  rewrite Hslice. destruct (trim (Buffer.toString payload)); reflexivity.
Qed.

Lemma frame_round_trip_witness :
  decodeLogChunk
    (frame 2 (Buffer.ofAscii "warn: low memory  ")
     ++ frame 1 (Buffer.ofAscii "next line"))
  = Ok (Some (ERROR, js "warn: low memory")).
Proof.
  destruct (frame_round_trip 2 (Buffer.ofAscii "warn: low memory  ")
              (frame 1 (Buffer.ofAscii "next line")))
    as [H _]; [reflexivity|reflexivity|].
  exact H.
Defined.

(** *** One copy for each subscription *)

Section Copies.

Variable chalk : Chalk.

Lemma relay_fold_frame (id line : jsstring) (l : list nat) :
  forall m,
    sessions (fold_left (relay id line) l m) = sessions m
    /\ forall id' sock,
         listening id' sock (fold_left (relay id line) l m)
         = listening id' sock m.
Proof.
  induction l as [|k l IH]; intros m; [auto|].
  cbn [fold_left]. destruct (IH (relay id line m k)) as [S L].
  destruct (relay_frame id line m k) as (_ & S1 & _).
  split; [congruence|].
  intros id' sock. rewrite L. apply listening_relay.
Qed.

Lemma broadcast_frame (id log : jsstring) (type : LogType) (m : Manager) :
  sessions (broadcastToServer chalk id log type m) = sessions m
  /\ forall id' sock,
       listening id' sock (broadcastToServer chalk id log type m)
       = listening id' sock m.
Proof.
  rewrite broadcast_unfold.
  destruct (relay_fold_frame id (formatLogMessage chalk type log)
              (sessions m)
              (addLogToBuffer id (formatLogMessage chalk type log) m))
    as [S L].
  split; [exact S|]. intros id' sock. now rewrite L.
Qed.

Lemma broadcast_delivered (id log : jsstring) (type : LogType)
    (m : Manager) (sock : nat) :
  deliveredTo sock (broadcastToServer chalk id log type m)
  = deliveredTo sock m
    ++ (if listening id sock m
        then repeat (console_output (formatLogMessage chalk type log))
               (count_occ Nat.eq_dec (sessions m) sock)
        else []).
Proof. rewrite broadcast_unfold, relay_fold_delivered. reflexivity. Qed.

(** Every session opens a log subscription of its own, and the listener
    of each subscription broadcasts what it reads to all the sessions of
    the server.  So when the engine delivers one frame to each of the
    subscriptions of a server, every client attached to that server is
    sent the line once for each subscription, and the buffer of the server
    gets it as many times. *)
Theorem one_copy_per_subscription (id : jsstring) (chunk : Buffer.buffer)
    (type : LogType) (text : jsstring) (subscribers : list ConsoleSession)
    (m : Manager) (sock : nat) :
  decodeLogChunk chunk = Ok (Some (type, text)) ->
  Forall (fun s => internalId s = id) subscribers ->
  let line := formatLogMessage chalk type text in
  let m' :=
    fold_left (fun acc s => onLogData chalk s chunk acc) subscribers m in
  deliveredTo sock m'
  = deliveredTo sock m
    ++ (if listening id sock m
        then repeat (console_output line)
               (length subscribers
                * count_occ Nat.eq_dec (sessions m) sock)
        else [])
  /\ bufferOf id m'
     = fold_left pushCapped (repeat line (length subscribers))
         (bufferOf id m).
Proof.
  intros Hdec Hall. cbn zeta. revert m.
  induction Hall as [|s subscribers Hs _ IH]; intros m.
  - cbn. destruct (listening id sock m); now rewrite app_nil_r.
  - cbn [fold_left length repeat Nat.mul].
    assert (Hstep : onLogData chalk s chunk m
                    = broadcastToServer chalk id text type m).
    { unfold onLogData. now rewrite Hdec, Hs. }
    rewrite Hstep. destruct (IH (broadcastToServer chalk id text type m))
      as [D B].
    destruct (broadcast_frame id text type m) as [S L].
    split.
    + rewrite D, broadcast_delivered, L, S, <- app_assoc. f_equal.
      destruct (listening id sock m); [|reflexivity].
      now rewrite repeat_app.
    + rewrite B, broadcast_buffer. reflexivity.
Qed.

End Copies.

Lemma one_copy_per_subscription_witness :
  let m :=
    run plainChalk emptyManager
      (attachEvents 1 "running" ++ attachEvents 2 "running") in
  let m' :=
    fold_left (fun acc s => onLogData plainChalk s helloChunk acc)
      [sampleSession 1; sampleSession 2] m in
  deliveredTo 1 m'
  = [auth_success [] (js "running");
     console_output (js "hello"); console_output (js "hello")]
  /\ bufferOf (js "int-1") m' = [js "hello"; js "hello"].
Proof.
  pose proof (one_copy_per_subscription plainChalk (js "int-1") helloChunk
                INFO (js "hello") [sampleSession 1; sampleSession 2]
                (run plainChalk emptyManager
                   (attachEvents 1 "running" ++ attachEvents 2 "running"))
                1 eq_refl) as H.
  vm_compute in H. vm_compute. apply H. repeat constructor.
Defined.

(** *** The sampling callback *)

Section Sampling.

Variable chalk : Chalk.

Lemma takePending_some (A : Type) (pick : Pending -> option A)
    (l : list Pending) (x : Pending) (a : A) :
  In x l -> pick x = Some a ->
  exists b rest, takePending pick l = Some (b, rest).
Proof.
  intros Hin Hx. induction l as [|p l IH]; [contradiction|]. cbn.
  destruct (pick p) as [b|] eqn:Hp; [eauto|].
  destruct Hin as [->|Hin]; [congruence|].
  destruct (IH Hin) as (b & rest & ->). eauto.
Qed.

Lemma takePending_rest (A : Type) (pick : Pending -> option A)
    (l rest : list Pending) (a : A) :
  takePending pick l = Some (a, rest) -> forall q, In q rest -> In q l.
Proof.
  revert rest. induction l as [|p l IH]; intros rest; cbn; [discriminate|].
  destruct (pick p) as [b|].
  - intros H q Hq. inversion H; subst. now right.
  - destruct (takePending pick l) as [[b rest']|]; [|discriminate].
    intros H q Hq. inversion H; subst.
    destruct Hq as [->|Hq]; [now left|]. right. now apply (IH rest').
Qed.

Lemma pickTickInspect_self (sock : nat) :
  pickTickInspect sock (AwaitTickInspect sock) = Some tt.
Proof. cbn. unfold forSocket. now rewrite Nat.eqb_refl. Qed.

Lemma pickTickStats_self (sock : nat) (state : jsstring) :
  pickTickStats sock (AwaitTickStats sock state) = Some state.
Proof. cbn. unfold forSocket. now rewrite Nat.eqb_refl. Qed.

(** What a tick of the sampling timer sends.  For a container that is not
    running the client is sent a [stats] event with the state and no
    metrics; for a running one, once the engine has answered, a [stats]
    event with the state and the metrics computed from the answer.  When
    the engine fails to answer either call the failure is written to the
    daemon's console and the client is sent nothing.  Nothing is sent to a
    socket that is not open. *)
Theorem stats_tick (m : Manager) (i sock : nat)
    (answer : completion ContainerInfo)
    (sample : completion ContainerStatsResponse) :
  lookup Nat.eqb i (intervals m) = Some sock ->
  (forall p, In p (pending m) -> pickTickStats sock p = None) ->
  let tick := [IntervalElapsed i; TickInspectReturned sock answer] in
  let sent (event : OutboundEvent) :=
    deliveredTo sock m ++ (if openAt sock m then [event] else []) in
  match answer with
  | Throw e =>
      deliveredTo sock (run chalk m tick) = deliveredTo sock m
      /\ consoleErrors (run chalk m tick)
         = consoleErrors m ++ [js "Failed to get container stats: " ++ e]
  | Ok info =>
      if jseqb (Status info) (js "running") then
        deliveredTo sock (run chalk m tick) = deliveredTo sock m
        /\ match sample with
           | Ok st =>
               deliveredTo sock
                 (run chalk m (tick ++ [TickStatsReturned sock sample]))
               = sent (stats (Status info) (Some (metricsOf st)))
           | Throw e =>
               deliveredTo sock
                 (run chalk m (tick ++ [TickStatsReturned sock sample]))
               = deliveredTo sock m
               /\ consoleErrors
                    (run chalk m (tick ++ [TickStatsReturned sock sample]))
                  = consoleErrors m
                    ++ [js "Failed to get container stats: " ++ e]
           end
      else
        deliveredTo sock (run chalk m tick)
        = sent (stats (Status info) None)
  end.
Proof.
  intros Hi Hnone. cbn zeta.
  assert (Hfirst : step chalk m (IntervalElapsed i)
                   = addPending m (AwaitTickInspect sock)).
  { cbn [step]. unfold onInterval. now rewrite Hi. }
  destruct (takePending_some _ (pickTickInspect sock)
              (pending m ++ [AwaitTickInspect sock])
              (AwaitTickInspect sock) tt) as ([] & rest & Htake).
  { apply in_or_app. right. now left. }
  { apply pickTickInspect_self. }
  assert (Hrest : forall p, In p rest -> pickTickStats sock p = None).
  { intros p Hp.
    apply (takePending_rest _ _ _ _ _ Htake) in Hp.
    apply in_app_or in Hp as [Hp|[<-|[]]]; [now apply Hnone|reflexivity]. }
  assert (Htick : run chalk m
                    [IntervalElapsed i; TickInspectReturned sock answer]
                  = tickAfterInspect sock answer (setPending m rest)).
  { unfold run. cbn [fold_left]. rewrite Hfirst. cbn [step].
    unfold resume, addPending. cbn [pending setPending]. now rewrite Htake. }
  rewrite run_app, Htick.
  destruct answer as [info|e]; cbn [tickAfterInspect].
  - destruct (jseqb (Status info) (js "running")).
    + split; [reflexivity|].
      unfold run. cbn [fold_left step]. unfold resume, addPending.
      cbn [pending setPending].
      rewrite (takePending_last _ (pickTickStats sock) rest
                 (AwaitTickStats sock (Status info)) (Status info) Hrest
                 (pickTickStats_self sock (Status info))).
      destruct sample as [st|e]; cbn [tickAfterStats].
      * rewrite deliveredTo_send, Nat.eqb_refl. reflexivity.
      * split; reflexivity.
    + rewrite deliveredTo_send, Nat.eqb_refl. reflexivity.
  - split; reflexivity.
Qed.

End Sampling.

Lemma stats_tick_witness :
  deliveredTo 1
    (run plainChalk (run plainChalk emptyManager (attachEvents 1 "exited"))
       [IntervalElapsed 0; TickInspectReturned 1 (Ok (stateOf "exited"))])
  = deliveredTo 1 (run plainChalk emptyManager (attachEvents 1 "exited"))
    ++ [stats (js "exited") None].
Proof.
  pose proof (stats_tick plainChalk
                (run plainChalk emptyManager (attachEvents 1 "exited"))
                0 1 (Ok (stateOf "exited")) (Throw [])) as H.
  cbn zeta in H. apply H; [reflexivity|].
  intros p Hp. vm_compute in Hp. contradiction.
Defined.

End WireFacts.

(** ** The token gate *)

Module GateFacts.
Import Console Inputs Statements JSFacts SessionFacts.

Section Assoc.
Variable V : Type.

Lemma lookup_assign_inv (s k : nat) (v x : V) (l : list (nat * V)) :
  lookup Nat.eqb s (assign Nat.eqb k v l) = Some x ->
  s = k /\ x = v \/ lookup Nat.eqb s l = Some x.
Proof.
  destruct (Nat.eq_dec s k) as [->|Hne].
  - rewrite lookup_assign_same. intros H; inversion H; auto.
  - rewrite lookup_assign_other by assumption. auto.
Qed.

Lemma lookup_remove_inv (s k : nat) (x : V) (l : list (nat * V)) :
  lookup Nat.eqb s (remove Nat.eqb k l) = Some x ->
  lookup Nat.eqb s l = Some x.
Proof.
  destruct (Nat.eq_dec s k) as [->|Hne].
  - now rewrite lookup_remove_same.
  - now rewrite lookup_remove_other.
Qed.

End Assoc.

Lemma forSocket_inv (A : Type) (sock s : nat) (a b : A) :
  forSocket sock s a = Some b -> s = sock.
Proof.
  unfold forSocket. destruct (Nat.eqb_spec s sock); [auto|discriminate].
Qed.

(** The socket of a pending call that a turn picks. *)
Ltac picked :=
  let p := fresh "p" in
  let a := fresh "a" in
  let H := fresh "H" in
  intros p a H; destruct p; cbn in H; try discriminate;
  apply forSocket_inv in H; subst; reflexivity.

Section Gate.

Variable chalk : Chalk.
Variable P : nat -> Prop.

(** A turn that adds nothing to what the manager holds. *)
Lemma Gated_fields (m m' : Manager) :
  Gated P m ->
  incl (pending m') (pending m) ->
  sessionObjects m' = sessionObjects m -> incl (sessions m') (sessions m) ->
  sockets m' = sockets m ->
  (forall i s, lookup Nat.eqb i (intervals m') = Some s ->
               lookup Nat.eqb i (intervals m) = Some s) ->
  (forall st s, lookup Nat.eqb st (logStreams m') = Some s ->
                lookup Nat.eqb st (logStreams m) = Some s) ->
  Gated P m'.
Proof.
  intros [G1 G2 G3 G4 G5 G6] Hp Ho Hs Hk Hi Hl. split.
  - intros p s Hin. apply G1. now apply Hp.
  - rewrite Ho. exact G2.
  - intros s Hin. apply G3. now apply Hs.
  - rewrite Hk. exact G4.
  - intros i s H. apply (G5 i). now apply Hi.
  - intros st s H. apply (G6 st). now apply Hl.
Qed.

Ltac fields :=
  eapply Gated_fields;
  [eassumption|try apply incl_refl|try reflexivity|try apply incl_refl
  |try reflexivity|try (intros; assumption)|try (intros; assumption)].

(** A turn that rewrites one socket. *)
Lemma Gated_socket (m : Manager) (k : nat) (s s' : Socket) :
  Gated P m -> lookup Nat.eqb k (sockets m) = Some s ->
  (engaged s' -> engaged s \/ P k) ->
  Gated P (setSockets m (assign Nat.eqb k s' (sockets m))).
Proof.
  intros [G1 G2 G3 G4 G5 G6] Hk He. split; try assumption.
  intros s0 x H Hx. cbn [sockets setSockets] in H.
  apply lookup_assign_inv in H as [[-> ->]|H]; [|now apply (G4 s0 x)].
  destruct (He Hx) as [Hs|Hp]; [now apply (G4 k s)|assumption].
Qed.

Lemma Gated_send (k : nat) (ev : OutboundEvent) (m : Manager) :
  Gated P m -> P k -> Gated P (send k ev m).
Proof.
  intros G Hk. unfold send.
  destruct (lookup Nat.eqb k (sockets m)) as [s|] eqn:E; [|exact G].
  destruct (isOpen s); [|exact G].
  apply Gated_socket with (s := s); auto.
Qed.

Lemma Gated_close (k : nat) (code : N) (reason : jsstring) (m : Manager) :
  Gated P m -> Gated P (close k code reason m).
Proof.
  intros G. unfold close.
  destruct (lookup Nat.eqb k (sockets m)) as [s|] eqn:E; [|exact G].
  destruct (isOpen s); [|exact G].
  apply Gated_socket with (s := s); auto.
Qed.

Lemma Gated_onClose (k : nat) (l : CloseListener) (m : Manager) :
  Gated P m -> P k -> Gated P (onClose k l m).
Proof.
  intros G Hk. unfold onClose.
  destruct (lookup Nat.eqb k (sockets m)) as [s|] eqn:E; [|exact G].
  apply Gated_socket with (s := s); auto.
Qed.

Lemma Gated_onMessage (k : nat) (m : Manager) :
  Gated P m -> P k -> Gated P (onMessage k m).
Proof.
  intros G Hk. unfold onMessage.
  destruct (lookup Nat.eqb k (sockets m)) as [s|] eqn:E; [|exact G].
  apply Gated_socket with (s := s); auto.
Qed.

Lemma Gated_addPending (p : Pending) (m : Manager) :
  Gated P m -> (forall s, socketOf p = Some s -> P s) ->
  Gated P (addPending m p).
Proof.
  intros [G1 G2 G3 G4 G5 G6] Hp. split; try assumption.
  intros q s Hin Hq. cbn in Hin.
  apply in_app_or in Hin as [Hin|[<-|[]]]; [now apply (G1 q)|now apply Hp].
Qed.

Lemma Gated_setPending (rest : list Pending) (m : Manager) :
  Gated P m -> incl rest (pending m) -> Gated P (setPending m rest).
Proof. intros G H. fields. exact H. Qed.

Lemma Gated_consoleError (line : jsstring) (m : Manager) :
  Gated P m -> Gated P (consoleError m line).
Proof. intros G. fields. Qed.

Lemma Gated_relay (id line : jsstring) (m : Manager) (k : nat) :
  Gated P m -> Gated P (relay id line m k).
Proof.
  intros G. unfold relay.
  destruct (lookup Nat.eqb k (sessionObjects m)) as [x|] eqn:E; [|exact G].
  destruct (jseqb (internalId x) id && authenticated x); [|exact G].
  apply Gated_send; [exact G|]. eapply gated_objects; eassumption.
Qed.

Lemma Gated_relay_fold (id line : jsstring) (l : list nat) :
  forall m, Gated P m -> Gated P (fold_left (relay id line) l m).
Proof.
  induction l as [|k l IH]; intros m G; [exact G|].
  cbn [fold_left]. apply IH. now apply Gated_relay.
Qed.

Lemma Gated_broadcast (id log : jsstring) (type : LogType) (m : Manager) :
  Gated P m -> Gated P (broadcastToServer chalk id log type m).
Proof.
  intros G. rewrite broadcast_unfold. apply Gated_relay_fold. fields.
Qed.

Lemma Gated_attachLogs (k : nat) (m : Manager) :
  Gated P m -> P k -> Gated P (attachLogs k m).
Proof.
  intros G Hk. unfold attachLogs.
  destruct (lookup Nat.eqb k (sessionObjects m)) as [x|]; [|exact G].
  apply Gated_addPending; [|intros s H; inversion H; subst; exact Hk].
  destruct (logStream x); [|exact G].
  fields. intros st s H. cbn in H. now apply lookup_remove_inv in H.
Qed.

Lemma Gated_startResourceMonitoring (k : nat) (m : Manager) :
  Gated P m -> P k -> Gated P (startResourceMonitoring k m).
Proof.
  intros G Hk. unfold startResourceMonitoring.
  apply Gated_onClose; [|exact Hk].
  destruct G as [G1 G2 G3 G4 G5 G6]. split; try assumption.
  intros i s H. cbn in H.
  apply lookup_app_new in H as [H| ->]; [now apply (G5 i)|exact Hk].
Qed.

Lemma Gated_setupFailed (k : nat) (e : jsstring) (m : Manager) :
  Gated P m -> Gated P (setupFailed k e m).
Proof.
  intros G. unfold setupFailed. now apply Gated_close, Gated_consoleError.
Qed.

Lemma Gated_setupAfterRow (k : nat) (v : ValidateResponse)
    (row : completion (option jsstring)) (m : Manager) :
  Gated P m -> P k -> Gated P (setupAfterRow k v row m).
Proof.
  intros G Hk. unfold setupAfterRow.
  destruct row as [[[|c id]|]|e]; try now apply Gated_setupFailed.
  apply Gated_addPending; [|intros s H; inversion H; subst; exact Hk].
  destruct G as [G1 G2 G3 G4 G5 G6]. split; try assumption.
  - intros s x H. cbn in H.
    apply lookup_assign_inv in H as [[-> _]|H]; [exact Hk|now apply (G2 s x)].
  - intros s H. cbn in H.
    destruct (existsb (Nat.eqb k) (sessions m)); [now apply G3|].
    apply in_app_or in H as [H|[<-|[]]]; [now apply G3|exact Hk].
Qed.

Lemma Gated_setupAfterInspect (k : nat) (answer : completion ContainerInfo)
    (m : Manager) :
  Gated P m -> P k -> Gated P (setupAfterInspect k answer m).
Proof.
  intros G Hk. unfold setupAfterInspect.
  destruct answer; [|now apply Gated_setupFailed].
  apply Gated_onClose; [|exact Hk]. apply Gated_onMessage; [|exact Hk].
  apply Gated_startResourceMonitoring; [|exact Hk].
  apply Gated_attachLogs; [|exact Hk]. now apply Gated_send.
Qed.

Lemma Gated_logsReturned (k : nat) (answer : completion (option nat))
    (m : Manager) :
  Gated P m -> P k -> Gated P (logsReturned chalk k answer m).
Proof.
  intros G Hk. unfold logsReturned.
  destruct (lookup Nat.eqb k (sessionObjects m)) as [x|]; [|exact G].
  destruct answer as [[n|]|[|c e]]; try now apply Gated_broadcast.
  destruct G as [G1 G2 G3 G4 G5 G6]. split; try assumption.
  - intros s y H. cbn in H.
    apply lookup_assign_inv in H as [[-> _]|H]; [exact Hk|now apply (G2 s y)].
  - intros st s H. cbn in H.
    apply lookup_app_new in H as [H| ->]; [now apply (G6 st)|exact Hk].
Qed.

Lemma Gated_teardown (k : nat) (m : Manager) :
  Gated P m -> Gated P (teardown k m).
Proof.
  intros G. unfold teardown.
  assert (G1 : Gated P
                 match lookup Nat.eqb k (sessionObjects m) with
                 | Some session =>
                     match logStream session with
                     | Some st =>
                         setLogStreams m (remove Nat.eqb st (logStreams m))
                     | None => m
                     end
                 | None => m
                 end).
  { destruct (lookup Nat.eqb k (sessionObjects m)) as [x|]; [|exact G].
    destruct (logStream x); [|exact G].
    fields. intros st s H. cbn in H. now apply lookup_remove_inv in H. }
  revert G1. generalize (match lookup Nat.eqb k (sessionObjects m) with
                         | Some session =>
                             match logStream session with
                             | Some st =>
                                 setLogStreams m
                                   (remove Nat.eqb st (logStreams m))
                             | None => m
                             end
                         | None => m
                         end).
  intros m1 G1. fields. cbn. intros s H. apply filter_In in H. tauto.
Qed.

Lemma Gated_socketClosed (k : nat) (m : Manager) :
  Gated P m -> Gated P (socketClosed k m).
Proof.
  intros G. unfold socketClosed.
  destruct (lookup Nat.eqb k (sockets m)) as [s|] eqn:E; [|exact G].
  assert (Hls : forall ls m0,
             Gated P m0 -> Gated P (fold_left (runCloseListener k) ls m0)).
  { induction ls as [|l ls IH]; intros m0 G0; [exact G0|].
    cbn [fold_left]. apply IH. destruct l as [j|].
    - cbn [runCloseListener]. fields.
      intros i s0 H. cbn in H. now apply lookup_remove_inv in H.
    - now apply Gated_teardown. }
  destruct (readyState s); try exact G; apply Hls;
    (apply Gated_socket with (s := s); [exact G|exact E|auto]).
Qed.

Lemma takePending_picked (A : Type) (pick : Pending -> option A)
    (l rest : list Pending) (a : A) :
  takePending pick l = Some (a, rest) ->
  (exists p, In p l /\ pick p = Some a) /\ incl rest l.
Proof.
  revert rest. induction l as [|p l IH]; intros rest; cbn; [discriminate|].
  destruct (pick p) as [b|] eqn:Hp.
  - intros H. inversion H; subst. split.
    + exists p. split; [now left|assumption].
    + intros q Hq. now right.
  - destruct (takePending pick l) as [[b rest']|]; [|discriminate].
    intros H. inversion H; subst.
    destruct (IH rest' eq_refl) as ((q & Hq & Hpick) & Hincl). split.
    + exists q. split; [now right|assumption].
    + intros x [->|Hx]; [now left|]. right. now apply Hincl.
Qed.

(** A continuation is resumed for a socket whose call was pending. *)
Lemma Gated_resume (A : Type) (pick : Pending -> option A)
    (k : A -> Manager -> Manager) (m : Manager) (sock : nat) :
  Gated P m ->
  (forall p a, pick p = Some a -> socketOf p = Some sock) ->
  (forall a m0, Gated P m0 -> P sock -> Gated P (k a m0)) ->
  Gated P (resume pick k m).
Proof.
  intros G Hpick Hk. unfold resume.
  destruct (takePending pick (pending m)) as [[a rest]|] eqn:E; [|exact G].
  destruct (takePending_picked _ _ _ _ _ E) as ((p & Hin & Hp) & Hincl).
  apply Hk; [now apply Gated_setPending|].
  eapply gated_pending; [exact G|exact Hin|now apply (Hpick p a)].
Qed.

Lemma Gated_powerFailed (k : nat) (action e : jsstring) (m : Manager) :
  Gated P m -> P k -> Gated P (powerFailed chalk k action e m).
Proof.
  intros G Hk. unfold powerFailed.
  destruct (lookup Nat.eqb k (sessionObjects m)); [|exact G].
  apply Gated_send; [|exact Hk].
  now apply Gated_consoleError, Gated_broadcast.
Qed.

End Gate.

Section Run.

Variable chalk : Chalk.

Lemma Gated_weaken (P Q : nat -> Prop) (m : Manager) :
  (forall s, P s -> Q s) -> Gated P m -> Gated Q m.
Proof.
  intros H [G1 G2 G3 G4 G5 G6].
  split; intros; apply H; eauto.
Qed.

(** One turn of the loop: what the manager holds afterwards belongs to
    the sockets it held something for before, or to the socket whose token
    the turn has seen validated. *)
Lemma step_gated (P : nat -> Prop) (e : LoopEvent) (m : Manager) :
  Gated P m -> Gated (fun s => P s \/ validatedIn [e] s) (step chalk m e).
Proof.
  intros G0.
  assert (G : Gated (fun s => P s \/ validatedIn [e] s) m)
    by (revert G0; apply Gated_weaken; auto).
  clear G0. destruct e; cbn [step].
  - unfold onConnection.
    destruct (lookup Nat.eqb sock (sockets m)) as [s|] eqn:E; [exact G|].
    assert (G1 : Gated
                   (fun s =>
                      P s \/ validatedIn [Connection sock server token] s)
                   (setSockets m (sockets m ++ [(sock, newSocket)]))).
    { destruct G as [G1 G2 G3 G4 G5 G6]. split; try assumption.
      intros s x H Hx. cbn in H.
      apply lookup_app_new in H as [H| ->]; [now apply (G4 s x)|].
      destruct Hx as [Hx|[Hx|Hx]]; [discriminate|now destruct Hx
                                   |now destruct Hx]. }
    destruct server as [[|c q]|]; try now apply Gated_close.
    destruct token as [[|d t]|]; try now apply Gated_close.
    apply Gated_addPending; [exact G1|discriminate].
  - unfold resume.
    destruct (takePending (pickValidate sock) (pending m)) as [[a rest]|] eqn:E;
      [|exact G].
    destruct (takePending_picked _ _ _ _ _ E) as (_ & Hincl).
    assert (G1 : Gated
                   (fun s =>
                      P s
                      \/ validatedIn [ValidateReturned sock response] s)
                   (setPending m rest)) by now apply Gated_setPending.
    unfold afterValidate. destruct response as [v|]; [|now apply Gated_close].
    destruct (validated v) eqn:Hv; [|now apply Gated_close].
    apply Gated_addPending; [exact G1|].
    intros s H. inversion H; subst. right. exists v. split; [now left|exact Hv].
  - apply Gated_resume with (sock := sock); [exact G|picked|].
    intros a m0 Gm Hs. now apply Gated_setupAfterRow.
  - apply Gated_resume with (sock := sock); [exact G|picked|].
    intros a m0 Gm Hs. now apply Gated_setupAfterInspect.
  - apply Gated_resume with (sock := sock); [exact G|picked|].
    intros a m0 Gm Hs. now apply Gated_logsReturned.
  - unfold onLogStream.
    destruct (lookup Nat.eqb logStreamId (logStreams m)); [|exact G].
    destruct (lookup Nat.eqb _ (sessionObjects m)); [|exact G].
    unfold onLogData. destruct (decodeLogChunk chunk) as [[[ty text]|]|err];
      [now apply Gated_broadcast|exact G|now apply Gated_consoleError].
  - unfold onLogStream.
    destruct (lookup Nat.eqb logStreamId (logStreams m)); [|exact G].
    destruct (lookup Nat.eqb _ (sessionObjects m)); [|exact G].
    now apply Gated_broadcast.
  - now apply Gated_socketClosed.
  - unfold onInterval.
    destruct (lookup Nat.eqb interval (intervals m)) as [sock|] eqn:E;
      [|exact G].
    apply Gated_addPending; [exact G|].
    intros s H. inversion H; subst. exact (@gated_intervals _ _ G _ _ E).
  - apply Gated_resume with (sock := sock); [exact G|picked|].
    intros a m0 Gm Hs. unfold tickAfterInspect.
    destruct answer as [info|err]; [|now apply Gated_consoleError].
    destruct (jseqb (Status info) (js "running")); [|now apply Gated_send].
    apply Gated_addPending; [exact Gm|].
    intros s H. inversion H; subst. exact Hs.
  - apply Gated_resume with (sock := sock); [exact G|picked|].
    intros a m0 Gm Hs. unfold tickAfterStats.
    destruct answer; [now apply Gated_send|now apply Gated_consoleError].
  - unfold onPowerActionMessage.
    destruct (lookup Nat.eqb sock (sockets m)) as [s|] eqn:E; [|exact G].
    destruct (isOpen s && messageListener s) eqn:Hl; [|exact G].
    apply andb_true_iff in Hl as [_ Hl].
    assert (Hs : P sock \/ validatedIn [PowerActionMessage sock action] sock).
    { exact (@gated_sockets _ _ G _ _ E (or_introl Hl)). }
    unfold handlePowerAction.
    destruct (lookup Nat.eqb sock (sessionObjects m)); [|exact G].
    destruct (isEngineAction action);
      (apply Gated_addPending; [now apply Gated_broadcast|]);
      intros s0 H; inversion H; subst; exact Hs.
  - apply Gated_resume with (sock := sock); [exact G|picked|].
    intros a m0 Gm Hs. unfold powerAfterAction.
    destruct answer; [|now apply Gated_powerFailed].
    apply Gated_addPending; [|intros s H; inversion H; subst; exact Hs].
    destruct (jseqb a (js "start") || jseqb a (js "restart"));
      [now apply Gated_attachLogs|exact Gm].
  - apply Gated_resume with (sock := sock); [exact G|picked|].
    intros a m0 Gm Hs. unfold powerAfterInspect.
    destruct answer; [now apply Gated_send|now apply Gated_powerFailed].
Qed.

Lemma run_gated (events : list LoopEvent) :
  forall (P : nat -> Prop) (m : Manager),
    Gated P m ->
    Gated (fun s => P s \/ validatedIn events s) (run chalk m events).
Proof.
  induction events as [|e events IH]; intros P m G.
  - revert G. apply Gated_weaken. auto.
  - unfold run. cbn [fold_left].
    pose proof (IH _ _ (step_gated P e m G)) as G1.
    revert G1. apply Gated_weaken.
    intros s [[H|(v & Hin & Hv)]|(v & Hin & Hv)]; [now left| |];
      right; exists v; (split; [|exact Hv]).
    + destruct Hin as [<-|[]]. now left.
    + now right.
Qed.

(** The token gate of the manager.  Whatever events reach it, the manager
    sends nothing to a connection, registers no session, listener, timer
    or log stream for it, and starts no database or engine call on its
    behalf, unless the panel has answered that the token of that
    connection is valid. *)
Theorem nothing_without_validation (events : list LoopEvent) (sock : nat) :
  let m := run chalk emptyManager events in
  deliveredTo sock m <> []
  \/ (exists session,
        lookup Nat.eqb sock (sessionObjects m) = Some session)
  \/ In sock (sessions m)
  \/ (exists s, lookup Nat.eqb sock (sockets m) = Some s
                /\ (messageListener s = true \/ closeListeners s <> []))
  \/ (exists interval, lookup Nat.eqb interval (intervals m) = Some sock)
  \/ (exists st, lookup Nat.eqb st (logStreams m) = Some sock)
  \/ (exists p, In p (pending m) /\ socketOf p = Some sock) ->
  validatedIn events sock.
Proof.
  cbn zeta. intros H.
  assert (G0 : Gated (fun _ => False) emptyManager).
  { split; cbn; intros; try discriminate; contradiction. }
  pose proof (run_gated events _ _ G0) as G.
  assert (Hs : False \/ validatedIn events sock).
  { destruct H
      as [H|[(x & H)|[H|[(s & H & Hs)|[(i & H)|[(st & H)|(p & H & Hp)]]]]]].
    - unfold deliveredTo in H.
      destruct (lookup Nat.eqb sock (sockets (run chalk emptyManager events)))
        as [s|] eqn:E; [|congruence].
      exact (@gated_sockets _ _ G _ _ E (or_intror (or_introl H))).
    - exact (@gated_objects _ _ G _ _ H).
    - exact (@gated_sessions _ _ G _ H).
    - apply (@gated_sockets _ _ G _ _ H).
      destruct Hs; [now left|]. right. now right.
    - exact (@gated_intervals _ _ G _ _ H).
    - exact (@gated_streams _ _ G _ _ H).
    - exact (@gated_pending _ _ G _ _ H Hp). }
  destruct Hs as [[]|Hs]. exact Hs.
Qed.

End Run.

Lemma nothing_without_validation_witness :
  validatedIn (attachEvents 1 "running") 1.
Proof.
  apply (nothing_without_validation plainChalk (attachEvents 1 "running") 1).
  left. vm_compute. discriminate.
Defined.

End GateFacts.

(** ** The life of a session *)

Module LifecycleFacts.
Import Console Inputs Statements JSFacts SessionFacts GateFacts.

Section Stranding.

Variable chalk : Chalk.
Variable sock : nat.

Local Abbreviation S := (Stranded sock).

(** A turn that leaves the sockets and the sessions alone and starts no
    call. *)
Lemma Stranded_fields (m m' : Manager) :
  S m -> sessions m' = sessions m -> sockets m' = sockets m ->
  incl (pending m') (pending m) -> S m'.
Proof.
  intros [H1 H2 H3] Hs Hk Hp. split.
  - now rewrite Hs.
  - now rewrite Hk.
  - intros p Hin. apply H3. now apply Hp.
Qed.

(** A turn that rewrites one socket and registers no teardown for it. *)
Lemma Stranded_socket (m : Manager) (k : nat) (s s' : Socket) :
  S m -> lookup Nat.eqb k (sockets m) = Some s ->
  (In Teardown (closeListeners s') -> In Teardown (closeListeners s)
                                      \/ k <> sock) ->
  S (setSockets m (assign Nat.eqb k s' (sockets m))).
Proof.
  intros [H1 (s0 & Hs0 & Hn) H3] Hk Hl. split; try assumption.
  cbn [sockets setSockets]. destruct (Nat.eq_dec sock k) as [<-|Hne].
  - exists s'. rewrite lookup_assign_same. split; [reflexivity|].
    intros Hin. destruct (Hl Hin) as [Hold|Hk']; [|congruence].
    rewrite Hs0 in Hk. inversion Hk; subst. contradiction.
  - exists s0. now rewrite lookup_assign_other.
Qed.

Lemma Stranded_send (k : nat) (ev : OutboundEvent) (m : Manager) :
  S m -> S (send k ev m).
Proof.
  intros G. unfold send.
  destruct (lookup Nat.eqb k (sockets m)) as [s|] eqn:E; [|exact G].
  destruct (isOpen s); [|exact G].
  apply Stranded_socket with (s := s); auto.
Qed.

Lemma Stranded_close (k : nat) (code : N) (reason : jsstring) (m : Manager) :
  S m -> S (close k code reason m).
Proof.
  intros G. unfold close.
  destruct (lookup Nat.eqb k (sockets m)) as [s|] eqn:E; [|exact G].
  destruct (isOpen s); [|exact G].
  apply Stranded_socket with (s := s); auto.
Qed.

Lemma Stranded_onMessage (k : nat) (m : Manager) :
  S m -> S (onMessage k m).
Proof.
  intros G. unfold onMessage.
  destruct (lookup Nat.eqb k (sockets m)) as [s|] eqn:E; [|exact G].
  apply Stranded_socket with (s := s); auto.
Qed.

Lemma Stranded_onClose (k : nat) (l : CloseListener) (m : Manager) :
  S m -> l <> Teardown \/ k <> sock -> S (onClose k l m).
Proof.
  intros G Hl. unfold onClose.
  destruct (lookup Nat.eqb k (sockets m)) as [s|] eqn:E; [|exact G].
  apply Stranded_socket with (s := s); [exact G|exact E|].
  cbn [closeListeners]. intros Hin.
  apply in_app_or in Hin as [Hin|[Heq|[]]]; [now left|].
  destruct Hl as [Hl|Hl]; [contradiction|now right].
Qed.

Lemma Stranded_addPending (p : Pending) (m : Manager) :
  S m -> setupOf p <> Some sock -> S (addPending m p).
Proof.
  intros [H1 H2 H3] Hp. split; try assumption.
  intros q Hin. cbn in Hin.
  apply in_app_or in Hin as [Hin|[<-|[]]]; [now apply H3|exact Hp].
Qed.

Lemma Stranded_setPending (rest : list Pending) (m : Manager) :
  S m -> incl rest (pending m) -> S (setPending m rest).
Proof. intros G H. now apply (Stranded_fields m). Qed.

Lemma Stranded_consoleError (line : jsstring) (m : Manager) :
  S m -> S (consoleError m line).
Proof. intros G. apply (Stranded_fields m); auto using incl_refl. Qed.

Lemma Stranded_relay (id line : jsstring) (m : Manager) (k : nat) :
  S m -> S (relay id line m k).
Proof.
  intros G. unfold relay.
  destruct (lookup Nat.eqb k (sessionObjects m)) as [x|]; [|exact G].
  destruct (jseqb (internalId x) id && authenticated x); [|exact G].
  now apply Stranded_send.
Qed.

Lemma Stranded_relay_fold (id line : jsstring) (l : list nat) :
  forall m, S m -> S (fold_left (relay id line) l m).
Proof.
  induction l as [|k l IH]; intros m G; [exact G|].
  cbn [fold_left]. apply IH. now apply Stranded_relay.
Qed.

Lemma Stranded_broadcast (id log : jsstring) (type : LogType) (m : Manager) :
  S m -> S (broadcastToServer chalk id log type m).
Proof.
  intros G. rewrite broadcast_unfold. apply Stranded_relay_fold.
  apply (Stranded_fields m); auto using incl_refl.
Qed.

Lemma Stranded_attachLogs (k : nat) (m : Manager) :
  S m -> S (attachLogs k m).
Proof.
  intros G. unfold attachLogs.
  destruct (lookup Nat.eqb k (sessionObjects m)) as [x|]; [|exact G].
  apply Stranded_addPending; [|discriminate].
  destruct (logStream x); [|exact G].
  apply (Stranded_fields m); auto using incl_refl.
Qed.

Lemma Stranded_startResourceMonitoring (k : nat) (m : Manager) :
  S m -> S (startResourceMonitoring k m).
Proof.
  intros G. unfold startResourceMonitoring.
  apply Stranded_onClose; [|left; discriminate].
  apply (Stranded_fields m); auto using incl_refl.
Qed.

Lemma Stranded_setupFailed (k : nat) (e : jsstring) (m : Manager) :
  S m -> S (setupFailed k e m).
Proof.
  intros G. unfold setupFailed.
  now apply Stranded_close, Stranded_consoleError.
Qed.

Lemma Stranded_setupAfterRow (k : nat) (v : ValidateResponse)
    (row : completion (option jsstring)) (m : Manager) :
  S m -> k <> sock -> S (setupAfterRow k v row m).
Proof.
  intros G Hk. unfold setupAfterRow.
  destruct row as [[[|c id]|]|e]; try now apply Stranded_setupFailed.
  apply Stranded_addPending; [|cbn; congruence].
  destruct G as [H1 H2 H3]. split; try assumption.
  cbn [sessions setSessions setSessionObjects].
  destruct (existsb (Nat.eqb k) (sessions m)); [assumption|].
  apply in_or_app. now left.
Qed.

Lemma Stranded_setupAfterInspect (k : nat)
    (answer : completion ContainerInfo) (m : Manager) :
  S m -> k <> sock -> S (setupAfterInspect k answer m).
Proof.
  intros G Hk. unfold setupAfterInspect.
  destruct answer; [|now apply Stranded_setupFailed].
  apply Stranded_onClose; [|now right]. apply Stranded_onMessage.
  apply Stranded_startResourceMonitoring, Stranded_attachLogs.
  now apply Stranded_send.
Qed.

Lemma Stranded_logsReturned (k : nat) (answer : completion (option nat))
    (m : Manager) :
  S m -> S (logsReturned chalk k answer m).
Proof.
  intros G. unfold logsReturned.
  destruct (lookup Nat.eqb k (sessionObjects m)) as [x|]; [|exact G].
  destruct answer as [[n|]|[|c e]]; try now apply Stranded_broadcast.
  apply (Stranded_fields m); auto using incl_refl.
Qed.

Lemma Stranded_teardown (k : nat) (m : Manager) :
  S m -> k <> sock -> S (teardown k m).
Proof.
  intros G Hk. unfold teardown.
  assert (G1 : S match lookup Nat.eqb k (sessionObjects m) with
                 | Some session =>
                     match logStream session with
                     | Some st =>
                         setLogStreams m (remove Nat.eqb st (logStreams m))
                     | None => m
                     end
                 | None => m
                 end).
  { destruct (lookup Nat.eqb k (sessionObjects m)) as [x|]; [|exact G].
    destruct (logStream x); [|exact G].
    apply (Stranded_fields m); auto using incl_refl. }
  revert G1. generalize (match lookup Nat.eqb k (sessionObjects m) with
                         | Some session =>
                             match logStream session with
                             | Some st =>
                                 setLogStreams m
                                   (remove Nat.eqb st (logStreams m))
                             | None => m
                             end
                         | None => m
                         end).
  intros m1 [H1 H2 H3]. split; try assumption.
  cbn [sessions setSessions]. apply filter_In. split; [assumption|].
  apply negb_true_iff. apply Nat.eqb_neq. congruence.
Qed.

Lemma Stranded_listeners (k : nat) (ls : list CloseListener) :
  (k = sock -> ~ In Teardown ls) ->
  forall m, S m -> S (fold_left (runCloseListener k) ls m).
Proof.
  induction ls as [|l ls IH]; intros Hk m G; [exact G|].
  cbn [fold_left]. apply IH; [intros E Hin; apply (Hk E); now right|].
  destruct l as [j|].
  - cbn [runCloseListener]. apply (Stranded_fields m); auto using incl_refl.
  - apply Stranded_teardown; [exact G|].
    intros E. apply (Hk E). now left.
Qed.

Lemma Stranded_socketClosed (k : nat) (m : Manager) :
  S m -> S (socketClosed k m).
Proof.
  intros G. unfold socketClosed.
  destruct (lookup Nat.eqb k (sockets m)) as [s|] eqn:E; [|exact G].
  assert (Hls : k = sock -> ~ In Teardown (closeListeners s)).
  { intros ->. destruct G as [_ (s0 & Hs0 & Hn) _]. congruence. }
  destruct (readyState s); try exact G;
    (apply Stranded_listeners; [exact Hls|]);
    (apply Stranded_socket with (s := s); [exact G|exact E|auto]).
Qed.

Lemma Stranded_resume (A : Type) (pick : Pending -> option A)
    (k : A -> Manager -> Manager) (m : Manager) :
  S m ->
  (forall a p m0, In p (pending m) -> pick p = Some a -> S m0 -> S (k a m0)) ->
  S (resume pick k m).
Proof.
  intros G Hk. unfold resume.
  destruct (takePending pick (pending m)) as [[a rest]|] eqn:E; [|exact G].
  destruct (takePending_picked _ _ _ _ _ E) as ((p & Hin & Hp) & Hincl).
  apply (Hk a p); [exact Hin|exact Hp|]. now apply Stranded_setPending.
Qed.

Lemma Stranded_powerFailed (k : nat) (action e : jsstring) (m : Manager) :
  S m -> S (powerFailed chalk k action e m).
Proof.
  intros G. unfold powerFailed.
  destruct (lookup Nat.eqb k (sessionObjects m)); [|exact G].
  apply Stranded_send, Stranded_consoleError. now apply Stranded_broadcast.
Qed.

Lemma Stranded_accept (k : nat) (m : Manager) :
  S m -> S (setSockets m (sockets m ++ [(k, newSocket)])).
Proof.
  intros [H1 (s & Hs & Hn) H3]. split; try assumption.
  exists s. split; [|exact Hn]. cbn [sockets setSockets].
  now apply lookup_app_some.
Qed.

(** One turn of the loop keeps a stranded session stranded. *)
Lemma step_stranded (e : LoopEvent) (m : Manager) :
  S m -> S (step chalk m e).
Proof.
  intros G.
  assert (Hsetup : forall p, In p (pending m) -> setupOf p <> Some sock)
    by apply G.
  destruct e; cbn [step].
  - unfold onConnection.
    destruct (lookup Nat.eqb sock0 (sockets m)) as [s|] eqn:E; [exact G|].
    assert (Hne : sock0 <> sock).
    { intros ->. destruct G as [_ (s & Hs & _) _]. congruence. }
    pose proof (Stranded_accept sock0 m G) as G1.
    destruct server as [[|c q]|]; try now apply Stranded_close.
    destruct token as [[|d t]|]; try now apply Stranded_close.
    apply Stranded_addPending; [exact G1|cbn; congruence].
  - apply Stranded_resume; [exact G|]. intros a p m0 Hin Hp G0.
    assert (Hne : sock0 <> sock).
    { intros ->. apply (Hsetup p Hin). destruct p; cbn in Hp;
        try discriminate. apply forSocket_inv in Hp. now subst. }
    unfold afterValidate. destruct response as [v|];
      [|now apply Stranded_close].
    destruct (validated v); [|now apply Stranded_close].
    apply Stranded_addPending; [exact G0|cbn; congruence].
  - apply Stranded_resume; [exact G|]. intros a p m0 Hin Hp G0.
    assert (Hne : sock0 <> sock).
    { intros ->. apply (Hsetup p Hin). destruct p; cbn in Hp;
        try discriminate. apply forSocket_inv in Hp. now subst. }
    now apply Stranded_setupAfterRow.
  - apply Stranded_resume; [exact G|]. intros a p m0 Hin Hp G0.
    assert (Hne : sock0 <> sock).
    { intros ->. apply (Hsetup p Hin). destruct p; cbn in Hp;
        try discriminate. apply forSocket_inv in Hp. now subst. }
    now apply Stranded_setupAfterInspect.
  - apply Stranded_resume; [exact G|]. intros a p m0 _ _ G0.
    now apply Stranded_logsReturned.
  - unfold onLogStream.
    destruct (lookup Nat.eqb logStreamId (logStreams m)); [|exact G].
    destruct (lookup Nat.eqb n (sessionObjects m)); [|exact G].
    unfold onLogData. destruct (decodeLogChunk chunk) as [[[t x]|]|e];
      [now apply Stranded_broadcast|exact G|now apply Stranded_consoleError].
  - unfold onLogStream.
    destruct (lookup Nat.eqb logStreamId (logStreams m)); [|exact G].
    destruct (lookup Nat.eqb n (sessionObjects m)); [|exact G].
    now apply Stranded_broadcast.
  - now apply Stranded_socketClosed.
  - unfold onInterval.
    destruct (lookup Nat.eqb interval (intervals m)); [|exact G].
    apply Stranded_addPending; [exact G|discriminate].
  - apply Stranded_resume; [exact G|]. intros a p m0 _ _ G0.
    unfold tickAfterInspect. destruct answer as [info|e];
      [|now apply Stranded_consoleError].
    destruct (jseqb (Status info) (js "running"));
      [apply Stranded_addPending; [exact G0|discriminate]
      |now apply Stranded_send].
  - apply Stranded_resume; [exact G|]. intros a p m0 _ _ G0.
    unfold tickAfterStats. destruct answer;
      [now apply Stranded_send|now apply Stranded_consoleError].
  - unfold onPowerActionMessage.
    destruct (lookup Nat.eqb sock0 (sockets m)) as [s|]; [|exact G].
    destruct (isOpen s && messageListener s); [|exact G].
    unfold handlePowerAction.
    destruct (lookup Nat.eqb sock0 (sessionObjects m)); [|exact G].
    destruct (isEngineAction action);
      (apply Stranded_addPending; [|discriminate]);
      now apply Stranded_broadcast.
  - apply Stranded_resume; [exact G|]. intros a p m0 _ _ G0.
    unfold powerAfterAction. destruct answer;
      [|now apply Stranded_powerFailed].
    apply Stranded_addPending; [|discriminate].
    destruct (jseqb a (js "start") || jseqb a (js "restart"));
      [now apply Stranded_attachLogs|exact G0].
  - apply Stranded_resume; [exact G|]. intros a p m0 _ _ G0.
    unfold powerAfterInspect. destruct answer;
      [now apply Stranded_send|now apply Stranded_powerFailed].
Qed.

Lemma run_stranded (events : list LoopEvent) :
  forall m, S m -> S (run chalk m events).
Proof.
  induction events as [|e events IH]; intros m G; [exact G|].
  unfold run. cbn [fold_left]. apply IH. now apply step_stranded.
Qed.

Lemma takePending_middle (A : Type) (pick : Pending -> option A)
    (before after : list Pending) (x : Pending) (a : A) :
  (forall p, In p before -> pick p = None) -> pick x = Some a ->
  takePending pick (before ++ x :: after) = Some (a, before ++ after).
Proof.
  intros Hb Hx. induction before as [|p before IH]; cbn.
  - now rewrite Hx.
  - rewrite (Hb p) by now left. rewrite IH; [reflexivity|].
    intros q Hq. apply Hb. now right.
Qed.

(** A session whose setup fails after it was registered is never
    removed.  When [inspect] fails during the setup of a session, the
    socket is closed with code 1011, but the session stays in the sessions
    map: the listener that would delete it is registered only at the end
    of a setup that succeeds.  Whatever happens afterwards, the close of
    the socket included, the session is still registered and the socket
    still has no such listener. *)
Theorem failed_setup_strands_session (m : Manager) (s : Socket)
    (before after : list Pending) (e : jsstring)
    (events : list LoopEvent) :
  In sock (sessions m) ->
  lookup Nat.eqb sock (sockets m) = Some s ->
  ~ In Teardown (closeListeners s) ->
  pending m = before ++ AwaitSetupInspect sock :: after ->
  (forall p, In p (before ++ after) -> setupOf p <> Some sock) ->
  let failed := step chalk m (SetupInspectReturned sock (Throw e)) in
  (isOpen s = true ->
   exists s', lookup Nat.eqb sock (sockets failed) = Some s'
              /\ readyState s' = CLOSING
              /\ closeSent s'
                 = Some (1011%N, js "Failed to initialize session"))
  /\ In sock (sessions (run chalk failed events))
  /\ exists s', lookup Nat.eqb sock (sockets (run chalk failed events))
                = Some s'
                /\ ~ In Teardown (closeListeners s').
Proof.
  intros Hin Hs Hn Hp Hrest. cbn zeta.
  assert (Hstep : step chalk m (SetupInspectReturned sock (Throw e))
                  = setupFailed sock e (setPending m (before ++ after))).
  { cbn [step]. unfold resume. rewrite Hp.
    rewrite (takePending_middle _ (pickSetupInspect sock) before after
               (AwaitSetupInspect sock) tt); [reflexivity| |].
    - intros p Hb. destruct p; try reflexivity. cbn. unfold forSocket.
      destruct (Nat.eqb_spec sock0 sock) as [->|]; [|reflexivity].
      exfalso. apply (Hrest (AwaitSetupInspect sock)); [|reflexivity].
      apply in_or_app. now left.
    - cbn. unfold forSocket. now rewrite Nat.eqb_refl. }
  rewrite Hstep. split.
  - intros Ho. unfold setupFailed, close.
    cbn [sockets consoleError setPending]. rewrite Hs, Ho.
    eexists. cbn [sockets setSockets]. rewrite lookup_assign_same.
    split; [reflexivity|]. split; reflexivity.
  - assert (G : S (setupFailed sock e (setPending m (before ++ after)))).
    { apply Stranded_setupFailed. split.
      - exact Hin.
      - exists s. split; assumption.
      - exact Hrest. }
    destruct (run_stranded events _ G) as [H1 H2 H3]. split; assumption.
Qed.

End Stranding.

Lemma failed_setup_strands_session_witness :
  In 1
    (sessions
       (run plainChalk
          (step plainChalk
             (run plainChalk emptyManager
                [Connection 1 (Some (js "int-1")) (Some (js "token"));
                 ValidateReturned 1 (Some sampleValidation);
                 ServerRowReturned 1 (Ok (Some (js "abc123")))])
             (SetupInspectReturned 1 (Throw (js "no such container"))))
          [SocketClosed 1])).
Proof.
  apply (failed_setup_strands_session plainChalk 1
           (run plainChalk emptyManager
              [Connection 1 (Some (js "int-1")) (Some (js "token"));
               ValidateReturned 1 (Some sampleValidation);
               ServerRowReturned 1 (Ok (Some (js "abc123")))])
           newSocket [] [] (js "no such container") [SocketClosed 1]).
  - vm_compute. now left.
  - reflexivity.
  - intros [].
  - reflexivity.
  - intros p [].
Defined.

Section Closing.

Variable chalk : Chalk.

Lemma teardown_sessions (k : nat) (m : Manager) :
  sessions (teardown k m)
  = filter (fun j => negb (Nat.eqb j k)) (sessions m).
Proof.
  unfold teardown.
  destruct (lookup Nat.eqb k (sessionObjects m)) as [x|];
    [destruct (logStream x) as [st|]|]; reflexivity.
Qed.

Lemma filter_twice (A : Type) (f : A -> bool) (l : list A) :
  filter f (filter f l) = filter f l.
Proof.
  induction l as [|x l IH]; [reflexivity|]. cbn [filter].
  destruct (f x) eqn:E; [cbn [filter]; now rewrite E, IH|exact IH].
Qed.

Lemma listeners_sessions (k : nat) (ls : list CloseListener) :
  forall m,
    let others := filter (fun j => negb (Nat.eqb j k)) in
    (In Teardown ls ->
     sessions (fold_left (runCloseListener k) ls m) = others (sessions m))
    /\ (sessions (fold_left (runCloseListener k) ls m) = sessions m
        \/ sessions (fold_left (runCloseListener k) ls m)
           = others (sessions m)).
Proof.
  cbn zeta. induction ls as [|l ls IH]; intros m.
  - split; [intros []|now left].
  - cbn [fold_left]. destruct (IH (runCloseListener k m l)) as [IH1 IH2].
    destruct l as [j|].
    + cbn [runCloseListener sessions setIntervals] in *. split; [|exact IH2].
      intros [H|H]; [discriminate|now apply IH1].
    + cbn [runCloseListener] in *. rewrite teardown_sessions in *.
      rewrite filter_twice in *.
      assert (E : sessions (fold_left (runCloseListener k) ls (teardown k m))
                  = filter (fun j => negb (Nat.eqb j k)) (sessions m))
        by (destruct IH2 as [H|H]; exact H).
      split; [intros _; exact E|now right].
Qed.

(** When the socket of a session that was set up closes, the session is
    deleted from the sessions map and the other sessions stay: the close
    event runs the teardown listener, and no listener of the socket puts
    the session back. *)
Theorem close_removes_session (m : Manager) (sock : nat) (s : Socket) :
  lookup Nat.eqb sock (sockets m) = Some s ->
  readyState s <> CLOSED -> In Teardown (closeListeners s) ->
  sessions (step chalk m (SocketClosed sock))
  = filter (fun k => negb (Nat.eqb k sock)) (sessions m).
Proof.
  intros Hs Hr Hl. cbn [step]. unfold socketClosed. rewrite Hs.
  destruct (readyState s); try congruence;
    match goal with
    | |- context [fold_left _ ?ls ?m0] =>
        destruct (listeners_sessions sock ls m0) as [H _]
    end; now rewrite (H Hl).
Qed.

End Closing.

Lemma close_removes_session_witness :
  sessions
    (step plainChalk
       (run plainChalk emptyManager
          (attachEvents 1 "running" ++ attachEvents 2 "running"))
       (SocketClosed 1))
  = [2].
Proof.
  pose proof (close_removes_session plainChalk
                (run plainChalk emptyManager
                   (attachEvents 1 "running" ++ attachEvents 2 "running"))
                1) as H.
  vm_compute in H. vm_compute. eapply H; [reflexivity|discriminate|].
  right. now left.
Defined.

End LifecycleFacts.

(** ** Power actions the engine is not asked for *)

Module PowerFacts.
Import Console Inputs JSFacts SessionFacts.

Section Unknown.

Variable chalk : Chalk.

(** A power action that is none of [start], [stop] and [restart] asks
    nothing of the engine and is still reported as a change of the power
    state: the session is sent the announcement of the action and then a
    [power_status] event made from the state the container is in, which
    for a running container says that the power state was successfully
    changed. *)
Theorem unknown_action_reports_state (info : ContainerInfo) (sock : nat)
    (session : ConsoleSession) (action : jsstring) (m : Manager) :
  Attached sock session m -> noPowerPending sock m ->
  isEngineAction action = false ->
  deliveredTo sock
    (run chalk m
       [PowerActionMessage sock action;
        PowerInspectReturned sock (Ok info)])
  = deliveredTo sock m
    ++ [console_output
          (formatLogMessage chalk DAEMON
             (js "Performing a " ++ action ++ js " action on server..."));
        power_status (powerStatusText chalk (Status info)) action
          (Status info)
          match Error info with
          | Some e => e
          | None => []
          end]
  /\ (forall p,
        In p (pending (step chalk m (PowerActionMessage sock action))) ->
        pickPower sock p = None)
  /\ (Status info = js "running" ->
      powerStatusText chalk (Status info)
      = daemonTag chalk ++ js " The power state was successfully changed!").
Proof.
  intros H Hp Ha. split; [|split].
  - pose proof (power_action_report chalk
                  {| world := unit;
                     act := fun _ _ w => (Ok tt, w);
                     inspect := fun _ _ => Ok info |}
                  tt sock session action m H Hp) as R.
    unfold powerActionEvents in R. rewrite Ha in R. exact R.
  - destruct (broadcast_attached chalk
                (js "Performing a " ++ action ++ js " action on server...")
                DAEMON sock session m H) as (_ & _ & Hpend).
    cbn zeta in Hpend.
    cbn [step]. unfold onPowerActionMessage, handlePowerAction.
    destruct H as ((s & Hs & Hopen & Hl) & Ho & _).
    rewrite Hs. unfold isOpen. rewrite Hopen, Hl, Ho, Ha. cbn [andb].
    intros p Hin. cbn [pending addPending setPending] in Hin.
    apply in_app_or in Hin as [Hin|[<-|[]]]; [|reflexivity].
    rewrite Hpend in Hin. now apply Hp.
  - intros ->. reflexivity.
Qed.

End Unknown.

Lemma unknown_action_reports_state_witness :
  deliveredTo 1
    (run plainChalk (run plainChalk emptyManager (attachEvents 1 "running"))
       [PowerActionMessage 1 (js "kill");
        PowerInspectReturned 1 (Ok (stateOf "running"))])
  = [auth_success [] (js "running");
     console_output
       (js "[Krypton Daemon] Performing a kill action on server...");
     power_status
       (js "[Krypton Daemon] The power state was successfully changed!")
       (js "kill") (js "running") []].
Proof.
  assert (HA : Attached 1 (sampleSession 1)
                 (run plainChalk emptyManager (attachEvents 1 "running"))).
  { split; [eexists; split; [vm_compute; reflexivity
                            |split; vm_compute; reflexivity]|].
    split; [vm_compute; reflexivity|]. split; vm_compute; reflexivity. }
  assert (HP : noPowerPending 1
                 (run plainChalk emptyManager (attachEvents 1 "running"))).
  { intros p Hin. vm_compute in Hin. destruct Hin. }
  destruct (unknown_action_reports_state plainChalk (stateOf "running") 1
              (sampleSession 1) (js "kill") _ HA HP eq_refl) as [H _].
  vm_compute in H. vm_compute. exact H.
Defined.

End PowerFacts.

(** ** The retry policy of [fetchServerConfig] *)

Module PanelFacts.
Import Servers Panel PanelStatements.

Section Retries.

Variable A : Type.
Variable panel : nat -> Reply A.

Ltac finish :=
  cbn; repeat split; try lia; try reflexivity; try assumption;
  try (intros k Hk [d Hd];
       assert (Hc : k = 1 \/ k = 2) by lia; destruct Hc; subst k; try lia;
       congruence);
  try (intros [d Hd]; congruence);
  try (repeat match goal with
              | E : panel _ = _ |- _ => rewrite E
              end; reflexivity).


End Retries.

End PanelFacts.

(** ** The main process and [send_command] *)

Module CommandFacts.
Import Servers Console Inputs Commands CommandStatements JSFacts.

(** *** White space *)

Lemma trimStart_white (t s : jsstring) :
  forallb isWhiteSpace t = true -> trimStart (t ++ s) = trimStart s.
Proof.
  induction t as [|c t IH]; [reflexivity|]. cbn [forallb app trimStart].
  intros H. apply andb_true_iff in H as [Hc Ht]. now rewrite Hc, IH.
Qed.

Lemma spaces_white (n : nat) : forallb isWhiteSpace (spaces n) = true.
Proof. induction n as [|n IH]; [reflexivity|exact IH]. Qed.

Lemma forallb_rev (A : Type) (p : A -> bool) (l : list A) :
  forallb p (rev l) = forallb p l.
Proof.
  induction l as [|x l IH]; [reflexivity|]. cbn [rev forallb].
  rewrite forallb_app, IH. cbn. rewrite andb_true_r. apply andb_comm.
Qed.

(** A string that neither starts nor ends with white space. *)
Definition tight (s : jsstring) : Prop :=
  (exists a x, s = a :: x /\ isWhiteSpace a = false)
  /\ (exists y b, s = y ++ [b] /\ isWhiteSpace b = false).

Lemma trim_padded (before s after : jsstring) :
  tight s ->
  forallb isWhiteSpace before = true -> forallb isWhiteSpace after = true ->
  trim (before ++ s ++ after) = s.
Proof.
  intros [(a & x & Ea & Ha) (y & b & Eb & Hb)] Hbefore Hafter. unfold trim.
  rewrite (trimStart_white before) by assumption.
  assert (H1 : trimStart (s ++ after) = s ++ after).
  { rewrite Ea. cbn [app trimStart]. now rewrite Ha. }
  rewrite H1, rev_app_distr, trimStart_white
    by now rewrite forallb_rev.
  assert (H2 : trimStart (rev s) = rev s).
  { rewrite Eb, rev_app_distr. cbn [rev app trimStart]. now rewrite Hb. }
  rewrite H2. apply rev_involutive.
Qed.

Lemma word_tight (w : jsstring) : word w -> tight w.
Proof.
  intros [Hne Hall]. split.
  - destruct w as [|a x]; [congruence|]. exists a, x. split; [reflexivity|].
    cbn in Hall. apply andb_true_iff in Hall as [Ha _].
    now apply negb_true_iff in Ha.
  - destruct (exists_last Hne) as (y & b & ->). exists y, b.
    split; [reflexivity|]. rewrite forallb_app in Hall.
    apply andb_true_iff in Hall as [_ Hb]. cbn in Hb.
    rewrite andb_true_r in Hb. now apply negb_true_iff in Hb.
Qed.

Lemma decimal_word (ds : jsstring) : isDecimal ds -> word ds.
Proof.
  intros [Hne Hall]. split; [assumption|].
  apply forallb_forall. intros c Hc. apply negb_true_iff.
  apply isDigit_not_white. now apply (proj1 (forallb_forall _ _) Hall).
Qed.

Lemma tight_app (s t mid : jsstring) :
  tight s -> tight t -> tight (s ++ mid ++ t).
Proof.
  intros [(a & x & Ea & Ha) _] [_ (y & b & Eb & Hb)]. split.
  - exists a, (x ++ mid ++ t). rewrite Ea. split; [reflexivity|assumption].
  - exists (s ++ mid ++ y), b. rewrite Eb, <- !app_assoc.
    split; [reflexivity|assumption].
Qed.

Lemma joinGap_tight (g : nat) (fields : list jsstring) :
  fields <> [] -> Forall word fields -> tight (joinGap g fields).
Proof.
  induction fields as [|f fields IH]; intros Hne Hall; [congruence|].
  inversion Hall as [|? ? Hf Hrest]; subst.
  destruct fields as [|f' fields]; [now apply word_tight|].
  cbn [joinGap]. apply tight_app; [now apply word_tight|].
  apply IH; [discriminate|assumption].
Qed.

(** *** Splitting a line into its fields *)

Lemma splitRuns_word (w r piece : jsstring) :
  forallb (fun c => negb (isWhiteSpace c)) w = true ->
  splitRuns (w ++ r) piece false = splitRuns r (piece ++ w) false.
Proof.
  revert piece. induction w as [|c w IH]; intros piece H.
  - now rewrite app_nil_r.
  - cbn [forallb] in H. apply andb_true_iff in H as [Hc Hw].
    apply negb_true_iff in Hc. cbn [app splitRuns]. rewrite Hc.
    rewrite IH by assumption. now rewrite <- app_assoc.
Qed.

Lemma splitRuns_first (w r : jsstring) (inRun : bool) :
  word w -> splitRuns (w ++ r) [] inRun = splitRuns r w false.
Proof.
  intros [Hne H]. destruct w as [|c w]; [congruence|].
  cbn [forallb] in H. apply andb_true_iff in H as [Hc Hw].
  apply negb_true_iff in Hc. cbn [app splitRuns]. rewrite Hc.
  now rewrite splitRuns_word.
Qed.

Lemma splitRuns_spaces (g : nat) (r : jsstring) :
  splitRuns (spaces g ++ r) [] true = splitRuns r [] true.
Proof. induction g as [|g IH]; [reflexivity|exact IH]. Qed.

Lemma splitRuns_fields (g : nat) (fields : list jsstring) :
  fields <> [] -> Forall word fields ->
  forall inRun, splitRuns (joinGap (S g) fields) [] inRun = fields.
Proof.
  induction fields as [|f fields IH]; intros Hne Hall inRun; [congruence|].
  inversion Hall as [|? ? Hf Hrest]; subst.
  destruct fields as [|f' fields].
  - cbn [joinGap]. rewrite <- (app_nil_r f) at 1.
    now rewrite splitRuns_first.
  - change (joinGap (S g) (f :: f' :: fields))
      with (f ++ 32%N :: spaces g ++ joinGap (S g) (f' :: fields)).
    rewrite splitRuns_first by assumption.
    change (splitRuns (32%N :: spaces g ++ joinGap (S g) (f' :: fields))
              f false)
      with (f :: splitRuns (spaces g ++ joinGap (S g) (f' :: fields))
                   [] true).
    rewrite splitRuns_spaces. f_equal. apply IH; [discriminate|assumption].
Qed.

(** *** Numbers *)

Lemma parseIntAny_decimal (ds : jsstring) :
  isDecimal ds -> parseIntAny ds = Some (digitsValue ds).
Proof.
  intros [Hne Hall]. destruct ds as [|c ds]; [congruence|].
  pose proof Hall as Hall'. cbn [forallb] in Hall'.
  apply andb_true_iff in Hall' as [Hc Hds].
  unfold parseIntAny. cbn [trimStart]. rewrite (isDigit_not_white _ Hc).
  assert (Hrange : (48 <= c <= 57)%N).
  { unfold isDigit in Hc. apply andb_true_iff in Hc as [H1 H2].
    apply N.leb_le in H1. apply N.leb_le in H2. lia. }
  assert (Hm : (c =? 45)%N = false) by (apply N.eqb_neq; lia).
  assert (Hp : (c =? 43)%N = false) by (apply N.eqb_neq; lia).
  rewrite Hm, Hp.
  assert (Hx : forall p, (p = 120 \/ p = 88)%N ->
                 startsWith [48%N; p] (c :: ds) = false).
  { intros p Hp'. cbn [startsWith]. destruct (N.eqb_spec 48 c); [|reflexivity].
    destruct ds as [|d ds']; [reflexivity|]. cbn [andb].
    cbn [forallb] in Hds. apply andb_true_iff in Hds as [Hd _].
    unfold isDigit in Hd. apply andb_true_iff in Hd as [H1 H2].
    apply N.leb_le in H1. apply N.leb_le in H2.
    destruct (N.eqb_spec p d); [lia|reflexivity]. }
  change (js "0x") with [48%N; 120%N]. change (js "0X") with [48%N; 88%N].
  rewrite !Hx by auto. cbn [orb].
  rewrite (takeDigits_all _ Hall). reflexivity.
Qed.

(** *** Lines *)

Lemma split_plain (sep : N) (w : jsstring) :
  ~ In sep w -> split sep w = [w].
Proof.
  induction w as [|c w IH]; intros H; [reflexivity|].
  cbn [split]. destruct (N.eqb_spec c sep) as [->|Hne].
  - exfalso. apply H. now left.
  - rewrite IH; [reflexivity|]. intros Hin. apply H. now right.
Qed.

Lemma split_app_plain (sep : N) (w r : jsstring) :
  ~ In sep w -> split sep (w ++ sep :: r) = w :: split sep r.
Proof.
  induction w as [|c w IH]; intros H.
  - cbn [app split]. now rewrite N.eqb_refl.
  - cbn [app split]. destruct (N.eqb_spec c sep) as [->|Hne].
    + exfalso. apply H. now left.
    + rewrite IH; [reflexivity|]. intros Hin. apply H. now right.
Qed.

Lemma split_lines (sep : N) (lines : list jsstring) :
  lines <> [] -> Forall (fun line => ~ In sep line) lines ->
  split sep (joinWith sep lines) = lines.
Proof.
  induction lines as [|line lines IH]; intros Hne Hall; [congruence|].
  inversion Hall as [|? ? Hline Hrest]; subst.
  destruct lines as [|line' lines]; [now apply split_plain|].
  cbn [joinWith]. rewrite split_app_plain by assumption.
  f_equal. apply IH; [discriminate|assumption].
Qed.

Lemma word_no_newline (w : jsstring) : word w -> ~ In 10%N w.
Proof.
  intros [_ H] Hin.
  apply (proj1 (forallb_forall _ _) H) in Hin. discriminate.
Qed.

Lemma spaces_no_newline (n : nat) : ~ In 10%N (spaces n).
Proof. intros H. apply repeat_spec in H. discriminate. Qed.

Lemma joinGap_no_newline (g : nat) (fields : list jsstring) :
  Forall word fields -> ~ In 10%N (joinGap g fields).
Proof.
  induction 1 as [|f fields Hf _ IH]; [auto|].
  destruct fields as [|f' fields]; [now apply word_no_newline|].
  cbn [joinGap]. intros Hin.
  apply in_app_or in Hin as [Hin|Hin]; [now apply (word_no_newline f)|].
  apply in_app_or in Hin as [Hin|Hin]; [now apply (spaces_no_newline g)|].
  now apply IH.
Qed.

Lemma fields_words (r : Row) : wellFormed r -> Forall word (fieldsOf r).
Proof.
  intros (Hp & Hpp & Hw). unfold fieldsOf.
  constructor; [now apply decimal_word|].
  constructor; [now apply decimal_word|assumption].
Qed.

Lemma renderRow_no_newline (r : Row) :
  wellFormed r -> ~ In 10%N (renderRow r).
Proof.
  intros Hr Hin. unfold renderRow in Hin.
  apply in_app_or in Hin as [Hin|Hin]; [now apply spaces_no_newline in Hin|].
  revert Hin. apply joinGap_no_newline. now apply fields_words.
Qed.

(** *** Rows *)

Lemma parseProcess_padded (r : Row) (before after : jsstring) :
  wellFormed r ->
  forallb isWhiteSpace before = true -> forallb isWhiteSpace after = true ->
  parseProcess (before ++ joinGap (S (gap r)) (fieldsOf r) ++ after)
  = processOf r.
Proof.
  intros Hr Hb Ha. pose proof (fields_words r Hr) as Hw.
  unfold parseProcess. cbn zeta.
  rewrite trim_padded; try assumption;
    [|apply joinGap_tight; [discriminate|assumption]].
  unfold splitWhiteSpace.
  rewrite splitRuns_fields; [|discriminate|assumption].
  destruct Hr as (Hp & Hpp & _). unfold fieldsOf, processOf.
  cbn [nth skipn]. now rewrite !parseIntAny_decimal.
Qed.

Lemma parseProcess_row (r : Row) :
  wellFormed r -> parseProcess (renderRow r) = processOf r.
Proof.
  intros Hr. unfold renderRow.
  rewrite <- (app_nil_r (joinGap _ _)).
  apply parseProcess_padded; [assumption|apply spaces_white|reflexivity].
Qed.

Lemma find_map (A B : Type) (f : A -> B) (p : B -> bool) (l : list A) :
  find p (map f l) = option_map f (find (fun x => p (f x)) l).
Proof.
  induction l as [|x l IH]; [reflexivity|]. cbn [map find].
  destruct (p (f x)); [reflexivity|exact IH].
Qed.

Lemma join_cons_app (sep : N) (a b : jsstring) (lines : list jsstring) :
  joinWith sep ((a ++ b) :: lines) = a ++ joinWith sep (b :: lines).
Proof.
  destruct lines; cbn [joinWith]; [reflexivity|].
  symmetry. apply app_assoc.
Qed.

Lemma listing_tight (t : jsstring) (rows : list Row) :
  tight t -> Forall wellFormed rows ->
  tight (joinWith 10 (t :: map renderRow rows)).
Proof.
  intros Ht Hall. revert t Ht.
  induction Hall as [|r rows Hr _ IH]; intros t Ht; [exact Ht|].
  cbn [map]. unfold renderRow at 1.
  change (joinWith 10 (t :: ?l :: ?ls))
    with (t ++ 10%N :: joinWith 10 (l :: ls)).
  rewrite join_cons_app.
  change (t ++ 10%N :: ?a ++ ?b) with (t ++ (10%N :: a) ++ b).
  apply tight_app; [assumption|]. apply IH.
  apply joinGap_tight; [discriminate|now apply fields_words].
Qed.

Lemma map_parseProcess (rows : list Row) :
  Forall wellFormed rows ->
  map parseProcess (map renderRow rows) = map processOf rows.
Proof.
  induction 1 as [|r rows Hr _ IH]; [reflexivity|].
  cbn [map]. now rewrite parseProcess_row, IH.
Qed.



(** *** Sending a command *)

Lemma mainProcessOf_nonzero (output : jsstring) (p : Z) :
  mainProcessOf output = Some p -> p <> 0%Z.
Proof.
  unfold mainProcessOf. destruct (find _ _) as [q|]; [|discriminate].
  destruct (pid q) as [n|]; [|discriminate].
  destruct (Z.eqb_spec n 0); [discriminate|]. congruence.
Qed.

Lemma findMainProcess_quiet (engine : ShellEngine) :
  written (snd (findMainProcess engine)) = []
  /\ sent (snd (findMainProcess engine)) = []
  /\ shellsCreated (snd (findMainProcess engine)) = 0
  /\ (forall p, fst (findMainProcess engine) = Some p -> p <> 0%Z).
Proof.
  unfold findMainProcess.
  destruct (listingCreated engine) as [[]|e];
    [destruct (listingStarted engine) as [output|e]|];
    cbn; repeat split; try discriminate.
  apply mainProcessOf_nonzero.
Qed.


End CommandFacts.

(** ** The routes of the servers router *)

Module RouteFacts.
Import Servers Panel Routes RouteStatements.

Lemma flat_map_map_nil (A B C : Type) (f : B -> list C) (g : A -> B)
    (l : list A) :
  (forall x, f (g x) = []) -> flat_map f (map g l) = [].
Proof.
  intros H. induction l as [|x l IH]; [reflexivity|].
  cbn [map flat_map]. now rewrite H, IH.
Qed.

Lemma flat_map_map_single (A B : Type) (f : B -> list A) (g : A -> B)
    (l : list A) :
  (forall x, f (g x) = [x]) -> flat_map f (map g l) = l.
Proof.
  intros H. induction l as [|x l IH]; [reflexivity|].
  cbn [map flat_map]. now rewrite H, IH.
Qed.

Ltac observe :=
  unfold responses, statements, engineCalls, gameContainers, removals,
    deletions;
  rewrite ?flat_map_app; cbn [flat_map app];
  rewrite ?flat_map_map_nil by reflexivity;
  rewrite ?flat_map_map_single by reflexivity;
  cbn [app]; rewrite ?app_nil_r.

Ltac unfoldRoutes :=
  unfold reinstallRoute, deleteRoute, createRoute, afterInstallation,
    createGameContainer, removeContainerOf, installation, fetchConfig,
    catch, andThen, emit, pure, raise, dbGet, dbRun, createContainer,
    removeContainer, rm;
  cbn [fst snd].

(** The answers of the host, one after the other. *)
Ltac answers :=
  repeat
    (match goal with
     | |- context [answerGet ?h ?t ?s ?p] =>
         destruct (answerGet h t s p) as [[[[|? ?]|]|]|?]
     | |- context [answerRun ?h ?t ?s ?p] =>
         destruct (answerRun h t s p) as [[]|?]
     | |- context [answerRemove ?h ?t ?d] =>
         destruct (answerRemove h t d) as [[]|?]
     | |- context [answerRm ?h ?t ?d] =>
         destruct (answerRm h t d) as [[]|?]
     | |- context [answerCreate ?h ?t ?o] =>
         destruct (answerCreate h t o) as [?|?]
     | |- context [processVariables ?l ?i ?v] =>
         destruct (processVariables l i v) as [?|?]
     | |- context [Servers.runInstallation ?l ?v ?c ?i ?g ?e ?r] =>
         destruct (Servers.runInstallation l v c i g e r)
           as [[[]|?] ?] eqn:?
     end; cbn [fst snd]).

(** The statements before the last one. *)
Ltac earlierIs pick :=
  pick; (split; [observe; reflexivity|]);
  intros sql params Hin; cbn in Hin;
  repeat match goal with
         | H : _ \/ _ |- _ => destruct H
         | H : (_, _) = (_, _) |- _ => inversion H; subst; clear H
         | H : False |- _ => destruct H
         end; discriminate.

Ltac earlier :=
  first [ earlierIs ltac:(exists [])
        | earlierIs ltac:(eexists [_])
        | earlierIs ltac:(eexists [_; _])
        | earlierIs ltac:(eexists [_; _; _]) ].

Section Router.

Variable toLowerCase : jsstring -> jsstring.
Variables appUrl volumesDirectory cwd : jsstring.
Variable panel : nat -> Reply ServerConfig.
Variable env : Env.

Local Abbreviation reinstallRoute :=
  (reinstallRoute toLowerCase appUrl volumesDirectory cwd panel env).
Local Abbreviation deleteRoute := (deleteRoute volumesDirectory).
Local Abbreviation createRoute :=
  (createRoute toLowerCase appUrl volumesDirectory cwd panel env).
Local Abbreviation runInstallation :=
  (runInstallation toLowerCase volumesDirectory cwd).




End Router.

End RouteFacts.
